(** * PageRank.py: a shallow embedding and its verification

    The program reads an edge list, builds the inbound adjacency and the
    out-degree dictionaries, iterates the damped PageRank update until the
    L1 variation drops below the tolerance (or the budget of passes is
    spent), and prints the twenty best nodes.

    Modelling choices.
    - NodeId is a Python int: [Z].
    - Python floats are modelled by exact canonical rationals [Qc]; every
      statement below is about the exact-arithmetic reading of the code.
    - dict / defaultdict are [gmap], set is [gset]. The order in which
      [for v in all_nodes] visits the set is left to the runtime by Python:
      it is a parameter [node_order] of the iterator, and the program is
      the iterator run on [elements].
    - Exceptions and standard output are explicit: a computation is a pair
      of the lines printed so far and either a raised exception or a value. *)

From Stdlib Require Import ZArith QArith Qcanon Qcabs Qabs Qround Qpower Lqa.
From Stdlib Require Import Floats Uint63.
From stdpp Require Import base numbers list strings gmap sorting.

Local Open Scope Z_scope.

(** ** Python runtime: exceptions, standard output, the computation monad *)

Inductive exn : Type :=
  | ZeroDivisionError
  | KeyError
  | IndexError.

(** One constructor per [print] call of the source. *)
Inductive event : Type :=
  | MsgReading                                   (* "[1] Lecture du edges.csv..." *)
  | MsgNodeSet                                   (* "[2] Construction de l'ensemble des noeuds..." *)
  | MsgNodeCount (n : Z)                         (* "    Nombre total de noeuds = {n}" *)
  | MsgIndex                                     (* "[3] Construction inbound_links & outdegree..." *)
  | MsgInit                                      (* "[4] Initialisation PageRank..." *)
  | MsgIterations (damping : Qc)                 (* "[5] Iterations PageRank (damping= ... )..." *)
  | MsgConverged (iteration : Z) (diff : Qc)     (* "    Convergence atteinte a l'iteration ..." *)
  | MsgTop20                                     (* "=== Top 20 (PageRank) ===" *)
  | MsgRankNamed (rank node_id : Z) (name : string) (score : Qc)
  | MsgRank (rank node_id : Z) (score : Qc).

Definition M (A : Type) : Type := (list event * (exn + A))%type.

Global Instance M_ret : MRet M := λ A a, ([], inr a).

Global Instance M_bind : MBind M := λ A B f m,
  match m with
  | (out, inl e) => (out, inl e)
  | (out, inr a) => let '(out', r) := f a in (out ++ out', r)
  end.

Definition raise {A} (e : exn) : M A := ([], inl e).
Definition print (e : event) : M unit := ([e], inr ()).

Definition stdout {A} (m : M A) : list event := m.1.
Definition outcome {A} (m : M A) : exn + A := m.2.

(** [for x in xs: s = body(s, x)] *)
Fixpoint for_each {A S : Type} (xs : list A) (body : S → A → M S) (s : S) : M S :=
  match xs with
  | [] => mret s
  | x :: xs' => s' ← body s x; for_each xs' body s'
  end.

(** [x / y] on numbers: raises on a zero divisor. *)
Definition py_truediv (x y : Qc) : M Qc :=
  if decide (y = 0%Qc) then raise ZeroDivisionError else mret (x / y)%Qc.

(** [d[k]] on a plain dict. *)
Definition py_getitem {V} (d : gmap Z V) (k : Z) : M V :=
  match d !! k with
  | Some x => mret x
  | None => raise KeyError
  end.

(** [d[k]] on a [defaultdict]: a missing key reads as the default value. *)
Definition dd_getitem {V} (dflt : V) (d : gmap Z V) (k : Z) : V :=
  default dflt (d !! k).

(** [l[i]] on a list, with Python's negative indices. *)
Definition py_list_getitem {A} (l : list A) (i : Z) : M A :=
  let len := Z.of_nat (length l) in
  let j := if decide (i < 0) then len + i else i in
  if decide (0 ≤ j < len) then
    match l !! Z.to_nat j with
    | Some x => mret x
    | None => raise IndexError
    end
  else raise IndexError.

(** [sum(xs)]: a left fold from 0. *)
Definition py_sum (xs : list Qc) : Qc := foldl Qcplus 0%Qc xs.

(** ** compute_pagerank_inbound *)

Definition all_nodes_of (df_edges : list (Z * Z)) : gset Z :=
  list_to_set (df_edges.*1) ∪ list_to_set (df_edges.*2).

(** Body of the loop over the rows (lines 31-35). *)
Definition add_edge (idx : gmap Z (list Z) * gmap Z Z) (row : Z * Z)
    : gmap Z (list Z) * gmap Z Z :=
  let '(inbound_links, outdegree) := idx in
  let '(src, tgt) := row in
  (<[tgt := dd_getitem [] inbound_links tgt ++ [src]]> inbound_links,
   <[src := dd_getitem 0 outdegree src + 1]> outdegree).

Definition build_index (df_edges : list (Z * Z)) : gmap Z (list Z) * gmap Z Z :=
  foldl add_edge (∅, ∅) df_edges.

Definition inbound_links_of (df_edges : list (Z * Z)) : gmap Z (list Z) :=
  (build_index df_edges).1.
Definition outdegree_of (df_edges : list (Z * Z)) : gmap Z Z :=
  (build_index df_edges).2.

Section iterator.
Variable all_nodes : gset Z.
(** The order in which the runtime enumerates [all_nodes]. *)
Variable node_order : list Z.
Variable inbound_links : gmap Z (list Z).
Variable outdegree : gmap Z Z.
Variables damping tol : Qc.

Definition n : Z := Z.of_nat (size all_nodes).

(** Line 39: [{node: 1.0/n for node in all_nodes}]. *)
Definition initial_pagerank : M (gmap Z Qc) :=
  for_each node_order
    (λ pagerank node, x ← py_truediv 1%Qc (Qc_of_Z n); mret (<[node := x]> pagerank))
    ∅.

(** Lines 51-54. *)
Definition inbound_contribution (pagerank : gmap Z Qc) (v : Z) : M Qc :=
  for_each (dd_getitem [] inbound_links v)
    (λ in_sum u,
       pu ← py_getitem pagerank u;
       c ← py_truediv pu (Qc_of_Z (dd_getitem 0 outdegree u));
       mret (in_sum + c)%Qc)
    0%Qc.

(** Lines 44-61: one pass; returns [new_pagerank] and [diff]. *)
Definition update_pass (pagerank : gmap Z Qc) : M (gmap Z Qc * Qc) :=
  let sum_pr := py_sum (snd <$> map_to_list pagerank) in
  new_pagerank ← for_each node_order
    (λ new_pagerank v,
       in_sum ← inbound_contribution pagerank v;
       share ← py_truediv sum_pr (Qc_of_Z n);
       mret (<[v := ((1 - damping) * share + damping * in_sum)%Qc]> new_pagerank))
    ∅;
  diff ← for_each node_order
    (λ acc v,
       a ← py_getitem new_pagerank v;
       b ← py_getitem pagerank v;
       mret (acc + Qcabs (a - b))%Qc)
    0%Qc;
  mret (new_pagerank, diff).

(** Lines 43-67: [for iteration in range(max_iter)] with its [break]. *)
Fixpoint iterate (iterations : list Z) (pagerank : gmap Z Qc) : M (gmap Z Qc) :=
  match iterations with
  | [] => mret pagerank
  | iteration :: rest =>
      '(new_pagerank, diff) ← update_pass pagerank;
      if decide (diff < tol)%Qc then
        _ ← print (MsgConverged (iteration + 1) diff);
        mret new_pagerank
      else iterate rest new_pagerank
  end.
End iterator.

Definition compute_pagerank_inbound_in (node_order : list Z)
    (df_edges : list (Z * Z)) (damping : Qc) (max_iter : Z) (tol : Qc) : M (gmap Z Qc) :=
  _ ← print MsgReading;
  _ ← print MsgNodeSet;
  let all_nodes := all_nodes_of df_edges in
  _ ← print (MsgNodeCount (n all_nodes));
  _ ← print MsgIndex;
  let '(inbound_links, outdegree) := build_index df_edges in
  _ ← print MsgInit;
  pagerank ← initial_pagerank all_nodes node_order;
  _ ← print (MsgIterations damping);
  iterate all_nodes node_order inbound_links outdegree damping tol (seqZ 0 max_iter) pagerank.

Definition compute_pagerank_inbound
    (df_edges : list (Z * Z)) (damping : Qc) (max_iter : Z) (tol : Qc) : M (gmap Z Qc) :=
  compute_pagerank_inbound_in (elements (all_nodes_of df_edges))
    df_edges damping max_iter tol.

(** ** The main program *)

Definition by_score_desc (x y : Z * Qc) : Prop := (y.2 ≤ x.2)%Qc.
Global Instance by_score_desc_dec : RelDecision by_score_desc.
Proof. intros x y. unfold by_score_desc. apply _. Defined.

(** Lines 89-108. [names_csv] is the content of names.csv, [None] when
    [load_names] raises (the bare [except] then gives the empty list). *)
Definition main (df_edges : list (Z * Z)) (names_csv : option (list string)) : M () :=
  pagerank_scores ← compute_pagerank_inbound df_edges (Q2Qc (85 # 100)) 100 (Q2Qc (1 # 100000000));
  let sorted_pr := merge_sort by_score_desc (map_to_list pagerank_scores) in
  let node_names := default [] names_csv in
  _ ← print MsgTop20;
  for_each (seqZ 0 20)
    (λ _ i,
       '(node_id, score) ← py_list_getitem sorted_pr i;
       if decide (node_id < Z.of_nat (length node_names)) then
         name ← py_list_getitem node_names node_id;
         print (MsgRankNamed (i + 1) node_id name score)
       else print (MsgRank (i + 1) node_id score))
    ().

(** Readable view of a score map for concrete checks. *)
Definition scores_view (pr : gmap Z Qc) : list (Z * Q) :=
  (λ kv, (kv.1, this kv.2)) <$> map_to_list pr.

Definition outcome_view (m : M (gmap Z Qc)) : exn + list (Z * Q) :=
  match outcome m with inl e => inl e | inr pr => inr (scores_view pr) end.


(** ** Exact sums *)

Fixpoint Qcsum (xs : list Qc) : Qc :=
  match xs with
  | [] => 0%Qc
  | x :: xs' => (x + Qcsum xs')%Qc
  end.

Definition Qc_of_nat (k : nat) : Qc := Qc_of_Z (Z.of_nat k).

(** ** The update as the specification writes it

    A graph index is the triple (node_set, inbound, out_degree); the
    previous map is read through [score]. *)

Definition score (pr : gmap Z Qc) (u : Z) : Qc := default 0%Qc (pr !! u).

Section update_formula.
Variable node_set : gset Z.
Variable inbound : gmap Z (list Z).
Variable out_degree : gmap Z Z.
Variable d : Qc.

Definition sum_pr_spec (pr : gmap Z Qc) : Qc :=
  Qcsum (score pr <$> elements node_set).

Definition in_sum_spec (pr : gmap Z Qc) (v : Z) : Qc :=
  Qcsum ((λ u, score pr u / Qc_of_Z (dd_getitem 0%Z out_degree u))%Qc
           <$> dd_getitem [] inbound v).

Definition new_score (pr : gmap Z Qc) (v : Z) : Qc :=
  ((1 - d) * (sum_pr_spec pr / Qc_of_Z (n node_set)) + d * in_sum_spec pr v)%Qc.

Definition update_spec (pr : gmap Z Qc) : gmap Z Qc :=
  set_to_map (λ v, (v, new_score pr v)) node_set.

Definition l1_diff (a b : gmap Z Qc) : Qc :=
  Qcsum ((λ v, Qcabs (score a v - score b v)) <$> elements node_set).

Definition uniform_spec : gmap Z Qc :=
  set_to_map (λ v, (v, (1 / Qc_of_Z (n node_set))%Qc)) node_set.

(** The map after [j] updates of [pr]. *)
Definition pr_seq (j : nat) (pr : gmap Z Qc) : gmap Z Qc :=
  Nat.iter j update_spec pr.

(** The variation measured by pass number [j] (counted from 0). *)
Definition diff_seq (j : nat) (pr : gmap Z Qc) : Qc :=
  l1_diff (pr_seq (S j) pr) (pr_seq j pr).
End update_formula.

(** What the iterator needs from an index: every listed predecessor is a
    node and has a positive out-degree. *)
Definition index_wf (node_set : gset Z) (inbound : gmap Z (list Z))
    (out_degree : gmap Z Z) : Prop :=
  ∀ v u, u ∈ dd_getitem [] inbound v → u ∈ node_set ∧ 0 < dd_getitem 0 out_degree u.

(** The index of a row list, and the pass sequence on it from the uniform
    start. *)
Definition pagerank_after (df_edges : list (Z * Z)) (damping : Qc) (j : nat) : gmap Z Qc :=
  pr_seq (all_nodes_of df_edges) (inbound_links_of df_edges) (outdegree_of df_edges)
    damping j (uniform_spec (all_nodes_of df_edges)).

Definition diff_after (df_edges : list (Z * Z)) (damping : Qc) (j : nat) : Qc :=
  diff_seq (all_nodes_of df_edges) (inbound_links_of df_edges) (outdegree_of df_edges)
    damping j (uniform_spec (all_nodes_of df_edges)).

(** Every node has at least one outbound row. *)
Definition no_dangling (df_edges : list (Z * Z)) : Prop :=
  Forall (λ u, 0 < dd_getitem 0 (outdegree_of df_edges) u) (elements (all_nodes_of df_edges)).

Definition nonneg_scores (pr : gmap Z Qc) : Prop :=
  map_Forall (λ _ x, (0 ≤ x)%Qc) pr.

(** The convergence line was printed. *)
Definition is_convergence_line (e : event) : bool :=
  match e with MsgConverged _ _ => true | _ => false end.

Definition reported_convergence {A} (m : M A) : bool :=
  existsb is_convergence_line (stdout m).

(** What the display loop prints for the entry [(node_id, score)] of rank
    [rank], when no exception is raised. *)
Definition rank_line (node_names : list string) (rank : Z) (entry : Z * Qc)
    (line : event) : Prop :=
  if decide (entry.1 < Z.of_nat (length node_names)) then
    ∃ name, node_names !! Z.to_nat entry.1 = Some name
            ∧ line = MsgRankNamed rank entry.1 name entry.2
  else line = MsgRank rank entry.1 entry.2.

(** Small inputs used to run the statements below. *)
Definition example_cycle : list (Z * Z) := [(1, 2); (2, 1)].
Definition example_sink : list (Z * Z) := [(1, 2)].
Definition example_graph : list (Z * Z) := [(1, 2); (1, 3); (2, 3); (3, 1)].
Definition example_big_ring : list (Z * Z) :=
  (λ i, (i, (i + 1) `mod` 25)) <$> seqZ 0 25.
Definition example_negative : list (Z * Z) :=
  (λ i, (- (i + 10), - ((i + 1) `mod` 25 + 10))) <$> seqZ 0 25.
Definition default_damping : Qc := Q2Qc (85 # 100).
Definition default_tol : Qc := Q2Qc (1 # 100000000).
Definition example_scores : gmap Z Qc :=
  <[1 := Q2Qc (1 # 2)]> (<[2 := Q2Qc (1 # 4)]> (<[3 := Q2Qc (1 # 4)]> ∅)).

(** The lines printed before the loop starts. *)
Definition prelude (df_edges : list (Z * Z)) (damping : Qc) : list event :=
  [MsgReading; MsgNodeSet; MsgNodeCount (n (all_nodes_of df_edges)); MsgIndex;
   MsgInit; MsgIterations damping].

(** A configuration the specification calls invalid. *)
Definition invalid_config (damping : Qc) (max_iter : Z) (tol : Qc) : Prop :=
  (damping < 0)%Qc ∨ (1 < damping)%Qc ∨ max_iter ≤ 0 ∨ (tol ≤ 0)%Qc.

(** ** The same function on floats

    The definitions above read the floats as exact rationals. This module
    is a second embedding of lines 17-69 in which the arithmetic of
    Python's [float] is an interface: every operation of the source is a
    call to it, in the order in which the source performs it. [sum] and
    [+=] accumulate from left to right, the counts [n] and [outdegree[u]]
    are converted by the division. Dictionaries keep their keys in
    insertion order, which is the order [node_order] in which the runtime
    enumerates [all_nodes]. *)
Module Float.

Record Arith (F : Type) : Type := {
  zero : F;                (* 0.0, and the int 0 from which [sum] starts *)
  one : F;                 (* 1.0, and the int 1 of [1 - damping] *)
  of_int : Z → F;          (* the conversion of an int operand *)
  add : F → F → F;
  sub : F → F → F;
  mul : F → F → F;
  div : F → F → F;
  abs : F → F;
  ltb : F → F → bool }.
Arguments zero {F}.
Arguments one {F}.
Arguments of_int {F}.
Arguments add {F}.
Arguments sub {F}.
Arguments mul {F}.
Arguments div {F}.
Arguments abs {F}.
Arguments ltb {F}.

Inductive event (F : Type) : Type :=
  | MsgReading
  | MsgNodeSet
  | MsgNodeCount (n : Z)
  | MsgIndex
  | MsgInit
  | MsgIterations (damping : F)
  | MsgConverged (iteration : Z) (diff : F).
Arguments MsgReading {F}.
Arguments MsgNodeSet {F}.
Arguments MsgNodeCount {F}.
Arguments MsgIndex {F}.
Arguments MsgInit {F}.
Arguments MsgIterations {F}.
Arguments MsgConverged {F}.

Definition M (F A : Type) : Type := (list (event F) * (exn + A))%type.

Definition ret {F A} (a : A) : M F A := ([], inr a).

Definition bind {F A B} (m : M F A) (f : A → M F B) : M F B :=
  match m with
  | (out, inl e) => (out, inl e)
  | (out, inr a) => let '(out', r) := f a in (out ++ out', r)
  end.

Definition raise {F A} (e : exn) : M F A := ([], inl e).
Definition print {F} (e : event F) : M F unit := ([e], inr ()).

Definition stdout {F A} (m : M F A) : list (event F) := m.1.
Definition outcome {F A} (m : M F A) : exn + A := m.2.

Fixpoint for_each {F A S : Type} (xs : list A) (body : S → A → M F S) (s : S) : M F S :=
  match xs with
  | [] => ret s
  | x :: xs' => bind (body s x) (for_each xs' body)
  end.

Definition py_getitem {F} (d : gmap Z F) (k : Z) : M F F :=
  match d !! k with
  | Some x => ret x
  | None => raise KeyError
  end.

Section program.
Context {F : Type}.
Variable ops : Arith F.
Variable all_nodes : gset Z.
Variable node_order : list Z.
Variable inbound_links : gmap Z (list Z).
Variable outdegree : gmap Z Z.
Variables damping tol : F.

(** [x / y] for a float [x] and an int [y]. *)
Definition py_truediv (x : F) (y : Z) : M F F :=
  if decide (y = 0) then raise ZeroDivisionError
  else ret (div ops x (of_int ops y)).

(** [sum(xs)], from left to right. *)
Definition py_sum (xs : list F) : F := foldl (add ops) (zero ops) xs.

(** [d.values()] for a dictionary filled in the order [node_order]. *)
Definition values (d : gmap Z F) : list F :=
  omap (λ v, d !! v) node_order.

Definition initial_pagerank : M F (gmap Z F) :=
  for_each node_order
    (λ pagerank node,
       bind (py_truediv (one ops) (n all_nodes)) (λ x, ret (<[node := x]> pagerank)))
    ∅.

Definition inbound_contribution (pagerank : gmap Z F) (v : Z) : M F F :=
  for_each (dd_getitem [] inbound_links v)
    (λ in_sum u,
       bind (py_getitem pagerank u) (λ pu,
       bind (py_truediv pu (dd_getitem 0 outdegree u)) (λ c,
       ret (add ops in_sum c))))
    (zero ops).

Definition update_pass (pagerank : gmap Z F) : M F (gmap Z F * F) :=
  let sum_pr := py_sum (values pagerank) in
  bind (for_each node_order
          (λ new_pagerank v,
             bind (inbound_contribution pagerank v) (λ in_sum,
             bind (py_truediv sum_pr (n all_nodes)) (λ share,
             ret (<[v := add ops (mul ops (sub ops (one ops) damping) share)
                           (mul ops damping in_sum)]> new_pagerank))))
          ∅) (λ new_pagerank,
  bind (for_each node_order
          (λ acc v,
             bind (py_getitem new_pagerank v) (λ a,
             bind (py_getitem pagerank v) (λ b,
             ret (add ops acc (abs ops (sub ops a b))))))
          (zero ops)) (λ diff,
  ret (new_pagerank, diff))).

Fixpoint iterate (iterations : list Z) (pagerank : gmap Z F) : M F (gmap Z F) :=
  match iterations with
  | [] => ret pagerank
  | iteration :: rest =>
      bind (update_pass pagerank) (λ '(new_pagerank, diff),
        if ltb ops diff tol then
          bind (print (MsgConverged (iteration + 1) diff)) (λ _, ret new_pagerank)
        else iterate rest new_pagerank)
  end.

(** What one pass computes when nothing is raised, operation by
    operation. *)
Definition score (pr : gmap Z F) (u : Z) : F := default (zero ops) (pr !! u).

Definition in_sum_of (pr : gmap Z F) (v : Z) : F :=
  foldl (λ in_sum u,
           add ops in_sum (div ops (score pr u) (of_int ops (dd_getitem 0 outdegree u))))
    (zero ops) (dd_getitem [] inbound_links v).

Definition new_score_of (pr : gmap Z F) (v : Z) : F :=
  add ops
    (mul ops (sub ops (one ops) damping)
       (div ops (py_sum (values pr)) (of_int ops (n all_nodes))))
    (mul ops damping (in_sum_of pr v)).

Definition update_of (pr : gmap Z F) : gmap Z F :=
  foldl (λ new_pagerank v, <[v := new_score_of pr v]> new_pagerank) ∅ node_order.

Definition diff_of (new_pagerank pr : gmap Z F) : F :=
  foldl (λ acc v, add ops acc (abs ops (sub ops (score new_pagerank v) (score pr v))))
    (zero ops) node_order.

Definition uniform_of : gmap Z F :=
  foldl (λ pagerank node, <[node := div ops (one ops) (of_int ops (n all_nodes))]> pagerank)
    ∅ node_order.
End program.

Definition compute_pagerank_inbound {F} (ops : Arith F) (node_order : list Z)
    (df_edges : list (Z * Z)) (damping : F) (max_iter : Z) (tol : F)
    : M F (gmap Z F) :=
  bind (print MsgReading) (λ _,
  bind (print MsgNodeSet) (λ _,
  let all_nodes := all_nodes_of df_edges in
  bind (print (MsgNodeCount (n all_nodes))) (λ _,
  bind (print MsgIndex) (λ _,
  let '(inbound_links, outdegree) := build_index df_edges in
  bind (print MsgInit) (λ _,
  bind (initial_pagerank ops all_nodes node_order) (λ pagerank,
  bind (print (MsgIterations damping)) (λ _,
  iterate ops all_nodes node_order inbound_links outdegree damping tol
    (seqZ 0 max_iter) pagerank))))))).

(** The lines printed before the loop starts. *)
Definition prelude {F} (df_edges : list (Z * Z)) (damping : F) : list (event F) :=
  [MsgReading; MsgNodeSet; MsgNodeCount (n (all_nodes_of df_edges)); MsgIndex;
   MsgInit; MsgIterations damping].

(** The map after [j] passes from the start of line 39. *)
Definition pagerank_after {F} (ops : Arith F) (node_order : list Z)
    (df_edges : list (Z * Z)) (damping : F) (j : nat) : gmap Z F :=
  Nat.iter j
    (update_of ops (all_nodes_of df_edges) node_order (inbound_links_of df_edges)
       (outdegree_of df_edges) damping)
    (uniform_of ops (all_nodes_of df_edges) node_order).

(** The convergence line was printed. *)
Definition reported_convergence {F A} (m : M F A) : bool :=
  existsb (λ e, match e with MsgConverged _ _ => true | _ => false end) (stdout m).

(** The variation that one more pass measures on the map a run returned. *)
Definition next_diff {F} (ops : Arith F) (node_order : list Z) (df_edges : list (Z * Z))
    (damping : F) (run : M F (gmap Z F)) : option F :=
  match outcome run with
  | inl _ => None
  | inr pagerank =>
      match outcome (update_pass ops (all_nodes_of df_edges) node_order
                       (inbound_links_of df_edges) (outdegree_of df_edges)
                       damping pagerank) with
      | inl _ => None
      | inr (_, diff) => Some diff
      end
  end.

(** The score of a node in the map a run returned. *)
Definition final_score {F} (run : M F (gmap Z F)) (v : Z) : option F :=
  match outcome run with
  | inl _ => None
  | inr pagerank => pagerank !! v
  end.

(** What a run printed and returned, with every float read as the
    rational it denotes. *)
Definition event_view {F} (to_Q : F → Q) (e : event F) : event Q :=
  match e with
  | MsgReading => MsgReading
  | MsgNodeSet => MsgNodeSet
  | MsgNodeCount k => MsgNodeCount k
  | MsgIndex => MsgIndex
  | MsgInit => MsgInit
  | MsgIterations x => MsgIterations (to_Q x)
  | MsgConverged i x => MsgConverged i (to_Q x)
  end.

Definition view {F} (to_Q : F → Q) (run : M F (gmap Z F))
    : list (event Q) * (exn + list (Z * Q)) :=
  (event_view to_Q <$> stdout run,
   match outcome run with
   | inl e => inl e
   | inr pagerank => inr ((λ kv, (kv.1, to_Q kv.2)) <$> map_to_list pagerank)
   end).

(** IEEE 754 binary64, the [float] of CPython: the kernel's primitive
    floats, which round to nearest, ties to even. *)
Definition binary64 : Arith float :=
  {| zero := 0%float;
     one := 1%float;
     of_int z := PrimFloat.of_uint63 (Uint63.of_Z z);
     add := PrimFloat.add;
     sub := PrimFloat.sub;
     mul := PrimFloat.mul;
     div := PrimFloat.div;
     abs := PrimFloat.abs;
     ltb := PrimFloat.ltb |}.

(** Rationals on which every operation returns its exact result passed
    through a rounding function [rnd]. The counts convert exactly (they
    are below 2^53) and so does the absolute value. *)
Definition rounded (rnd : Qc → Qc) : Arith Qc :=
  {| zero := 0%Qc;
     one := 1%Qc;
     of_int := Qc_of_Z;
     add x y := rnd (x + y)%Qc;
     sub x y := rnd (x - y)%Qc;
     mul x y := rnd (x * y)%Qc;
     div x y := rnd (x / y)%Qc;
     abs := Qcabs;
     ltb x y := bool_decide (x < y)%Qc |}.
End Float.

(** [rnd] returns every rational with a relative error of at most [u]:
    binary64 does on the results that neither overflow nor underflow,
    with [u] = 2^-53. *)
Definition rounds_within (u : Qc) (rnd : Qc → Qc) : Prop :=
  ∀ x, (Qcabs (rnd x - x) ≤ u * Qcabs x)%Qc.

(** [x] is the non-negative [y] after at most [k] roundings, each of
    relative error at most [u]. *)
Definition within (u : Qc) (k : nat) (x y : Qc) : Prop :=
  ((1 - u) ^ k * y ≤ x ∧ x ≤ (1 + u) ^ k * y)%Qc.

(** The number of roundings behind one score of a pass is at most this. *)
Definition pass_roundings (df_edges : list (Z * Z)) : nat :=
  size (all_nodes_of df_edges) + length df_edges + 4.

(** Round to nearest, ties to even, on [p] significant bits and an
    unbounded exponent: binary64 for [p] = 53, as long as the result neither
    overflows nor underflows. [floor_log2 q] is the exponent of the
    positive rational [q]. *)
Definition floor_log2 (q : Q) : Z :=
  let a := Qnum q in
  let b := Zpos (Qden q) in
  let l := Z.log2 a - Z.log2 b in
  if (b * 2 ^ Z.log2 a <=? a * 2 ^ Z.log2 b) then l else l - 1.

Definition round_nearest_pos (p : Z) (q : Q) : Q :=
  let e := floor_log2 q - (p - 1) in
  let y := (q / 2 ^ e)%Q in
  let m := Qfloor y in
  let m' := match (y - inject_Z m ?= 1 # 2)%Q with
            | Lt => m
            | Gt => m + 1
            | Eq => if Z.even m then m else m + 1
            end in
  (inject_Z m' * 2 ^ e)%Q.

Definition round_nearest (p : Z) (x : Qc) : Qc :=
  match (this x ?= 0)%Q with
  | Eq => 0%Qc
  | Gt => Q2Qc (round_nearest_pos p (this x))
  | Lt => (- Q2Qc (round_nearest_pos p (- this x)))%Qc
  end.

(** The rational that a finite float denotes. *)
Definition Q_of_float (f : float) : Q :=
  match Prim2SF f with
  | S754_finite s m e =>
      Qred ((if s then -1 else 1) * (inject_Z (Zpos m) * 2 ^ e))%Q
  | _ => 0%Q
  end.

Definition Qc_of_float (f : float) : Qc := Q2Qc (Q_of_float f).

(** The largest relative error of rounding to nearest on [p] bits. *)
Definition unit_roundoff (p : Z) : Qc := Q2Qc (2 ^ (- p))%Q.

(** Inputs on which the binary64 program is run below; the damping factor
    and the tolerances are the doubles that Python reads from [0.85],
    [1e-16] and [1e-8]. *)
Definition star_to_4 : list (Z * Z) := [(2, 4); (3, 4); (4, 4); (1, 4)].
Definition small_graph : list (Z * Z) := [(2, 3); (3, 3); (3, 1)].
Definition ascending_3 : list Z := [1; 2; 3].
Definition descending_3 : list Z := [3; 2; 1].
Definition ascending_4 : list Z := [1; 2; 3; 4].
Definition damping_f64 : float := 0x1.b333333333333p-1%float.
Definition tiny_tol_f64 : float := 0x1.cd2b297d889bcp-54%float.
Definition default_tol_f64 : float := 0x1.5798ee2308c3ap-27%float.

(** ** The computation monad *)

Lemma M_bind_ret {A B} (a : A) (f : A → M B) : (mret a ≫= f) = f a.
Proof. unfold mret, mbind, M_ret, M_bind. by destruct (f a). Qed.

Lemma M_bind_print {B} (e : event) (f : () → M B) :
  (print e ≫= f) = (e :: (f ()).1, (f ()).2).
Proof. unfold print, mbind, M_bind. by destruct (f ()). Qed.

Lemma M_bind_raise {A B} (e : exn) (f : A → M B) : (raise e ≫= f) = raise e.
Proof. done. Qed.

Lemma for_each_pure {A S} (xs : list A) (body : S → A → M S) (g : S → A → S) s :
  (∀ s' x, x ∈ xs → body s' x = mret (g s' x)) →
  for_each xs body s = mret (foldl g s xs).
Proof.
  revert s. induction xs as [|x xs IH]; intros s Hbody; simpl; [done|].
  rewrite Hbody by left. rewrite M_bind_ret. apply IH.
  intros s' y Hy. apply Hbody. by right.
Qed.

(** ** Sums of rationals *)

Local Open Scope Qc_scope.

Lemma Qcsum_app xs ys : Qcsum (xs ++ ys) = Qcsum xs + Qcsum ys.
Proof.
  induction xs as [|x xs IH]; csimpl.
  - by rewrite Qcplus_0_l.
  - rewrite IH. ring.
Qed.

Lemma foldl_Qcplus {A} (f : A → Qc) a (xs : list A) :
  foldl (λ acc x, acc + f x) a xs = a + Qcsum (f <$> xs).
Proof.
  revert a. induction xs as [|x xs IH]; intros a; csimpl.
  - by rewrite Qcplus_0_r.
  - rewrite IH. ring.
Qed.

Lemma py_sum_Qcsum xs : py_sum xs = Qcsum xs.
Proof.
  unfold py_sum. rewrite <-(list_fmap_id xs) at 2.
  rewrite <-(Qcplus_0_l (Qcsum _)). apply (foldl_Qcplus id).
Qed.

Lemma Qcsum_Permutation xs ys : xs ≡ₚ ys → Qcsum xs = Qcsum ys.
Proof.
  induction 1 as [|x xs ys _ IH|x y xs|xs ys zs _ IH1 _ IH2]; csimpl.
  - done.
  - by rewrite IH.
  - ring.
  - congruence.
Qed.

Lemma Qcsum_ext {A} (f g : A → Qc) (l : list A) :
  (∀ x, x ∈ l → f x = g x) → Qcsum (f <$> l) = Qcsum (g <$> l).
Proof.
  induction l as [|x l IH]; intros H; csimpl; [done|].
  rewrite H, IH; [done| |left]. intros y Hy. apply H. by right.
Qed.

Lemma Qcsum_plus {A} (f g : A → Qc) (l : list A) :
  Qcsum ((λ x, f x + g x) <$> l) = Qcsum (f <$> l) + Qcsum (g <$> l).
Proof. induction l as [|x l IH]; csimpl; [|rewrite IH]; ring. Qed.

Lemma Qcsum_scale {A} c (f : A → Qc) (l : list A) :
  Qcsum ((λ x, c * f x) <$> l) = c * Qcsum (f <$> l).
Proof. induction l as [|x l IH]; csimpl; [|rewrite IH]; ring. Qed.

Lemma Qc_of_nat_S k : Qc_of_nat (S k) = 1 + Qc_of_nat k.
Proof.
  unfold Qc_of_nat. rewrite Nat2Z.inj_succ, <-Z.add_1_l, Z2Qc_inj_add.
  by rewrite Z2Qc_inj_1.
Qed.

Lemma Qcsum_const {A} c (l : list A) :
  Qcsum ((λ _, c) <$> l) = Qc_of_nat (length l) * c.
Proof.
  induction l as [|x l IH].
  - change (Qc_of_nat (length (@nil A))) with (Qc_of_Z 0).
    rewrite Z2Qc_inj_0. csimpl. ring.
  - csimpl. rewrite Qc_of_nat_S, IH. ring.
Qed.

Lemma Qcsum_nonneg {A} (f : A → Qc) (l : list A) :
  (∀ x, x ∈ l → 0 ≤ f x) → 0 ≤ Qcsum (f <$> l).
Proof.
  induction l as [|x l IH]; intros H; csimpl; [done|].
  apply Qcplus_nonneg_nonneg; [apply H; left|].
  apply IH. intros y Hy. apply H. by right.
Qed.

Lemma Qcsum_le {A} (f g : A → Qc) (l : list A) :
  (∀ x, x ∈ l → f x ≤ g x) → Qcsum (f <$> l) ≤ Qcsum (g <$> l).
Proof.
  induction l as [|x l IH]; intros H; csimpl; [done|].
  apply Qcplus_le_compat; [apply H; left|].
  apply IH. intros y Hy. apply H. by right.
Qed.

Lemma Qcabs_Qcsum {A} (f : A → Qc) (l : list A) :
  Qcabs (Qcsum (f <$> l)) ≤ Qcsum ((λ x, Qcabs (f x)) <$> l).
Proof.
  induction l as [|x l IH]; csimpl; [done|].
  etrans; [apply Qcabs_triangle|].
  by apply Qcplus_le_compat.
Qed.

(** ** The graph index built from the rows *)

Local Close Scope Qc_scope.
Local Open Scope Z_scope.

Lemma build_index_snoc df_edges row :
  build_index (df_edges ++ [row]) = add_edge (build_index df_edges) row.
Proof. unfold build_index. by rewrite foldl_app. Qed.

(** [inbound_links[v]] lists the sources of the rows that point to [v], in
    row order. *)
Lemma inbound_links_lookup df_edges v :
  dd_getitem [] (inbound_links_of df_edges) v = (filter (λ e, e.2 = v) df_edges).*1.
Proof.
  induction df_edges as [|[src tgt] df_edges IH] using rev_ind; [done|].
  unfold inbound_links_of in *. rewrite build_index_snoc.
  destruct (build_index df_edges) as [inb outd]. simpl in *.
  rewrite filter_app, fmap_app, <-IH. unfold dd_getitem.
  rewrite filter_cons, filter_nil. simpl. rewrite lookup_insert.
  destruct (decide (tgt = v)) as [->|Hne]; simpl; [done|].
  by rewrite app_nil_r.
Qed.

(** [outdegree[u]] counts the rows whose source is [u]. *)
Lemma outdegree_lookup df_edges u :
  dd_getitem 0 (outdegree_of df_edges) u
  = Z.of_nat (length (filter (λ e, e.1 = u) df_edges)).
Proof.
  induction df_edges as [|[src tgt] df_edges IH] using rev_ind; [done|].
  unfold outdegree_of in *. rewrite build_index_snoc.
  destruct (build_index df_edges) as [inb outd]. simpl in *.
  rewrite filter_app, length_app, Nat2Z.inj_add, <-IH. unfold dd_getitem.
  rewrite filter_cons, filter_nil. simpl. rewrite lookup_insert.
  destruct (decide (src = u)) as [->|Hne]; simpl; lia.
Qed.

Lemma elem_of_all_nodes df_edges x :
  x ∈ all_nodes_of df_edges ↔ ∃ e, e ∈ df_edges ∧ (e.1 = x ∨ e.2 = x).
Proof.
  unfold all_nodes_of. rewrite elem_of_union, !elem_of_list_to_set, !list_elem_of_fmap.
  split.
  - intros [(e & -> & He)|(e & -> & He)]; exists e; auto.
  - intros (e & He & [<-|<-]); [left|right]; exists e; auto.
Qed.

Lemma build_index_wf df_edges :
  index_wf (all_nodes_of df_edges) (inbound_links_of df_edges) (outdegree_of df_edges).
Proof.
  intros v u. rewrite inbound_links_lookup, outdegree_lookup.
  intros ([src tgt] & -> & [Htgt He]%list_elem_of_filter)%list_elem_of_fmap.
  simpl in *. split.
  - apply elem_of_all_nodes. exists (src, tgt). auto.
  - assert (0 < length (filter (λ e, e.1 = src) df_edges))%nat; [|lia].
    assert ((src, tgt) ∈ filter (λ e : Z * Z, e.1 = src) df_edges) as Hin.
    { by apply list_elem_of_filter. }
    destruct (filter _ df_edges); [by apply not_elem_of_nil in Hin|simpl; lia].
Qed.

Lemma outdegree_nonneg df_edges u : 0 ≤ dd_getitem 0 (outdegree_of df_edges) u.
Proof. rewrite outdegree_lookup. lia. Qed.

(** ** One pass of the loop computes the update formula *)

Lemma py_getitem_score (pr : gmap Z Qc) u :
  u ∈ dom pr → py_getitem pr u = mret (score pr u).
Proof.
  intros [x Hx]%elem_of_dom. unfold py_getitem, score. by rewrite Hx.
Qed.

Lemma py_truediv_nonzero x y : y ≠ 0%Qc → py_truediv x y = mret (x / y)%Qc.
Proof. intros Hy. unfold py_truediv. by rewrite decide_False. Qed.

Lemma Qc_of_Z_nonzero z : z ≠ 0 → Qc_of_Z z ≠ 0%Qc.
Proof. rewrite <-Z2Qc_inj_0. intros Hz Heq. by apply Z2Qc_inj in Heq. Qed.

Lemma n_pos (node_set : gset Z) v : v ∈ node_set → 0 < n node_set.
Proof.
  intros Hv. unfold n.
  destruct (decide (size node_set = 0%nat)) as [Hz|]; [|lia].
  apply size_empty_iff in Hz. set_solver.
Qed.

Lemma n_length_elements (node_set : gset Z) :
  n node_set = Z.of_nat (length (elements node_set)).
Proof. done. Qed.

Lemma map_to_list_fst_dom (pr : gmap Z Qc) :
  (map_to_list pr).*1 ≡ₚ elements (dom pr).
Proof.
  apply NoDup_Permutation.
  - apply NoDup_fst_map_to_list.
  - apply NoDup_elements.
  - intros k. rewrite elem_of_elements, elem_of_dom, list_elem_of_fmap. split.
    + intros ([k' x] & -> & Hkx%elem_of_map_to_list). by exists x.
    + intros [x Hx]. exists (k, x). split; [done|]. by apply elem_of_map_to_list.
Qed.

Lemma sum_values_spec (pr : gmap Z Qc) :
  py_sum (snd <$> map_to_list pr) = sum_pr_spec (dom pr) pr.
Proof.
  rewrite py_sum_Qcsum. unfold sum_pr_spec.
  rewrite <-(Qcsum_Permutation _ _ (fmap_Permutation (score pr) _ _ (map_to_list_fst_dom pr))).
  rewrite <-list_fmap_compose. f_equal. apply list_fmap_ext.
  intros i [k x] Hkx. simpl.
  apply list_elem_of_lookup_2, elem_of_map_to_list in Hkx.
  unfold score. by rewrite Hkx.
Qed.

Lemma lookup_fold_insert (f : Z → Qc) (vs : list Z) (m : gmap Z Qc) v :
  foldl (λ acc x, <[x := f x]> acc) m vs !! v
  = if decide (v ∈ vs) then Some (f v) else m !! v.
Proof.
  revert m. induction vs as [|x vs IH]; intros m; [done|].
  change (foldl (λ acc y, <[y := f y]> acc) (<[x := f x]> m) vs !! v
          = if decide (v ∈ x :: vs) then Some (f v) else m !! v).
  rewrite IH. destruct (decide (v ∈ vs)) as [Hin|Hnin].
  - rewrite decide_True; [done|by right].
  - destruct (decide (x = v)) as [->|Hne].
    + rewrite lookup_insert_eq, decide_True; [done|left].
    + rewrite lookup_insert_ne, decide_False; [done| |done].
      intros [?|?]%elem_of_cons; congruence.
Qed.

Section pass.
Variable node_set : gset Z.
Variable node_order : list Z.
Variable inbound : gmap Z (list Z).
Variable out_degree : gmap Z Z.
Variables d tol : Qc.
Hypothesis Hwf : index_wf node_set inbound out_degree.
Hypothesis Horder : node_order ≡ₚ elements node_set.

Lemma elem_of_node_order v : v ∈ node_order ↔ v ∈ node_set.
Proof. by rewrite Horder, elem_of_elements. Qed.

Lemma lookup_update_spec pr v :
  update_spec node_set inbound out_degree d pr !! v
  = if decide (v ∈ node_set)
    then Some (new_score node_set inbound out_degree d pr v) else None.
Proof.
  unfold update_spec. case_decide as Hv.
  - apply lookup_set_to_map; [naive_solver|]. by exists v.
  - apply eq_None_not_Some. intros [x Hx].
    apply lookup_set_to_map in Hx as (y & Hy & Heq); [|naive_solver].
    by simplify_eq.
Qed.

Lemma dom_update_spec pr :
  dom (update_spec node_set inbound out_degree d pr) = node_set.
Proof.
  apply set_eq. intros v. rewrite elem_of_dom, lookup_update_spec.
  case_decide; [by split; eauto|]. split; [by intros [? ?]|done].
Qed.

Lemma score_update_spec pr v :
  v ∈ node_set →
  score (update_spec node_set inbound out_degree d pr) v
  = new_score node_set inbound out_degree d pr v.
Proof. intros Hv. unfold score. by rewrite lookup_update_spec, decide_True. Qed.

Lemma lookup_uniform_spec v :
  uniform_spec node_set !! v
  = if decide (v ∈ node_set) then Some (1 / Qc_of_Z (n node_set))%Qc else None.
Proof.
  unfold uniform_spec. case_decide as Hv.
  - apply lookup_set_to_map; [naive_solver|]. by exists v.
  - apply eq_None_not_Some. intros [x Hx].
    apply lookup_set_to_map in Hx as (y & Hy & Heq); [|naive_solver].
    by simplify_eq.
Qed.

Lemma dom_uniform_spec : dom (uniform_spec node_set) = node_set.
Proof.
  apply set_eq. intros v. rewrite elem_of_dom, lookup_uniform_spec.
  case_decide; [by split; eauto|]. split; [by intros [? ?]|done].
Qed.

Lemma dom_pr_seq j pr :
  dom pr = node_set → dom (pr_seq node_set inbound out_degree d j pr) = node_set.
Proof. destruct j; [done|]. intros _. apply dom_update_spec. Qed.

Lemma initial_pagerank_spec :
  initial_pagerank node_set node_order = mret (uniform_spec node_set).
Proof.
  unfold initial_pagerank.
  rewrite (for_each_pure _ _ (λ acc v, <[v := (1 / Qc_of_Z (n node_set))%Qc]> acc)).
  - f_equal. apply map_eq. intros v.
    rewrite (lookup_fold_insert (λ _, (1 / Qc_of_Z (n node_set))%Qc)).
    rewrite lookup_uniform_spec, lookup_empty.
    destruct (decide (v ∈ node_set)) as [Hv|Hv].
    + rewrite decide_True; [done|by apply elem_of_node_order].
    + rewrite decide_False; [done|by rewrite elem_of_node_order].
  - intros pr v Hv%elem_of_node_order.
    rewrite py_truediv_nonzero, M_bind_ret; [done|].
    apply Qc_of_Z_nonzero. apply n_pos in Hv. lia.
Qed.

Lemma inbound_contribution_spec pr v :
  dom pr = node_set →
  inbound_contribution inbound out_degree pr v = mret (in_sum_spec inbound out_degree pr v).
Proof.
  intros Hdom. unfold inbound_contribution.
  rewrite (for_each_pure _ _
    (λ acc u, (acc + score pr u / Qc_of_Z (dd_getitem 0%Z out_degree u))%Qc)).
  - rewrite (foldl_Qcplus (λ u, (score pr u / Qc_of_Z (dd_getitem 0%Z out_degree u))%Qc)).
    by rewrite Qcplus_0_l.
  - intros acc u [Hu Hdeg]%Hwf.
    rewrite py_getitem_score, M_bind_ret by by rewrite Hdom.
    rewrite py_truediv_nonzero, M_bind_ret; [done|].
    apply Qc_of_Z_nonzero. lia.
Qed.

(** The loop body, on a map whose keys are the nodes, returns the map
    of the update formula and its L1 distance to the previous map. *)
Lemma update_pass_spec pr :
  dom pr = node_set →
  update_pass node_set node_order inbound out_degree d pr
  = mret (update_spec node_set inbound out_degree d pr,
          l1_diff node_set (update_spec node_set inbound out_degree d pr) pr).
Proof.
  intros Hdom. unfold update_pass.
  rewrite (for_each_pure _ _
    (λ acc v, <[v := new_score node_set inbound out_degree d pr v]> acc)).
  2:{ intros acc v Hv%elem_of_node_order.
      rewrite inbound_contribution_spec, M_bind_ret by done.
      rewrite py_truediv_nonzero, M_bind_ret.
      - unfold new_score. by rewrite sum_values_spec, Hdom.
      - apply Qc_of_Z_nonzero. apply n_pos in Hv. lia. }
  rewrite M_bind_ret.
  assert (foldl (λ acc v, <[v := new_score node_set inbound out_degree d pr v]> acc)
            ∅ node_order
          = update_spec node_set inbound out_degree d pr) as ->.
  { apply map_eq. intros v.
    rewrite (lookup_fold_insert (new_score node_set inbound out_degree d pr)).
    rewrite lookup_update_spec, lookup_empty.
    destruct (decide (v ∈ node_set)) as [Hv|Hv].
    - rewrite decide_True; [done|by apply elem_of_node_order].
    - rewrite decide_False; [done|by rewrite elem_of_node_order]. }
  rewrite (for_each_pure _ _
    (λ acc v, (acc + Qcabs (score (update_spec node_set inbound out_degree d pr) v
                             - score pr v))%Qc)).
  2:{ intros acc v Hv%elem_of_node_order.
      rewrite (py_getitem_score (update_spec node_set inbound out_degree d pr) v),
        M_bind_ret by by rewrite dom_update_spec.
      rewrite (py_getitem_score pr v), M_bind_ret by by rewrite Hdom.
      done. }
  rewrite M_bind_ret.
  rewrite (foldl_Qcplus
    (λ v, Qcabs (score (update_spec node_set inbound out_degree d pr) v - score pr v))).
  rewrite Qcplus_0_l. unfold l1_diff.
  by rewrite (Qcsum_Permutation _ _ (fmap_Permutation _ _ _ Horder)).
Qed.
End pass.

(** ** The loop *)

Section loop.
Variable node_set : gset Z.
Variable node_order : list Z.
Variable inbound : gmap Z (list Z).
Variable out_degree : gmap Z Z.
Variables d tol : Qc.
Hypothesis Hwf : index_wf node_set inbound out_degree.
Hypothesis Horder : node_order ≡ₚ elements node_set.

Lemma pr_seq_shift j pr :
  pr_seq node_set inbound out_degree d (S j) pr
  = pr_seq node_set inbound out_degree d j (update_spec node_set inbound out_degree d pr).
Proof. unfold pr_seq. apply Nat.iter_succ_r. Qed.

Lemma diff_seq_shift j pr :
  diff_seq node_set inbound out_degree d (S j) pr
  = diff_seq node_set inbound out_degree d j (update_spec node_set inbound out_degree d pr).
Proof. unfold diff_seq. by rewrite !pr_seq_shift. Qed.

Lemma iterate_step it rest pr :
  dom pr = node_set →
  iterate node_set node_order inbound out_degree d tol (it :: rest) pr
  = if decide (diff_seq node_set inbound out_degree d 0 pr < tol)%Qc
    then ([MsgConverged (it + 1) (diff_seq node_set inbound out_degree d 0 pr)],
          inr (update_spec node_set inbound out_degree d pr))
    else iterate node_set node_order inbound out_degree d tol rest
           (update_spec node_set inbound out_degree d pr).
Proof.
  intros Hdom. cbn [iterate].
  rewrite update_pass_spec, M_bind_ret by done.
  change (l1_diff node_set (update_spec node_set inbound out_degree d pr) pr)
    with (diff_seq node_set inbound out_degree d 0 pr).
  by case_decide.
Qed.

(** No pass sees a variation below the tolerance: every requested pass
    runs and nothing is printed. *)
Lemma iterate_exhausts its pr :
  dom pr = node_set →
  (∀ j, (j < length its)%nat → ¬ (diff_seq node_set inbound out_degree d j pr < tol)%Qc) →
  iterate node_set node_order inbound out_degree d tol its pr
  = mret (pr_seq node_set inbound out_degree d (length its) pr).
Proof.
  revert pr. induction its as [|it its IH]; intros pr Hdom Hge; [done|].
  rewrite iterate_step, decide_False by (done || (apply Hge; simpl; lia)).
  rewrite IH.
  - cbn [length]. by rewrite pr_seq_shift.
  - by apply dom_update_spec.
  - intros j Hj. rewrite <-diff_seq_shift. apply Hge. simpl. lia.
Qed.

(** Pass [k] is the first one to see a variation below the tolerance:
    the loop breaks there, after announcing it. *)
Lemma iterate_converges its k it pr :
  dom pr = node_set →
  its !! k = Some it →
  (∀ j, (j < k)%nat → ¬ (diff_seq node_set inbound out_degree d j pr < tol)%Qc) →
  (diff_seq node_set inbound out_degree d k pr < tol)%Qc →
  iterate node_set node_order inbound out_degree d tol its pr
  = ([MsgConverged (it + 1) (diff_seq node_set inbound out_degree d k pr)],
     inr (pr_seq node_set inbound out_degree d (S k) pr)).
Proof.
  revert k pr. induction its as [|it' its IH]; intros k pr Hdom Hk Hge Hlt; [done|].
  rewrite iterate_step by done. destruct k as [|k].
  - simplify_eq/=. by rewrite decide_True.
  - rewrite decide_False by (apply Hge; lia).
    rewrite (IH k).
    + by rewrite <-diff_seq_shift, <-pr_seq_shift.
    + by apply dom_update_spec.
    + done.
    + intros j Hj. rewrite <-diff_seq_shift. apply Hge. lia.
    + by rewrite <-diff_seq_shift.
Qed.

(** The loop never raises. *)
Lemma iterate_total its pr :
  dom pr = node_set →
  ∃ out j, iterate node_set node_order inbound out_degree d tol its pr
             = (out, inr (pr_seq node_set inbound out_degree d j pr))
           ∧ (j ≤ length its)%nat.
Proof.
  revert pr. induction its as [|it its IH]; intros pr Hdom.
  - by exists [], 0%nat.
  - rewrite iterate_step by done. case_decide.
    + exists [MsgConverged (it + 1) (diff_seq node_set inbound out_degree d 0 pr)], 1%nat.
      split; [done|simpl; lia].
    + destruct (IH (update_spec node_set inbound out_degree d pr)) as (out & j & Heq & Hj).
      { by apply dom_update_spec. }
      exists out, (S j). rewrite Heq, pr_seq_shift. split; [done|simpl; lia].
Qed.
End loop.

Section program.
Variable df_edges : list (Z * Z).
Variable node_order : list Z.
Variables (damping : Qc) (max_iter : Z) (tol : Qc).
Hypothesis Horder : node_order ≡ₚ elements (all_nodes_of df_edges).

Lemma compute_pagerank_inbound_in_unfold :
  compute_pagerank_inbound_in node_order df_edges damping max_iter tol
  = (prelude df_edges damping
       ++ stdout (iterate (all_nodes_of df_edges) node_order (inbound_links_of df_edges)
                    (outdegree_of df_edges) damping tol (seqZ 0 max_iter)
                    (uniform_spec (all_nodes_of df_edges))),
     outcome (iterate (all_nodes_of df_edges) node_order (inbound_links_of df_edges)
                (outdegree_of df_edges) damping tol (seqZ 0 max_iter)
                (uniform_spec (all_nodes_of df_edges)))).
Proof.
  unfold compute_pagerank_inbound_in, inbound_links_of, outdegree_of, prelude,
    stdout, outcome.
  destruct (build_index df_edges) as [inb outd].
  rewrite initial_pagerank_spec, M_bind_ret by done. cbn [fst snd].
  by destruct (iterate _ _ inb outd damping tol _ _) as [out r].
Qed.
End program.

Lemma compute_pagerank_inbound_unfold df_edges damping max_iter tol :
  compute_pagerank_inbound df_edges damping max_iter tol
  = (prelude df_edges damping
       ++ stdout (iterate (all_nodes_of df_edges) (elements (all_nodes_of df_edges))
                    (inbound_links_of df_edges) (outdegree_of df_edges) damping tol
                    (seqZ 0 max_iter) (uniform_spec (all_nodes_of df_edges))),
     outcome (iterate (all_nodes_of df_edges) (elements (all_nodes_of df_edges))
                (inbound_links_of df_edges) (outdegree_of df_edges) damping tol
                (seqZ 0 max_iter) (uniform_spec (all_nodes_of df_edges)))).
Proof.
  unfold compute_pagerank_inbound. apply compute_pagerank_inbound_in_unfold.
  reflexivity.
Qed.

Lemma dom_pagerank_after df_edges damping j :
  dom (pagerank_after df_edges damping j) = all_nodes_of df_edges.
Proof. apply dom_pr_seq, dom_uniform_spec. Qed.

(** The computation never raises: it returns the map reached after some
    number of passes, at most [max_iter]. *)
Lemma compute_pagerank_inbound_total df_edges damping max_iter tol :
  ∃ j, outcome (compute_pagerank_inbound df_edges damping max_iter tol)
         = inr (pagerank_after df_edges damping j)
       ∧ (j ≤ Z.to_nat max_iter)%nat.
Proof.
  rewrite compute_pagerank_inbound_unfold.
  destruct (iterate_total (all_nodes_of df_edges) (elements (all_nodes_of df_edges))
    (inbound_links_of df_edges) (outdegree_of df_edges) damping tol
    (build_index_wf df_edges) (reflexivity _) (seqZ 0 max_iter)
    (uniform_spec (all_nodes_of df_edges)) (dom_uniform_spec _)) as (out & j & Heq & Hj).
  exists j. rewrite Heq. rewrite length_seqZ in Hj. done.
Qed.

(** ** Counting the rows twice: by target and by source *)

Lemma Qcsum_zero {A} (l : list A) : Qcsum ((λ _, 0%Qc) <$> l) = 0%Qc.
Proof. rewrite Qcsum_const. ring. Qed.

Lemma Qcsum_indicator (vs : list Z) x c :
  NoDup vs → x ∈ vs →
  Qcsum ((λ v, if decide (x = v) then c else 0%Qc) <$> vs) = c.
Proof.
  induction vs as [|a vs IH]; intros Hnd Hin.
  - by apply not_elem_of_nil in Hin.
  - apply NoDup_cons in Hnd as [Ha Hnd]. csimpl.
    destruct (decide (x = a)) as [->|Hne].
    + rewrite (Qcsum_ext _ (λ _, 0%Qc)), Qcsum_zero; [ring|].
      intros v Hv. rewrite decide_False; [done|]. by intros ->.
    + rewrite IH; [ring|done|]. apply elem_of_cons in Hin as [?|?]; done.
Qed.

Lemma Qcsum_group_by (key : Z * Z → Z) (h : Z * Z → Qc) (vs : list Z) (es : list (Z * Z)) :
  NoDup vs → (∀ e, e ∈ es → key e ∈ vs) →
  Qcsum ((λ v, Qcsum (h <$> filter (λ e, key e = v) es)) <$> vs) = Qcsum (h <$> es).
Proof.
  intros Hnd. induction es as [|e es IH]; intros Hkey.
  - apply Qcsum_zero.
  - rewrite (Qcsum_ext _ (λ v, ((if decide (key e = v) then h e else 0)
                                + Qcsum (h <$> filter (λ e, key e = v) es))%Qc)).
    + rewrite Qcsum_plus, Qcsum_indicator, IH; [done| |done|].
      * intros e' He'. apply Hkey. by right.
      * apply Hkey. left.
    + intros v _. rewrite filter_cons. case_decide; csimpl; [done|ring].
Qed.

(** Summed over the nodes, the inbound contributions hand every weight
    back, except the weights of the nodes without outbound rows. *)
Lemma in_sum_total (df_edges : list (Z * Z)) (w : Z → Qc) :
  Qcsum ((λ v, Qcsum ((λ u, w u / Qc_of_Z (dd_getitem 0%Z (outdegree_of df_edges) u))%Qc
                        <$> dd_getitem [] (inbound_links_of df_edges) v))
           <$> elements (all_nodes_of df_edges))
  = Qcsum ((λ u, if decide (dd_getitem 0%Z (outdegree_of df_edges) u = 0%Z) then 0%Qc else w u)
             <$> elements (all_nodes_of df_edges)).
Proof.
  set (g := λ u, (w u / Qc_of_Z (dd_getitem 0%Z (outdegree_of df_edges) u))%Qc).
  trans (Qcsum ((g ∘ fst) <$> df_edges)).
  - rewrite <-(Qcsum_group_by snd (g ∘ fst) (elements (all_nodes_of df_edges)) df_edges).
    + apply Qcsum_ext. intros v _.
      by rewrite inbound_links_lookup, <-list_fmap_compose.
    + apply NoDup_elements.
    + intros e He. apply elem_of_elements, elem_of_all_nodes. eauto.
  - rewrite <-(Qcsum_group_by fst (g ∘ fst) (elements (all_nodes_of df_edges)) df_edges).
    + apply Qcsum_ext. intros u _.
      rewrite (Qcsum_ext _ (λ _, g u)).
      2:{ intros e [He _]%list_elem_of_filter. simpl. by rewrite He. }
      rewrite Qcsum_const. unfold Qc_of_nat. rewrite <-outdegree_lookup. unfold g.
      case_decide as Hz.
      * rewrite Hz, Z2Qc_inj_0. ring.
      * apply Qcmult_div_r. by apply Qc_of_Z_nonzero.
    + apply NoDup_elements.
    + intros e He. apply elem_of_elements, elem_of_all_nodes. eauto.
Qed.

(** ** Conservation of the total score *)

Lemma Qc_of_Z_n_mul_inv (node_set : gset Z) v :
  v ∈ node_set → (Qc_of_Z (n node_set) * / Qc_of_Z (n node_set))%Qc = 1%Qc.
Proof.
  intros Hv. apply Qcmult_inv_r, Qc_of_Z_nonzero. apply n_pos in Hv. lia.
Qed.

Lemma sum_update_spec df_edges d pr :
  sum_pr_spec (all_nodes_of df_edges)
    (update_spec (all_nodes_of df_edges) (inbound_links_of df_edges)
       (outdegree_of df_edges) d pr)
  = ((1 - d) * sum_pr_spec (all_nodes_of df_edges) pr
     + d * Qcsum ((λ u, if decide (dd_getitem 0%Z (outdegree_of df_edges) u = 0%Z)
                        then 0 else score pr u) <$> elements (all_nodes_of df_edges)))%Qc.
Proof.
  unfold sum_pr_spec at 1.
  rewrite (Qcsum_ext _ (new_score (all_nodes_of df_edges) (inbound_links_of df_edges)
                          (outdegree_of df_edges) d pr)).
  2:{ intros v Hv%elem_of_elements. by apply score_update_spec. }
  unfold new_score, in_sum_spec.
  rewrite (Qcsum_plus (λ _, _) (λ v, (d * _)%Qc)), Qcsum_const, Qcsum_scale.
  rewrite (in_sum_total df_edges (score pr)). f_equal.
  change (Qc_of_nat (length (elements (all_nodes_of df_edges))))
    with (Qc_of_Z (n (all_nodes_of df_edges))).
  destruct (elements (all_nodes_of df_edges)) as [|v vs] eqn:Hel.
  - unfold sum_pr_spec. rewrite Hel.
    change (Qcsum (score pr <$> [])) with 0%Qc. unfold Qcdiv. ring.
  - assert (v ∈ all_nodes_of df_edges) as Hv.
    { apply elem_of_elements. rewrite Hel. left. }
    unfold Qcdiv.
    trans ((1 - d) * sum_pr_spec (all_nodes_of df_edges) pr
           * (Qc_of_Z (n (all_nodes_of df_edges)) * / Qc_of_Z (n (all_nodes_of df_edges))))%Qc;
      [ring|]. rewrite (Qc_of_Z_n_mul_inv _ v Hv). ring.
Qed.

Lemma update_spec_preserves_total df_edges d pr :
  no_dangling df_edges →
  sum_pr_spec (all_nodes_of df_edges)
    (update_spec (all_nodes_of df_edges) (inbound_links_of df_edges)
       (outdegree_of df_edges) d pr)
  = sum_pr_spec (all_nodes_of df_edges) pr.
Proof.
  intros Hnd. rewrite sum_update_spec.
  rewrite (Qcsum_ext _ (score pr)).
  - fold (sum_pr_spec (all_nodes_of df_edges) pr). ring.
  - intros u Hu. unfold no_dangling in Hnd. rewrite Forall_forall in Hnd.
    apply Hnd in Hu. rewrite decide_False; [done|lia].
Qed.

Lemma sum_uniform_spec (node_set : gset Z) v :
  v ∈ node_set → sum_pr_spec node_set (uniform_spec node_set) = 1%Qc.
Proof.
  intros Hv. unfold sum_pr_spec.
  rewrite (Qcsum_ext _ (λ _, (1 / Qc_of_Z (n node_set))%Qc)).
  - rewrite Qcsum_const.
    change (Qc_of_nat (length (elements node_set))) with (Qc_of_Z (n node_set)).
    unfold Qcdiv. rewrite Qcmult_1_l. by apply (Qc_of_Z_n_mul_inv _ v).
  - intros u Hu%elem_of_elements. unfold score.
    by rewrite lookup_uniform_spec, decide_True.
Qed.

Lemma sum_pagerank_after df_edges d j v :
  no_dangling df_edges → v ∈ all_nodes_of df_edges →
  sum_pr_spec (all_nodes_of df_edges) (pagerank_after df_edges d j) = 1%Qc.
Proof.
  intros Hnd Hv. induction j as [|j IH].
  - by apply (sum_uniform_spec _ v).
  - etrans; [|exact IH]. by apply update_spec_preserves_total.
Qed.

(** ** Signs *)

Lemma Qcinv_nonneg x : (0 ≤ x → 0 ≤ / x)%Qc.
Proof.
  intros [Hx| <-]%Qcle_lt_or_eq.
  - by apply Qclt_le_weak, Qcinv_pos.
  - done.
Qed.

Lemma Qcdiv_nonneg x y : (0 ≤ x → 0 ≤ y → 0 ≤ x / y)%Qc.
Proof. intros Hx Hy. apply Qcmult_nonneg_nonneg; [done|by apply Qcinv_nonneg]. Qed.

Lemma Qc_of_Z_nonneg z : 0 ≤ z → (0 ≤ Qc_of_Z z)%Qc.
Proof. intros Hz. apply Z2Qc_inj_le in Hz. by rewrite Z2Qc_inj_0 in Hz. Qed.

Lemma Qc_one_minus_nonneg d : (d ≤ 1 → 0 ≤ 1 - d)%Qc.
Proof. intros Hd. apply Qcle_minus_iff in Hd. exact Hd. Qed.

Lemma nonneg_scores_score pr u : nonneg_scores pr → (0 ≤ score pr u)%Qc.
Proof.
  intros Hpr. unfold score. destruct (pr !! u) as [x|] eqn:Hx; [|done].
  by apply (Hpr u).
Qed.

Section signs.
Variable df_edges : list (Z * Z).
Variable d : Qc.
Hypothesis Hd : (0 ≤ d ≤ 1)%Qc.

Lemma new_score_nonneg pr v :
  nonneg_scores pr →
  (0 ≤ new_score (all_nodes_of df_edges) (inbound_links_of df_edges)
         (outdegree_of df_edges) d pr v)%Qc.
Proof.
  intros Hpr. unfold new_score. apply Qcplus_nonneg_nonneg.
  - apply Qcmult_nonneg_nonneg; [apply Qc_one_minus_nonneg, Hd|].
    apply Qcdiv_nonneg.
    + apply Qcsum_nonneg. intros u _. by apply nonneg_scores_score.
    + apply Qc_of_Z_nonneg. unfold n. lia.
  - apply Qcmult_nonneg_nonneg; [apply Hd|].
    apply Qcsum_nonneg. intros u _. apply Qcdiv_nonneg.
    + by apply nonneg_scores_score.
    + apply Qc_of_Z_nonneg, outdegree_nonneg.
Qed.

Lemma update_spec_nonneg pr :
  nonneg_scores pr →
  nonneg_scores (update_spec (all_nodes_of df_edges) (inbound_links_of df_edges)
                   (outdegree_of df_edges) d pr).
Proof.
  intros Hpr v x. rewrite lookup_update_spec. case_decide; [|done].
  intros [= <-]. by apply new_score_nonneg.
Qed.

Lemma uniform_spec_nonneg : nonneg_scores (uniform_spec (all_nodes_of df_edges)).
Proof.
  intros v x. rewrite lookup_uniform_spec. case_decide; [|done].
  intros [= <-]. apply Qcdiv_nonneg; [done|]. apply Qc_of_Z_nonneg. unfold n. lia.
Qed.

Lemma pagerank_after_nonneg j : nonneg_scores (pagerank_after df_edges d j).
Proof.
  induction j as [|j IH]; [apply uniform_spec_nonneg|].
  by apply update_spec_nonneg.
Qed.
End signs.

(** ** The update does not expand L1 distances *)

Lemma Qcsum_minus {A} (f g : A → Qc) (l : list A) :
  (Qcsum (f <$> l) - Qcsum (g <$> l))%Qc = Qcsum ((λ a, f a - g a)%Qc <$> l).
Proof. induction l as [|a l IH]; csimpl; [|rewrite <-IH]; ring. Qed.

Lemma Qcmult_inv_le_1 x : (x * / x ≤ 1)%Qc.
Proof.
  destruct (decide (x = 0%Qc)) as [->|Hx].
  - by rewrite Qcmult_0_l.
  - by rewrite Qcmult_inv_r.
Qed.

Lemma Qcabs_div_nonneg x y : (0 ≤ y)%Qc → Qcabs (x / y) = (Qcabs x / y)%Qc.
Proof.
  intros Hy. unfold Qcdiv. rewrite Qcabs_Qcmult. f_equal.
  by apply Qcabs_pos, Qcinv_nonneg.
Qed.

Lemma Qcle_of_eq (x y : Qc) : x = y → (x ≤ y)%Qc.
Proof. intros ->. apply Qcle_refl. Qed.

Section nonexpansive.
Variable df_edges : list (Z * Z).
Variable d : Qc.
Hypothesis Hd : (0 ≤ d ≤ 1)%Qc.

Lemma in_sum_spec_minus x y v :
  (in_sum_spec (inbound_links_of df_edges) (outdegree_of df_edges) x v
   - in_sum_spec (inbound_links_of df_edges) (outdegree_of df_edges) y v)%Qc
  = Qcsum ((λ u, (score x u - score y u)
                 / Qc_of_Z (dd_getitem 0%Z (outdegree_of df_edges) u))%Qc
           <$> dd_getitem [] (inbound_links_of df_edges) v).
Proof.
  unfold in_sum_spec. rewrite Qcsum_minus. apply Qcsum_ext.
  intros u _. unfold Qcdiv. ring.
Qed.

Lemma new_score_minus x y v :
  (new_score (all_nodes_of df_edges) (inbound_links_of df_edges)
     (outdegree_of df_edges) d x v
   - new_score (all_nodes_of df_edges) (inbound_links_of df_edges)
       (outdegree_of df_edges) d y v)%Qc
  = ((1 - d) * (Qcsum ((λ u, score x u - score y u) <$> elements (all_nodes_of df_edges))
                * / Qc_of_Z (n (all_nodes_of df_edges)))
     + d * Qcsum ((λ u, (score x u - score y u)
                        / Qc_of_Z (dd_getitem 0%Z (outdegree_of df_edges) u))
                  <$> dd_getitem [] (inbound_links_of df_edges) v))%Qc.
Proof.
  rewrite <-in_sum_spec_minus, <-(Qcsum_minus (score x) (score y)).
  unfold new_score, sum_pr_spec, Qcdiv. ring.
Qed.

Lemma new_score_diff_bound x y v :
  (Qcabs (new_score (all_nodes_of df_edges) (inbound_links_of df_edges)
            (outdegree_of df_edges) d x v
          - new_score (all_nodes_of df_edges) (inbound_links_of df_edges)
              (outdegree_of df_edges) d y v)
   ≤ (1 - d) * (l1_diff (all_nodes_of df_edges) x y * / Qc_of_Z (n (all_nodes_of df_edges)))
     + d * Qcsum ((λ u, Qcabs (score x u - score y u)
                        / Qc_of_Z (dd_getitem 0%Z (outdegree_of df_edges) u))
                  <$> dd_getitem [] (inbound_links_of df_edges) v))%Qc.
Proof.
  assert (0 ≤ Qc_of_Z (n (all_nodes_of df_edges)))%Qc as Hnn
    by (apply Qc_of_Z_nonneg; unfold n; lia).
  assert (0 ≤ 1 - d)%Qc as Hd1 by apply Qc_one_minus_nonneg, Hd.
  rewrite new_score_minus.
  etrans; [apply Qcabs_triangle|]. apply Qcplus_le_compat.
  - rewrite !Qcabs_Qcmult, (Qcabs_pos (1 - d)) by done.
    rewrite (Qcabs_pos (/ _)) by by apply Qcinv_nonneg.
    apply Qcmult_le_mono_nonneg_l; [done|].
    apply Qcmult_le_mono_nonneg_r; [by apply Qcinv_nonneg|].
    apply (Qcabs_Qcsum (λ u, score x u - score y u)%Qc).
  - rewrite Qcabs_Qcmult, (Qcabs_pos d) by apply Hd.
    apply Qcmult_le_mono_nonneg_l; [apply Hd|].
    etrans; [apply (Qcabs_Qcsum (λ u, (score x u - score y u)
               / Qc_of_Z (dd_getitem 0%Z (outdegree_of df_edges) u))%Qc)|].
    apply Qcsum_le. intros u _. rewrite Qcabs_div_nonneg; [done|].
    apply Qc_of_Z_nonneg, outdegree_nonneg.
Qed.

Lemma update_spec_nonexpansive x y :
  (l1_diff (all_nodes_of df_edges)
     (update_spec (all_nodes_of df_edges) (inbound_links_of df_edges)
        (outdegree_of df_edges) d x)
     (update_spec (all_nodes_of df_edges) (inbound_links_of df_edges)
        (outdegree_of df_edges) d y)
   ≤ l1_diff (all_nodes_of df_edges) x y)%Qc.
Proof.
  assert (0 ≤ 1 - d)%Qc as Hd1 by apply Qc_one_minus_nonneg, Hd.
  assert (0 ≤ l1_diff (all_nodes_of df_edges) x y)%Qc as HL.
  { apply Qcsum_nonneg. intros; apply Qcabs_nonneg. }
  unfold l1_diff at 1.
  trans (Qcsum ((λ v,
      (1 - d) * (l1_diff (all_nodes_of df_edges) x y * / Qc_of_Z (n (all_nodes_of df_edges)))
      + d * Qcsum ((λ u, Qcabs (score x u - score y u)
                         / Qc_of_Z (dd_getitem 0%Z (outdegree_of df_edges) u))
                   <$> dd_getitem [] (inbound_links_of df_edges) v))%Qc
    <$> elements (all_nodes_of df_edges))).
  { apply Qcsum_le. intros v Hv%elem_of_elements.
    rewrite !score_update_spec by done. apply new_score_diff_bound. }
  rewrite (Qcsum_plus (λ _, _) (λ v, (d * _)%Qc)), Qcsum_const, Qcsum_scale.
  rewrite (in_sum_total df_edges (λ u, Qcabs (score x u - score y u))).
  change (Qc_of_nat (length (elements (all_nodes_of df_edges))))
    with (Qc_of_Z (n (all_nodes_of df_edges))).
  trans ((1 - d) * l1_diff (all_nodes_of df_edges) x y
         + d * l1_diff (all_nodes_of df_edges) x y)%Qc;
    [|apply Qcle_of_eq; ring].
  apply Qcplus_le_compat.
  - trans ((1 - d) * l1_diff (all_nodes_of df_edges) x y
           * (Qc_of_Z (n (all_nodes_of df_edges)) * / Qc_of_Z (n (all_nodes_of df_edges))))%Qc;
      [apply Qcle_of_eq; ring|].
    rewrite <-(Qcmult_1_r ((1 - d) * l1_diff (all_nodes_of df_edges) x y)) at 2.
    apply Qcmult_le_mono_nonneg_l; [by apply Qcmult_nonneg_nonneg|].
    apply Qcmult_inv_le_1.
  - apply Qcmult_le_mono_nonneg_l; [apply Hd|].
    apply Qcsum_le. intros u _. case_decide; [apply Qcabs_nonneg|done].
Qed.
End nonexpansive.

(** ** The two ways out of the loop *)

Lemma compute_pagerank_inbound_converges df_edges d max_iter tol (k : nat) :
  Z.of_nat k < max_iter →
  (∀ j, (j < k)%nat → ¬ (diff_after df_edges d j < tol)%Qc) →
  (diff_after df_edges d k < tol)%Qc →
  compute_pagerank_inbound df_edges d max_iter tol
  = (prelude df_edges d ++ [MsgConverged (Z.of_nat k + 1) (diff_after df_edges d k)],
     inr (pagerank_after df_edges d (S k))).
Proof.
  intros Hk Hge Hlt. rewrite compute_pagerank_inbound_unfold.
  rewrite (iterate_converges _ _ _ _ d tol (build_index_wf df_edges) (reflexivity _)
             (seqZ 0 max_iter) k (Z.of_nat k)); try done.
  - apply dom_uniform_spec.
  - by rewrite lookup_seqZ_lt.
Qed.

Lemma compute_pagerank_inbound_exhausts df_edges d max_iter tol :
  (∀ j : nat, Z.of_nat j < max_iter → ¬ (diff_after df_edges d j < tol)%Qc) →
  compute_pagerank_inbound df_edges d max_iter tol
  = (prelude df_edges d, inr (pagerank_after df_edges d (Z.to_nat max_iter))).
Proof.
  intros Hge. rewrite compute_pagerank_inbound_unfold.
  rewrite (iterate_exhausts _ _ _ _ d tol (build_index_wf df_edges) (reflexivity _)).
  - rewrite length_seqZ. unfold stdout, outcome, mret, M_ret. cbn [fst snd].
    by rewrite app_nil_r.
  - apply dom_uniform_spec.
  - intros j Hj. rewrite length_seqZ in Hj. apply Hge. lia.
Qed.

Lemma l1_diff_nonneg (node_set : gset Z) a b : (0 ≤ l1_diff node_set a b)%Qc.
Proof. apply Qcsum_nonneg. intros; apply Qcabs_nonneg. Qed.

(** With a tolerance of 0 the loop never breaks: [max_iter = j] returns the
    map of pass [j]. *)
Lemma compute_pagerank_inbound_tol_0 df_edges d (j : nat) :
  compute_pagerank_inbound df_edges d (Z.of_nat j) 0%Qc
  = (prelude df_edges d, inr (pagerank_after df_edges d j)).
Proof.
  rewrite compute_pagerank_inbound_exhausts; [by rewrite Nat2Z.id|].
  intros i _. apply Qcle_not_lt, l1_diff_nonneg.
Qed.

(** ** The float program: what a pass computes *)

Lemma float_bind_ret {F A B} (a : A) (f : A → Float.M F B) :
  Float.bind (Float.ret a) f = f a.
Proof. unfold Float.ret, Float.bind. by destruct (f a). Qed.

Lemma float_for_each_pure {F A S} (xs : list A) (body : S → A → Float.M F S)
    (g : S → A → S) s :
  (∀ s' x, x ∈ xs → body s' x = Float.ret (g s' x)) →
  Float.for_each xs body s = Float.ret (foldl g s xs).
Proof.
  revert s. induction xs as [|x xs IH]; intros s Hbody; simpl; [done|].
  rewrite Hbody by left. rewrite float_bind_ret. apply IH.
  intros s' y Hy. apply Hbody. by right.
Qed.

Lemma lookup_foldl_insert {F} (f : Z → F) (vs : list Z) (m : gmap Z F) v :
  foldl (λ acc x, <[x := f x]> acc) m vs !! v
  = if decide (v ∈ vs) then Some (f v) else m !! v.
Proof.
  revert m. induction vs as [|x vs IH]; intros m; [done|].
  change (foldl (λ acc y, <[y := f y]> acc) (<[x := f x]> m) vs !! v
          = if decide (v ∈ x :: vs) then Some (f v) else m !! v).
  rewrite IH. destruct (decide (v ∈ vs)) as [Hin|Hnin].
  - rewrite decide_True; [done|by right].
  - destruct (decide (x = v)) as [->|Hne].
    + rewrite lookup_insert_eq, decide_True; [done|left].
    + rewrite lookup_insert_ne, decide_False; [done| |done].
      intros [?|?]%elem_of_cons; congruence.
Qed.

Section float_pass.
Context {F : Type}.
Variable ops : Float.Arith F.
Variable node_set : gset Z.
Variable node_order : list Z.
Variable inbound : gmap Z (list Z).
Variable out_degree : gmap Z Z.
Variables d tol : F.
Hypothesis Hwf : index_wf node_set inbound out_degree.
Hypothesis Horder : node_order ≡ₚ elements node_set.

Lemma float_node_order v : v ∈ node_order ↔ v ∈ node_set.
Proof. by rewrite Horder, elem_of_elements. Qed.

Lemma float_lookup_update_of pr v :
  Float.update_of ops node_set node_order inbound out_degree d pr !! v
  = if decide (v ∈ node_set)
    then Some (Float.new_score_of ops node_set node_order inbound out_degree d pr v)
    else None.
Proof.
  unfold Float.update_of.
  rewrite (lookup_foldl_insert
    (Float.new_score_of ops node_set node_order inbound out_degree d pr)).
  rewrite lookup_empty.
  destruct (decide (v ∈ node_set)) as [Hv|Hv].
  - rewrite decide_True; [done|by apply float_node_order].
  - rewrite decide_False; [done|by rewrite float_node_order].
Qed.

Lemma float_dom_update_of pr :
  dom (Float.update_of ops node_set node_order inbound out_degree d pr) = node_set.
Proof.
  apply set_eq. intros v. rewrite elem_of_dom, float_lookup_update_of.
  case_decide; [by split; eauto|]. split; [by intros [? ?]|done].
Qed.

Lemma float_lookup_uniform_of v :
  Float.uniform_of ops node_set node_order !! v
  = if decide (v ∈ node_set)
    then Some (Float.div ops (Float.one ops) (Float.of_int ops (n node_set)))
    else None.
Proof.
  unfold Float.uniform_of.
  rewrite (lookup_foldl_insert
    (λ _, Float.div ops (Float.one ops) (Float.of_int ops (n node_set)))).
  rewrite lookup_empty.
  destruct (decide (v ∈ node_set)) as [Hv|Hv].
  - rewrite decide_True; [done|by apply float_node_order].
  - rewrite decide_False; [done|by rewrite float_node_order].
Qed.

Lemma float_dom_uniform_of : dom (Float.uniform_of ops node_set node_order) = node_set.
Proof.
  apply set_eq. intros v. rewrite elem_of_dom, float_lookup_uniform_of.
  case_decide; [by split; eauto|]. split; [by intros [? ?]|done].
Qed.

Lemma float_py_getitem (pr : gmap Z F) u :
  u ∈ dom pr → Float.py_getitem pr u = Float.ret (Float.score ops pr u).
Proof.
  intros [x Hx]%elem_of_dom. unfold Float.py_getitem, Float.score. by rewrite Hx.
Qed.

Lemma float_py_truediv x y :
  y ≠ 0 → Float.py_truediv ops x y = Float.ret (Float.div ops x (Float.of_int ops y)).
Proof. intros Hy. unfold Float.py_truediv. by rewrite decide_False. Qed.

Lemma float_initial_pagerank :
  Float.initial_pagerank ops node_set node_order
  = Float.ret (Float.uniform_of ops node_set node_order).
Proof.
  unfold Float.initial_pagerank, Float.uniform_of.
  apply float_for_each_pure.
  intros pr v Hv%float_node_order.
  rewrite float_py_truediv, float_bind_ret; [done|].
  apply n_pos in Hv. lia.
Qed.

Lemma float_inbound_contribution pr v :
  dom pr = node_set →
  Float.inbound_contribution ops inbound out_degree pr v
  = Float.ret (Float.in_sum_of ops inbound out_degree pr v).
Proof.
  intros Hdom. unfold Float.inbound_contribution, Float.in_sum_of.
  apply float_for_each_pure.
  intros acc u [Hu Hdeg]%Hwf.
  rewrite float_py_getitem, float_bind_ret by by rewrite Hdom.
  rewrite float_py_truediv, float_bind_ret; [done|lia].
Qed.

(** On a map whose keys are the nodes, the loop body raises nothing and
    returns the map and the variation that the operations give. *)
Lemma float_update_pass pr :
  dom pr = node_set →
  Float.update_pass ops node_set node_order inbound out_degree d pr
  = Float.ret (Float.update_of ops node_set node_order inbound out_degree d pr,
               Float.diff_of ops node_order
                 (Float.update_of ops node_set node_order inbound out_degree d pr) pr).
Proof.
  intros Hdom. unfold Float.update_pass.
  rewrite (float_for_each_pure _ _
    (λ acc v, <[v := Float.new_score_of ops node_set node_order inbound out_degree d pr v]>
                acc)).
  2:{ intros acc v Hv%float_node_order.
      rewrite float_inbound_contribution, float_bind_ret by done.
      rewrite float_py_truediv, float_bind_ret; [done|].
      apply n_pos in Hv. lia. }
  rewrite float_bind_ret.
  change (foldl _ ∅ node_order)
    with (Float.update_of ops node_set node_order inbound out_degree d pr).
  rewrite (float_for_each_pure _ _
    (λ acc v, Float.add ops acc
       (Float.abs ops
          (Float.sub ops
             (Float.score ops
                (Float.update_of ops node_set node_order inbound out_degree d pr) v)
             (Float.score ops pr v))))).
  2:{ intros acc v Hv%float_node_order.
      rewrite (float_py_getitem
                 (Float.update_of ops node_set node_order inbound out_degree d pr) v),
        float_bind_ret by by rewrite float_dom_update_of.
      rewrite (float_py_getitem pr v), float_bind_ret by by rewrite Hdom.
      done. }
  by rewrite float_bind_ret.
Qed.

(** The loop raises nothing; the map it returns is reached from the
    start by at most as many passes as were requested, and a property
    that the start has and that every pass keeps holds of it. *)
Lemma float_iterate_invariant (P : nat → gmap Z F → Prop) its pr :
  dom pr = node_set →
  P 0%nat pr →
  (∀ k pr', dom pr' = node_set → P k pr' →
     P (S k) (Float.update_of ops node_set node_order inbound out_degree d pr')) →
  ∃ out j pr',
    Float.iterate ops node_set node_order inbound out_degree d tol its pr
    = (out, inr pr')
    ∧ (j ≤ length its)%nat ∧ dom pr' = node_set ∧ P j pr'.
Proof.
  revert P pr. induction its as [|it its IH]; intros P pr Hdom H0 Hstep.
  - by exists [], 0%nat, pr.
  - cbn [Float.iterate]. rewrite float_update_pass, float_bind_ret by done.
    destruct (Float.ltb ops _ tol).
    + eexists _, 1%nat, _. split; [done|]. split; [simpl; lia|].
      split; [apply float_dom_update_of|]. by apply Hstep.
    + destruct (IH (λ k, P (S k))
                  (Float.update_of ops node_set node_order inbound out_degree d pr))
        as (out & j & pr' & Heq & Hj & Hdom' & HP).
      * apply float_dom_update_of.
      * by apply Hstep.
      * intros k pr' Hdom' HP. by apply Hstep.
      * exists out, (S j), pr'. split; [done|]. split; [simpl; lia|done].
Qed.
End float_pass.

(** ** Rounded arithmetic *)

Local Open Scope Qc_scope.

Lemma this_plus (x y : Qc) : (this (x + y) == this x + this y)%Q.
Proof. unfold Qcplus, Q2Qc. simpl. apply Qred_correct. Qed.

Lemma this_mult (x y : Qc) : (this (x * y) == this x * this y)%Q.
Proof. unfold Qcmult, Q2Qc. simpl. apply Qred_correct. Qed.

Lemma this_opp (x : Qc) : (this (- x) == - this x)%Q.
Proof. unfold Qcopp, Q2Qc. simpl. apply Qred_correct. Qed.

Lemma this_minus (x y : Qc) : (this (x - y) == this x - this y)%Q.
Proof. unfold Qcminus. rewrite this_plus, this_opp. reflexivity. Qed.

(** Moves an order problem on [Qc] to [Q], where [lra] and [nra] work. *)
Ltac qc2q :=
  unfold Qcle, Qclt in *;
  repeat match goal with
  | H : context [this (_ + _)] |- _ => rewrite this_plus in H
  | H : context [this (_ * _)] |- _ => rewrite this_mult in H
  | H : context [this (_ - _)] |- _ => rewrite this_minus in H
  | H : context [this (- _)] |- _ => rewrite this_opp in H
  end;
  repeat first [rewrite this_plus | rewrite this_mult | rewrite this_minus
               | rewrite this_opp];
  change (this 0) with 0%Q in *; change (this 1) with 1%Q in *.

Lemma Qcpower_plus (b : Qc) j k : b ^ (j + k) = b ^ j * b ^ k.
Proof. induction j as [|j IH]; simpl; [|rewrite IH]; ring. Qed.

Section rounding.
Variable u : Qc.
Variable rnd : Qc → Qc.
Hypothesis Hu : 0 ≤ u ≤ 1.
Hypothesis Hrnd : rounds_within u rnd.

Lemma low_pow_bounds k : 0 ≤ (1 - u) ^ k ∧ (1 - u) ^ k ≤ 1.
Proof.
  destruct Hu as [Hu0 Hu1].
  induction k as [|k [IH0 IH1]]; simpl; [done|].
  split; qc2q; nra.
Qed.

Lemma high_pow_bound k : 1 ≤ (1 + u) ^ k.
Proof.
  destruct Hu as [Hu0 Hu1].
  induction k as [|k IH]; simpl; [done|]. qc2q; nra.
Qed.

Lemma low_pow_mono j k : (j ≤ k)%nat → (1 - u) ^ k ≤ (1 - u) ^ j.
Proof.
  intros Hjk. replace k with ((k - j) + j)%nat by lia. rewrite Qcpower_plus.
  destruct (low_pow_bounds (k - j)) as [H0 H1], (low_pow_bounds j) as [H2 H3].
  qc2q. nra.
Qed.

Lemma high_pow_mono j k : (j ≤ k)%nat → (1 + u) ^ j ≤ (1 + u) ^ k.
Proof.
  intros Hjk. replace k with ((k - j) + j)%nat by lia. rewrite Qcpower_plus.
  pose proof (high_pow_bound (k - j)) as H0. pose proof (high_pow_bound j) as H1.
  qc2q. nra.
Qed.

Lemma rnd_nonneg_bounds x : 0 ≤ x → (1 - u) * x ≤ rnd x ∧ rnd x ≤ (1 + u) * x.
Proof.
  intros Hx. pose proof (Hrnd x) as H. rewrite (Qcabs_pos x) in H by done.
  apply Qcabs_Qcle_condition in H as [H1 H2].
  split; qc2q; lra.
Qed.

Lemma within_refl x : within u 0 x x.
Proof. unfold within. simpl. rewrite Qcmult_1_l. split; apply Qcle_refl. Qed.

Lemma within_nonneg k x y : 0 ≤ y → within u k x y → 0 ≤ x.
Proof.
  intros Hy [H1 _]. destruct (low_pow_bounds k) as [H2 _].
  etrans; [|exact H1]. by apply Qcmult_nonneg_nonneg.
Qed.

Lemma within_rnd k x y : 0 ≤ y → within u k x y → within u (S k) (rnd x) y.
Proof.
  intros Hy Hxy. pose proof (within_nonneg _ _ _ Hy Hxy) as Hx.
  destruct Hxy as [H1 H2], (rnd_nonneg_bounds x Hx) as [H3 H4].
  destruct Hu as [Hu0 Hu1].
  unfold within. simpl. split; qc2q; nra.
Qed.

Lemma within_plus k x1 y1 x2 y2 :
  within u k x1 y1 → within u k x2 y2 → within u k (x1 + x2) (y1 + y2).
Proof. intros [H1 H2] [H3 H4]. unfold within. split; qc2q; nra. Qed.

Lemma within_scale k c x y : 0 ≤ c → within u k x y → within u k (c * x) (c * y).
Proof. intros Hc [H1 H2]. unfold within. split; qc2q; nra. Qed.

Lemma within_mono j k x y : (j ≤ k)%nat → 0 ≤ y → within u j x y → within u k x y.
Proof.
  intros Hjk Hy [H1 H2].
  pose proof (low_pow_mono j k Hjk) as H3. pose proof (high_pow_mono j k Hjk) as H4.
  unfold within. split; qc2q; nra.
Qed.

Lemma within_trans j k x y z :
  0 ≤ z → within u j x y → within u k y z → within u (j + k) x z.
Proof.
  intros Hz [H1 H2] [H3 H4].
  destruct (low_pow_bounds j) as [H5 _]. pose proof (high_pow_bound j) as H6.
  unfold within. rewrite !Qcpower_plus. split; qc2q; nra.
Qed.

Lemma within_mult j k a b x y :
  0 ≤ b → 0 ≤ y → within u j a b → within u k x y → within u (j + k) (a * x) (b * y).
Proof.
  intros Hb Hy Hab Hxy.
  pose proof (within_nonneg _ _ _ Hb Hab) as Ha.
  pose proof (within_nonneg _ _ _ Hy Hxy) as Hx.
  destruct Hab as [H1 H2], Hxy as [H3 H4].
  destruct (low_pow_bounds j) as [H5 _], (low_pow_bounds k) as [H7 _].
  pose proof (high_pow_bound j) as H6. pose proof (high_pow_bound k) as H8.
  unfold within. rewrite !Qcpower_plus. split; qc2q.
  - apply Qle_trans with (this ((1 - u) ^ j) * this b * this x)%Q; [|nra].
    assert (0 <= this ((1 - u) ^ j) * this b)%Q by nra. nra.
  - apply Qle_trans with (this ((1 + u) ^ j) * this b * this x)%Q; [nra|].
    assert (0 <= this ((1 + u) ^ j) * this b)%Q by nra. nra.
Qed.
End rounding.

Local Close Scope Qc_scope.

(** ** One pass on rounded rationals *)

Lemma within_zero u k : within u k 0%Qc 0%Qc.
Proof. unfold within. rewrite !Qcmult_0_r. done. Qed.

Lemma within_Qcsum {A} u k (f g : A → Qc) (l : list A) :
  (∀ x, x ∈ l → within u k (f x) (g x)) →
  within u k (Qcsum (f <$> l)) (Qcsum (g <$> l)).
Proof.
  induction l as [|x l IH]; intros H; csimpl; [apply within_zero|].
  apply within_plus; [apply H; left|].
  apply IH. intros y Hy. apply H. by right.
Qed.

Section rounded_sums.
Variable u : Qc.
Variable rnd : Qc → Qc.
Hypothesis Hu : (0 ≤ u ≤ 1)%Qc.
Hypothesis Hrnd : rounds_within u rnd.

(** A sum accumulated from left to right, rounded after every addition. *)
Lemma within_foldl {A} (f g : A → Qc) (l : list A) k a b :
  (∀ x, x ∈ l → (0 ≤ g x)%Qc ∧ within u k (f x) (g x)) →
  (0 ≤ b)%Qc → within u k a b →
  within u (k + length l) (foldl (λ acc x, rnd (acc + f x)%Qc) a l)
    (b + Qcsum (g <$> l))%Qc.
Proof.
  revert k a b. induction l as [|x l IH]; intros k a b H Hb Hab.
  - csimpl. rewrite Qcplus_0_r, Nat.add_0_r. done.
  - destruct (H x) as [Hgx Hfx]; [left|].
    csimpl. rewrite Qcplus_assoc, Nat.add_succ_r.
    apply (IH (S k)).
    + intros y Hy. destruct (H y) as [Hgy Hfy]; [by right|].
      split; [done|]. apply (within_mono u Hu k); [lia|done|done].
    + by apply Qcplus_nonneg_nonneg.
    + apply within_rnd; [done|done|by apply Qcplus_nonneg_nonneg|].
      by apply within_plus.
Qed.
End rounded_sums.

Lemma float_values_score (rnd : Qc → Qc) (node_order : list Z) (pr : gmap Z Qc) :
  (∀ v, v ∈ node_order → v ∈ dom pr) →
  Float.values node_order pr = score pr <$> node_order.
Proof.
  unfold Float.values. induction node_order as [|v vs IH]; intros H; [done|].
  csimpl. assert (v ∈ dom pr) as [x Hx]%elem_of_dom by (apply H; left).
  unfold score at 1. rewrite Hx. csimpl. f_equal. apply IH.
  intros w Hw. apply H. by right.
Qed.

Lemma length_inbound_links df_edges v :
  (length (dd_getitem [] (inbound_links_of df_edges) v) ≤ length df_edges)%nat.
Proof.
  rewrite inbound_links_lookup, length_fmap. apply length_filter.
Qed.

Section rounded_pass.
Variable u : Qc.
Variable rnd : Qc → Qc.
Hypothesis Hu : (0 ≤ u ≤ 1)%Qc.
Hypothesis Hrnd : rounds_within u rnd.
Variable df_edges : list (Z * Z).
Variable node_order : list Z.
Variable d : Qc.
Hypothesis Hd : (0 ≤ d ≤ 1)%Qc.
Hypothesis Horder : node_order ≡ₚ elements (all_nodes_of df_edges).

Lemma rounded_py_sum pr :
  dom pr = all_nodes_of df_edges → nonneg_scores pr →
  within u (size (all_nodes_of df_edges))
    (Float.py_sum (Float.rounded rnd) (Float.values node_order pr))
    (sum_pr_spec (all_nodes_of df_edges) pr).
Proof.
  intros Hdom Hpr. rewrite (float_values_score rnd).
  2:{ intros v Hv. rewrite Hdom. by apply (float_node_order _ _ Horder). }
  unfold Float.py_sum, sum_pr_spec.
  rewrite <-(Qcsum_Permutation _ _ (fmap_Permutation (score pr) _ _ Horder)).
  change (Float.add (Float.rounded rnd)) with (λ acc x, rnd (acc + x)%Qc).
  change (Float.zero (Float.rounded rnd)) with 0%Qc.
  rewrite <-(Qcplus_0_l (Qcsum _)).
  replace (size (all_nodes_of df_edges)) with (0 + length (score pr <$> node_order))%nat.
  2:{ rewrite length_fmap, Horder. done. }
  rewrite <-(list_fmap_id (score pr <$> node_order)) at 3.
  apply (within_foldl u rnd Hu Hrnd id id).
  - intros x (v & -> & Hv)%list_elem_of_fmap. split; [|apply within_refl].
    by apply nonneg_scores_score.
  - done.
  - apply within_refl.
Qed.
Lemma rounded_in_sum pr v :
  nonneg_scores pr →
  within u (1 + length (dd_getitem [] (inbound_links_of df_edges) v))
    (Float.in_sum_of (Float.rounded rnd) (inbound_links_of df_edges)
       (outdegree_of df_edges) pr v)
    (in_sum_spec (inbound_links_of df_edges) (outdegree_of df_edges) pr v).
Proof.
  intros Hpr. unfold Float.in_sum_of, in_sum_spec.
  rewrite <-(Qcplus_0_l (Qcsum _)).
  apply (within_foldl u rnd Hu Hrnd
           (λ w, rnd (score pr w / Qc_of_Z (dd_getitem 0%Z (outdegree_of df_edges) w))%Qc)
           (λ w, (score pr w / Qc_of_Z (dd_getitem 0%Z (outdegree_of df_edges) w))%Qc)).
  - intros w _.
    assert (0 ≤ score pr w / Qc_of_Z (dd_getitem 0%Z (outdegree_of df_edges) w))%Qc as Hw.
    { apply Qcdiv_nonneg; [by apply nonneg_scores_score|].
      apply Qc_of_Z_nonneg, outdegree_nonneg. }
    split; [done|]. apply within_rnd; [done|done|done|apply within_refl].
  - done.
  - apply within_zero.
Qed.

Lemma sum_pr_spec_nonneg pr :
  nonneg_scores pr → (0 ≤ sum_pr_spec (all_nodes_of df_edges) pr)%Qc.
Proof. intros Hpr. apply Qcsum_nonneg. intros v _. by apply nonneg_scores_score. Qed.

Lemma in_sum_spec_nonneg pr v :
  nonneg_scores pr →
  (0 ≤ in_sum_spec (inbound_links_of df_edges) (outdegree_of df_edges) pr v)%Qc.
Proof.
  intros Hpr. apply Qcsum_nonneg. intros w _. apply Qcdiv_nonneg.
  - by apply nonneg_scores_score.
  - apply Qc_of_Z_nonneg, outdegree_nonneg.
Qed.

(** The score that a pass stores is the score of the update formula
    after at most [pass_roundings] roundings. *)
Lemma rounded_new_score pr v :
  dom pr = all_nodes_of df_edges → nonneg_scores pr →
  within u (pass_roundings df_edges)
    (Float.new_score_of (Float.rounded rnd) (all_nodes_of df_edges) node_order
       (inbound_links_of df_edges) (outdegree_of df_edges) d pr v)
    (new_score (all_nodes_of df_edges) (inbound_links_of df_edges)
       (outdegree_of df_edges) d pr v).
Proof.
  intros Hdom Hpr.
  pose proof (rounded_py_sum pr Hdom Hpr) as Hsum.
  pose proof (rounded_in_sum pr v Hpr) as Hin.
  pose proof (sum_pr_spec_nonneg pr Hpr) as HS.
  pose proof (in_sum_spec_nonneg pr v Hpr) as HI.
  pose proof (length_inbound_links df_edges v) as Hlen.
  assert (0 ≤ / Qc_of_Z (n (all_nodes_of df_edges)))%Qc as Hn.
  { apply Qcinv_nonneg, Qc_of_Z_nonneg. unfold n. lia. }
  assert (0 ≤ 1 - d)%Qc as Hd1 by apply Qc_one_minus_nonneg, Hd.
  unfold Float.new_score_of, new_score.
  set (sum_pr := Float.py_sum _ _) in *.
  set (in_sum := Float.in_sum_of _ _ _ _ _) in *.
  change (within u (pass_roundings df_edges)
    (rnd (rnd (rnd (1 - d) * rnd (sum_pr / Qc_of_Z (n (all_nodes_of df_edges))))
          + rnd (d * in_sum)))%Qc
    ((1 - d) * (sum_pr_spec (all_nodes_of df_edges) pr / Qc_of_Z (n (all_nodes_of df_edges)))
     + d * in_sum_spec (inbound_links_of df_edges) (outdegree_of df_edges) pr v)%Qc).
  unfold Qcdiv.
  rewrite (Qcmult_comm sum_pr), (Qcmult_comm (sum_pr_spec _ _)).
  assert (0 ≤ / Qc_of_Z (n (all_nodes_of df_edges))
              * sum_pr_spec (all_nodes_of df_edges) pr)%Qc as Hshare
    by by apply Qcmult_nonneg_nonneg.
  assert (0 ≤ (1 - d) * (/ Qc_of_Z (n (all_nodes_of df_edges))
                         * sum_pr_spec (all_nodes_of df_edges) pr))%Qc as Ht1
    by by apply Qcmult_nonneg_nonneg.
  assert (0 ≤ d * in_sum_spec (inbound_links_of df_edges) (outdegree_of df_edges) pr v)%Qc
    as Ht2 by (apply Qcmult_nonneg_nonneg; [apply Hd|done]).
  eapply (within_mono u Hu); [|by apply Qcplus_nonneg_nonneg|].
  2:{ apply within_rnd; [done|done|by apply Qcplus_nonneg_nonneg|].
      apply (within_plus u
               (size (all_nodes_of df_edges) + length df_edges + 3)).
      - eapply (within_mono u Hu); [|done|].
        2:{ apply within_rnd; [done|done|done|].
            apply within_mult; [done|done|done| |].
            - apply within_rnd; [done|done|done|apply within_refl].
            - apply within_rnd; [done|done|done|].
              apply within_scale; [done|exact Hsum]. }
        lia.
      - eapply (within_mono u Hu); [|done|].
        2:{ apply within_rnd; [done|done|done|].
            apply within_scale; [apply Hd|exact Hin]. }
        lia. }
  unfold pass_roundings. lia.
Qed.

Lemma rounded_score_update pr v :
  v ∈ all_nodes_of df_edges →
  score (Float.update_of (Float.rounded rnd) (all_nodes_of df_edges) node_order
           (inbound_links_of df_edges) (outdegree_of df_edges) d pr) v
  = Float.new_score_of (Float.rounded rnd) (all_nodes_of df_edges) node_order
      (inbound_links_of df_edges) (outdegree_of df_edges) d pr v.
Proof.
  intros Hv. unfold score.
  by rewrite (float_lookup_update_of _ _ _ _ _ _ Horder), decide_True.
Qed.

Lemma rounded_update_nonneg pr :
  dom pr = all_nodes_of df_edges → nonneg_scores pr →
  nonneg_scores (Float.update_of (Float.rounded rnd) (all_nodes_of df_edges) node_order
                   (inbound_links_of df_edges) (outdegree_of df_edges) d pr).
Proof.
  intros Hdom Hpr v x. rewrite (float_lookup_update_of _ _ _ _ _ _ Horder).
  case_decide; [|done]. intros [= <-].
  eapply (within_nonneg u Hu); [|by apply rounded_new_score].
  by apply new_score_nonneg.
Qed.

(** The total after a pass is the total of the update formula after at
    most [pass_roundings] roundings. *)
Lemma rounded_sum_update pr :
  dom pr = all_nodes_of df_edges → nonneg_scores pr →
  within u (pass_roundings df_edges)
    (sum_pr_spec (all_nodes_of df_edges)
       (Float.update_of (Float.rounded rnd) (all_nodes_of df_edges) node_order
          (inbound_links_of df_edges) (outdegree_of df_edges) d pr))
    (sum_pr_spec (all_nodes_of df_edges)
       (update_spec (all_nodes_of df_edges) (inbound_links_of df_edges)
          (outdegree_of df_edges) d pr)).
Proof.
  intros Hdom Hpr. unfold sum_pr_spec.
  rewrite (Qcsum_ext (score (Float.update_of _ _ _ _ _ _ _))
             (Float.new_score_of (Float.rounded rnd) (all_nodes_of df_edges) node_order
                (inbound_links_of df_edges) (outdegree_of df_edges) d pr)).
  2:{ intros v Hv%elem_of_elements. by apply rounded_score_update. }
  rewrite (Qcsum_ext (score (update_spec _ _ _ _ _))
             (new_score (all_nodes_of df_edges) (inbound_links_of df_edges)
                (outdegree_of df_edges) d pr)).
  2:{ intros v Hv%elem_of_elements. by apply score_update_spec. }
  apply within_Qcsum. intros v _. by apply rounded_new_score.
Qed.

Lemma rounded_uniform_nonneg :
  nonneg_scores (Float.uniform_of (Float.rounded rnd) (all_nodes_of df_edges) node_order).
Proof.
  intros v x. rewrite (float_lookup_uniform_of _ _ _ Horder).
  case_decide; [|done]. intros [= <-].
  assert (0 ≤ 1 / Qc_of_Z (n (all_nodes_of df_edges)))%Qc as Hn.
  { apply Qcdiv_nonneg; [done|]. apply Qc_of_Z_nonneg. unfold n. lia. }
  eapply (within_nonneg u Hu); [exact Hn|].
  apply within_rnd; [done|done|done|apply within_refl].
Qed.

Lemma rounded_sum_uniform v :
  v ∈ all_nodes_of df_edges →
  within u 1
    (sum_pr_spec (all_nodes_of df_edges)
       (Float.uniform_of (Float.rounded rnd) (all_nodes_of df_edges) node_order))
    1%Qc.
Proof.
  intros Hv. rewrite <-(sum_uniform_spec (all_nodes_of df_edges) v Hv).
  unfold sum_pr_spec. apply within_Qcsum. intros w Hw%elem_of_elements.
  unfold score.
  rewrite (float_lookup_uniform_of _ _ _ Horder), lookup_uniform_spec, !decide_True by done.
  assert (0 ≤ 1 / Qc_of_Z (n (all_nodes_of df_edges)))%Qc as Hn.
  { apply Qcdiv_nonneg; [done|]. apply Qc_of_Z_nonneg. unfold n. lia. }
  change (within u 1 (rnd (1 / Qc_of_Z (n (all_nodes_of df_edges))))%Qc
            (1 / Qc_of_Z (n (all_nodes_of df_edges)))%Qc).
  apply within_rnd; [done|done|done|apply within_refl].
Qed.

End rounded_pass.

(** ** The float program: the loop *)

Section float_loop.
Context {F : Type}.
Variable ops : Float.Arith F.
Variable df_edges : list (Z * Z).
Variable node_order : list Z.
Variables d tol : F.
Hypothesis Horder : node_order ≡ₚ elements (all_nodes_of df_edges).

Lemma float_compute_unfold max_iter :
  Float.compute_pagerank_inbound ops node_order df_edges d max_iter tol
  = (Float.prelude df_edges d
       ++ Float.stdout
            (Float.iterate ops (all_nodes_of df_edges) node_order
               (inbound_links_of df_edges) (outdegree_of df_edges) d tol
               (seqZ 0 max_iter) (Float.uniform_of ops (all_nodes_of df_edges) node_order)),
     Float.outcome
       (Float.iterate ops (all_nodes_of df_edges) node_order
          (inbound_links_of df_edges) (outdegree_of df_edges) d tol
          (seqZ 0 max_iter) (Float.uniform_of ops (all_nodes_of df_edges) node_order))).
Proof.
  unfold Float.compute_pagerank_inbound, inbound_links_of, outdegree_of, Float.prelude,
    Float.stdout, Float.outcome.
  destruct (build_index df_edges) as [inb outd].
  rewrite (float_initial_pagerank _ _ _ Horder). cbn [fst snd].
  unfold Float.bind at 6. unfold Float.ret at 1.
  by destruct (Float.iterate _ _ _ inb outd d tol _ _) as [out r].
Qed.

(** The loop raises nothing and returns the map of some pass. *)
Lemma float_iterate_total its pr :
  dom pr = all_nodes_of df_edges →
  ∃ j, (j ≤ length its)%nat
       ∧ Float.outcome
           (Float.iterate ops (all_nodes_of df_edges) node_order
              (inbound_links_of df_edges) (outdegree_of df_edges) d tol its pr)
         = inr (Nat.iter j
                  (Float.update_of ops (all_nodes_of df_edges) node_order
                     (inbound_links_of df_edges) (outdegree_of df_edges) d) pr).
Proof.
  intros Hdom.
  destruct (float_iterate_invariant ops (all_nodes_of df_edges) node_order
              (inbound_links_of df_edges) (outdegree_of df_edges) d tol
              (build_index_wf df_edges) Horder
              (λ k pr', pr' = Nat.iter k
                 (Float.update_of ops (all_nodes_of df_edges) node_order
                    (inbound_links_of df_edges) (outdegree_of df_edges) d) pr)
              its pr Hdom)
    as (out & j & pr' & Heq & Hj & _ & ->); [done| |].
  - intros k pr' _ ->. done.
  - exists j. split; [done|]. by rewrite Heq.
Qed.

(** When no pass measures a variation below the tolerance, every
    requested pass runs. *)
Lemma float_iterate_exhausts its pr :
  dom pr = all_nodes_of df_edges →
  (∀ pr', Float.ltb ops
            (Float.diff_of ops node_order
               (Float.update_of ops (all_nodes_of df_edges) node_order
                  (inbound_links_of df_edges) (outdegree_of df_edges) d pr') pr')
            tol = false) →
  Float.iterate ops (all_nodes_of df_edges) node_order
    (inbound_links_of df_edges) (outdegree_of df_edges) d tol its pr
  = Float.ret (Nat.iter (length its)
                 (Float.update_of ops (all_nodes_of df_edges) node_order
                    (inbound_links_of df_edges) (outdegree_of df_edges) d) pr).
Proof.
  intros Hdom Hge. revert pr Hdom. induction its as [|it its IH]; intros pr Hdom; [done|].
  cbn [Float.iterate].
  rewrite (float_update_pass _ _ _ _ _ _ (build_index_wf df_edges) Horder), float_bind_ret
    by done.
  rewrite Hge, IH by by apply float_dom_update_of.
  cbn [length]. by rewrite Nat.iter_succ_r.
Qed.

(** The loop stopped on its test: the map returned is one pass away from
    a map with the invariant, and that pass measured less than the
    tolerance. *)
Lemma float_iterate_converged (P : nat → gmap Z F → Prop) its pr :
  dom pr = all_nodes_of df_edges →
  P 0%nat pr →
  (∀ k pr', dom pr' = all_nodes_of df_edges → P k pr' →
     P (S k) (Float.update_of ops (all_nodes_of df_edges) node_order
                (inbound_links_of df_edges) (outdegree_of df_edges) d pr')) →
  Float.reported_convergence
    (Float.iterate ops (all_nodes_of df_edges) node_order
       (inbound_links_of df_edges) (outdegree_of df_edges) d tol its pr) = true →
  ∃ k prev,
    (k < length its)%nat ∧ dom prev = all_nodes_of df_edges ∧ P k prev
    ∧ Float.outcome
        (Float.iterate ops (all_nodes_of df_edges) node_order
           (inbound_links_of df_edges) (outdegree_of df_edges) d tol its pr)
      = inr (Float.update_of ops (all_nodes_of df_edges) node_order
               (inbound_links_of df_edges) (outdegree_of df_edges) d prev)
    ∧ Float.ltb ops
        (Float.diff_of ops node_order
           (Float.update_of ops (all_nodes_of df_edges) node_order
              (inbound_links_of df_edges) (outdegree_of df_edges) d prev) prev)
        tol = true.
Proof.
  revert P pr. induction its as [|it its IH]; intros P pr Hdom H0 Hstep; [done|].
  cbn [Float.iterate].
  rewrite (float_update_pass _ _ _ _ _ _ (build_index_wf df_edges) Horder), float_bind_ret
    by done.
  destruct (Float.ltb ops _ tol) eqn:Hlt.
  - intros _. exists 0%nat, pr. split; [simpl; lia|]. done.
  - intros Hconv.
    destruct (IH (λ k, P (S k))
                (Float.update_of ops (all_nodes_of df_edges) node_order
                   (inbound_links_of df_edges) (outdegree_of df_edges) d pr))
      as (k & prev & Hk & Hdom' & HP & Hout & Hlt').
    + by apply float_dom_update_of.
    + by apply Hstep.
    + intros k pr' Hdom' HP. by apply Hstep.
    + done.
    + exists (S k), prev. split; [simpl; lia|]. done.
Qed.
End float_loop.

(** ** The total score on rounded rationals *)

Section rounded_total.
Variable u : Qc.
Variable rnd : Qc → Qc.
Hypothesis Hu : (0 ≤ u ≤ 1)%Qc.
Hypothesis Hrnd : rounds_within u rnd.

Lemma pow_sum_ge_2 k : (2 ≤ (1 - u) ^ k + (1 + u) ^ k)%Qc.
Proof.
  induction k as [|k IH]; [done|].
  destruct (low_pow_bounds u Hu k) as [H0 H1]. pose proof (high_pow_bound u Hu k) as H2.
  destruct Hu as [Hu0 Hu1]. simpl.
  change 2%Qc with (1 + 1)%Qc in *. qc2q. nra.
Qed.

Lemma within_one_abs k x :
  within u k x 1%Qc → (Qcabs (x - 1) ≤ (1 + u) ^ k - 1)%Qc.
Proof.
  intros [H1 H2]. pose proof (pow_sum_ge_2 k) as H3.
  rewrite Qcmult_1_r in H1, H2.
  apply Qcabs_Qcle_condition.
  change 2%Qc with (1 + 1)%Qc in *. split; qc2q; lra.
Qed.

Lemma rnd_nonneg x : (0 ≤ x → 0 ≤ rnd x)%Qc.
Proof.
  intros Hx. eapply (within_nonneg u Hu 1); [exact Hx|].
  apply within_rnd; [done|done|done|apply within_refl].
Qed.

Lemma rounded_diff_nonneg node_order new_pagerank pr :
  (0 ≤ Float.diff_of (Float.rounded rnd) node_order new_pagerank pr)%Qc.
Proof.
  unfold Float.diff_of.
  change (Float.zero (Float.rounded rnd)) with 0%Qc.
  assert (∀ acc, (0 ≤ acc)%Qc →
    (0 ≤ foldl (λ acc v, Float.add (Float.rounded rnd) acc
                  (Float.abs (Float.rounded rnd)
                     (Float.sub (Float.rounded rnd)
                        (Float.score (Float.rounded rnd) new_pagerank v)
                        (Float.score (Float.rounded rnd) pr v))))
           acc node_order)%Qc) as H; [|by apply H].
  induction node_order as [|v vs IH]; intros acc Hacc; [done|].
  cbn [foldl]. apply IH.
  change (0 ≤ rnd (acc + Qcabs (rnd (score new_pagerank v - score pr v))))%Qc.
  apply rnd_nonneg, Qcplus_nonneg_nonneg; [done|apply Qcabs_nonneg].
Qed.

Section run.
Variable df_edges : list (Z * Z).
Variable node_order : list Z.
Variable d : Qc.
Hypothesis Hd : (0 ≤ d ≤ 1)%Qc.
Hypothesis Horder : node_order ≡ₚ elements (all_nodes_of df_edges).

Lemma float_dom_pagerank_after j :
  dom (Float.pagerank_after (Float.rounded rnd) node_order df_edges d j)
  = all_nodes_of df_edges.
Proof.
  destruct j; [by apply float_dom_uniform_of|]. by apply float_dom_update_of.
Qed.

Lemma rounded_pagerank_after_nonneg j :
  nonneg_scores (Float.pagerank_after (Float.rounded rnd) node_order df_edges d j).
Proof.
  induction j as [|j IH]; [by apply (rounded_uniform_nonneg u)|].
  apply (rounded_update_nonneg u); [done|done|done|done|by apply float_dom_pagerank_after|done].
Qed.

(** With the tolerance 0 every requested pass runs. *)
Lemma rounded_tol_0 (j : nat) :
  Float.outcome
    (Float.compute_pagerank_inbound (Float.rounded rnd) node_order df_edges d (Z.of_nat j) 0%Qc)
  = inr (Float.pagerank_after (Float.rounded rnd) node_order df_edges d j).
Proof.
  rewrite float_compute_unfold by done. unfold Float.outcome at 1. cbn [snd].
  rewrite float_iterate_exhausts; [|done|by apply float_dom_uniform_of|].
  - by rewrite length_seqZ, Nat2Z.id.
  - intros pr'. apply bool_decide_eq_false, Qcle_not_lt, rounded_diff_nonneg.
Qed.

Lemma rounded_run_total max_iter tol :
  ∃ j, (j ≤ Z.to_nat max_iter)%nat
       ∧ Float.outcome
           (Float.compute_pagerank_inbound (Float.rounded rnd) node_order df_edges d
              max_iter tol)
         = inr (Float.pagerank_after (Float.rounded rnd) node_order df_edges d j).
Proof.
  rewrite float_compute_unfold by done. unfold Float.outcome at 1. cbn [snd].
  destruct (float_iterate_total (Float.rounded rnd) df_edges node_order d tol Horder
              (seqZ 0 max_iter)
              (Float.uniform_of (Float.rounded rnd) (all_nodes_of df_edges) node_order))
    as (j & Hj & Heq); [by apply float_dom_uniform_of|].
  exists j. rewrite length_seqZ in Hj. done.
Qed.

(** Without dangling node the total after [j] passes is 1 after at most
    [j * pass_roundings + 1] roundings. *)
Lemma rounded_total_after j v :
  no_dangling df_edges → v ∈ all_nodes_of df_edges →
  within u (j * pass_roundings df_edges + 1)
    (sum_pr_spec (all_nodes_of df_edges)
       (Float.pagerank_after (Float.rounded rnd) node_order df_edges d j))
    1%Qc.
Proof.
  intros Hnd Hv. induction j as [|j IH].
  - by apply (rounded_sum_uniform u rnd Hu Hrnd df_edges node_order Horder v).
  - replace (S j * pass_roundings df_edges + 1)%nat
      with (pass_roundings df_edges + (j * pass_roundings df_edges + 1))%nat by lia.
    eapply (within_trans u Hu); [done| |exact IH].
    rewrite <-(update_spec_preserves_total df_edges d
                 (Float.pagerank_after (Float.rounded rnd) node_order df_edges d j) Hnd).
    apply (rounded_sum_update u rnd Hu Hrnd df_edges node_order d Hd Horder).
    + by apply float_dom_pagerank_after.
    + by apply rounded_pagerank_after_nonneg.
Qed.
End run.
End rounded_total.

(** ** Rounding to nearest *)

Section nearest.
Local Open Scope Q_scope.

Lemma Qpower2_pos e : 0 < 2 ^ e.
Proof. by apply Qpower_0_lt. Qed.

Lemma Qpower2_succ e : 2 ^ (e + 1) == 2 * 2 ^ e.
Proof. rewrite Qpower_plus by done. change (2 ^ 1) with 2. ring. Qed.

Lemma Qpower2_inject (k : Z) : (0 <= k)%Z → inject_Z (2 ^ k) == 2 ^ k.
Proof. intros Hk. by rewrite Zpower_Qpower. Qed.

(** [2 ^ floor_log2 q] is at most [q]. *)
Lemma Qpower2_ratio_le (a b la lb : Z) :
  (0 <= la)%Z → (0 <= lb)%Z → (0 < b)%Z → (2 ^ la * b <= a * 2 ^ lb)%Z →
  2 ^ (la - lb) <= inject_Z a / inject_Z b.
Proof.
  intros Hla Hlb Hb H.
  pose proof (Qpower2_pos lb) as Hpb.
  assert (0 < inject_Z b) as Hb0 by (rewrite Zlt_Qlt in Hb; exact Hb).
  unfold Z.sub. rewrite Qpower_plus, Qpower_opp by done.
  apply Qle_shift_div_l; [done|].
  assert (2 ^ la * / 2 ^ lb * inject_Z b == (2 ^ la * inject_Z b) / 2 ^ lb) as Heq
    by (field; lra).
  rewrite Heq.
  apply Qle_shift_div_r; [done|].
  rewrite <-!Qpower2_inject by done. rewrite <-!inject_Z_mult.
  by rewrite <-Zle_Qle.
Qed.

Lemma floor_log2_le q : 0 < q → 2 ^ floor_log2 q <= q.
Proof.
  destruct q as [a b]. unfold Qlt. simpl. rewrite Z.mul_1_r. intros Ha.
  unfold floor_log2. cbn [Qnum Qden].
  pose proof (Z.log2_nonneg a) as Hla. pose proof (Z.log2_nonneg (Z.pos b)) as Hlb.
  pose proof (Z.log2_spec a Ha) as [Ha1 Ha2].
  pose proof (Z.log2_spec (Z.pos b) ltac:(lia)) as [Hb1 Hb2].
  rewrite (Qmake_Qdiv a b).
  destruct (Z.leb_spec (Z.pos b * 2 ^ Z.log2 a) (a * 2 ^ Z.log2 (Z.pos b))) as [Hle|Hgt].
  - apply Qpower2_ratio_le; lia.
  - replace (Z.log2 a - Z.log2 (Z.pos b) - 1)%Z
      with (Z.log2 a - (Z.log2 (Z.pos b) + 1))%Z by lia.
    apply Qpower2_ratio_le; [lia|lia|lia|].
    replace (Z.log2 (Z.pos b) + 1)%Z with (Z.succ (Z.log2 (Z.pos b))) by lia.
    assert (0 < 2 ^ Z.log2 a)%Z by lia. nia.
Qed.

(** Rounding a positive rational to [p] bits errs by at most [2^-p] of it. *)
Lemma round_nearest_pos_error p q :
  0 < q → Qabs (round_nearest_pos p q - q) <= 2 ^ (- p) * q.
Proof.
  intros Hq. unfold round_nearest_pos.
  set (e := (floor_log2 q - (p - 1))%Z).
  set (y := q / 2 ^ e).
  set (m := Qfloor y).
  pose proof (Qpower2_pos e) as He.
  pose proof (Qpower2_pos (- p)) as Hp.
  pose proof (floor_log2_le q Hq) as Hlog.
  replace (floor_log2 q) with (e + p + -1)%Z in Hlog by (unfold e; lia).
  rewrite !Qpower_plus in Hlog by done.
  assert (2 ^ p * 2 ^ (- p) == 1) as Hpp.
  { rewrite <-Qpower_plus by done. by rewrite Z.add_opp_diag_r. }
  change (2 ^ (-1)) with (1 # 2) in Hlog.
  assert (q == y * 2 ^ e) as Hy by (unfold y; field; lra).
  pose proof (Qfloor_le y) as Hm1. pose proof (Qlt_floor y) as Hm2. fold m in Hm1, Hm2.
  rewrite inject_Z_plus in Hm2. change (inject_Z 1) with 1 in Hm2.
  set (m' := match y - inject_Z m ?= 1 # 2 with
             | Eq => if Z.even m then m else (m + 1)%Z
             | Lt => m
             | Gt => (m + 1)%Z
             end).
  assert (Qabs (inject_Z m' - y) <= 1 # 2) as Hhalf.
  { apply Qabs_Qle_condition. unfold m'.
    destruct (Qcompare_spec (y - inject_Z m) (1 # 2)) as [Heq|Hlt|Hgt].
    - destruct (Z.even m); [|rewrite inject_Z_plus; change (inject_Z 1) with 1];
        split; lra.
    - split; lra.
    - rewrite inject_Z_plus. change (inject_Z 1) with 1. split; lra. }
  assert (inject_Z m' * 2 ^ e - q == (inject_Z m' - y) * 2 ^ e) as Heq
    by (rewrite Hy; ring).
  rewrite Heq.
  rewrite Qabs_Qmult, (Qabs_pos (2 ^ e)) by lra.
  apply Qle_trans with ((1 # 2) * 2 ^ e).
  - apply Qmult_le_compat_r; [done|lra].
  - apply Qle_trans with (2 ^ (- p) * (2 ^ e * 2 ^ p * (1 # 2))).
    + assert (2 ^ (- p) * (2 ^ e * 2 ^ p * (1 # 2))
              == (2 ^ p * 2 ^ (- p)) * ((1 # 2) * 2 ^ e)) as Heq' by ring.
      rewrite Heq', Hpp. lra.
    + apply Qmult_le_l; [done|done].
Qed.


End nearest.

Lemma this_Q2Qc (q : Q) : (this (Q2Qc q) == q)%Q.
Proof. apply Qred_correct. Qed.

Lemma unit_roundoff_bounds p : (0 ≤ p)%Z → (0 ≤ unit_roundoff p ≤ 1)%Qc.
Proof.
  intros Hp. pose proof (Qpower2_pos p) as H0.
  assert (1 <= 2 ^ p)%Q as H by (apply Qpower_1_le; [lra|done]).
  unfold unit_roundoff, Qcle. split; rewrite (this_Q2Qc (2 ^ (- p))).
  - apply Qlt_le_weak, Qpower2_pos.
  - rewrite Qpower_opp. change (this 1%Qc) with 1%Q.
    apply Qle_shift_inv_r; [done|]. lra.
Qed.

Lemma round_nearest_rounds_within p : rounds_within (unit_roundoff p) (round_nearest p).
Proof.
  intros x. unfold round_nearest, unit_roundoff.
  destruct (Qcompare_spec (this x) 0) as [Heq|Hlt|Hgt].
  - assert (x = 0%Qc) as -> by by apply Qc_is_canon.
    replace (0 - 0)%Qc with 0%Qc by ring.
    rewrite (Qcabs_pos 0%Qc), Qcmult_0_r by done. done.
  - assert (0 < - this x)%Q as Hpos by lra.
    pose proof (round_nearest_pos_error p (- this x) Hpos) as H.
    unfold Qcle. rewrite this_mult, (this_Q2Qc (2 ^ (- p))).
    change (this (Qcabs ?z)) with (Qabs (this z)).
    rewrite this_minus, this_opp, (this_Q2Qc (round_nearest_pos _ _)).
    rewrite (Qabs_neg (this x)) by lra.
    rewrite <-Qabs_opp.
    assert (- (- round_nearest_pos p (- this x) - this x)
            == round_nearest_pos p (- this x) - - this x)%Q as -> by ring.
    exact H.
  - pose proof (round_nearest_pos_error p (this x) Hgt) as H.
    unfold Qcle. rewrite this_mult, (this_Q2Qc (2 ^ (- p))).
    change (this (Qcabs ?z)) with (Qabs (this z)).
    rewrite this_minus, (this_Q2Qc (round_nearest_pos _ _)).
    rewrite (Qabs_pos (this x)) by lra.
    exact H.
Qed.

Section total_bounds.
Variable u : Qc.
Variable rnd : Qc → Qc.
Hypothesis Hu : (0 ≤ u ≤ 1)%Qc.
Hypothesis Hrnd : rounds_within u rnd.
Variable df_edges : list (Z * Z).
Variable node_order : list Z.
Variable d : Qc.
Hypothesis Hd : (0 ≤ d ≤ 1)%Qc.
Hypothesis Horder : node_order ≡ₚ elements (all_nodes_of df_edges).
Hypothesis Hnd : no_dangling df_edges.
Variable v : Z.
Hypothesis Hv : v ∈ all_nodes_of df_edges.

Lemma rounded_total_near_one j k :
  (j ≤ k)%nat →
  (Qcabs (sum_pr_spec (all_nodes_of df_edges)
            (Float.pagerank_after (Float.rounded rnd) node_order df_edges d j) - 1)
   ≤ (1 + u) ^ (k * pass_roundings df_edges + 1) - 1)%Qc.
Proof.
  intros Hjk. apply (within_one_abs u Hu).
  eapply (within_mono u Hu); [|done|by apply (rounded_total_after u rnd Hu Hrnd _ _ _ Hd Horder j v)].
  nia.
Qed.

Lemma rounded_py_sum_near_one j k :
  (j ≤ k)%nat →
  (Qcabs (Float.py_sum (Float.rounded rnd)
            (Float.values node_order
               (Float.pagerank_after (Float.rounded rnd) node_order df_edges d j)) - 1)
   ≤ (1 + u) ^ (size (all_nodes_of df_edges) + (k * pass_roundings df_edges + 1)) - 1)%Qc.
Proof.
  intros Hjk. apply (within_one_abs u Hu).
  eapply (within_trans u Hu); [done| |].
  - apply (rounded_py_sum u rnd Hu Hrnd df_edges node_order Horder).
    + by apply float_dom_pagerank_after.
    + by apply (rounded_pagerank_after_nonneg u).
  - eapply (within_mono u Hu); [|done|by apply (rounded_total_after u rnd Hu Hrnd _ _ _ Hd Horder j v)].
    nia.
Qed.
End total_bounds.


(** ** One more pass on the map of a run that stopped *)

Lemma l1_diff_sym node_set a b : l1_diff node_set a b = l1_diff node_set b a.
Proof. unfold l1_diff. apply Qcsum_ext. intros v _. apply Qcabs_Qcminus. Qed.

Lemma l1_diff_triangle node_set a b c :
  (l1_diff node_set a c ≤ l1_diff node_set a b + l1_diff node_set b c)%Qc.
Proof.
  unfold l1_diff. rewrite <-Qcsum_plus. apply Qcsum_le. intros v _.
  replace (score a v - score c v)%Qc
    with ((score a v - score b v) + (score b v - score c v))%Qc by ring.
  apply Qcabs_triangle.
Qed.

Lemma sum_update_spec_le df_edges d pr :
  (0 ≤ d ≤ 1)%Qc → nonneg_scores pr →
  (sum_pr_spec (all_nodes_of df_edges)
     (update_spec (all_nodes_of df_edges) (inbound_links_of df_edges)
        (outdegree_of df_edges) d pr)
   ≤ sum_pr_spec (all_nodes_of df_edges) pr)%Qc.
Proof.
  intros Hd Hpr. rewrite sum_update_spec.
  trans ((1 - d) * sum_pr_spec (all_nodes_of df_edges) pr
         + d * sum_pr_spec (all_nodes_of df_edges) pr)%Qc; [|apply Qcle_of_eq; ring].
  apply Qcplus_le_compat; [done|].
  apply Qcmult_le_mono_nonneg_l; [apply Hd|].
  apply Qcsum_le. intros w _. case_decide; [by apply nonneg_scores_score|done].
Qed.

Lemma sum_uniform_spec_le (node_set : gset Z) :
  (sum_pr_spec node_set (uniform_spec node_set) ≤ 1)%Qc.
Proof.
  destruct (elements node_set) as [|v vs] eqn:Hel.
  - unfold sum_pr_spec. by rewrite Hel.
  - rewrite (sum_uniform_spec _ v); [done|].
    apply elem_of_elements. rewrite Hel. left.
Qed.

Section rounded_stability.
Variable u : Qc.
Variable rnd : Qc → Qc.
Hypothesis Hu : (0 ≤ u ≤ 1)%Qc.
Hypothesis Hrnd : rounds_within u rnd.

Lemma abs_rnd_within x : within u 1 (Qcabs (rnd x)) (Qcabs x).
Proof.
  pose proof (Hrnd x) as H.
  pose proof (Qcabs_triangle (rnd x - x) x) as H1.
  replace (rnd x - x + x)%Qc with (rnd x) in H1 by ring.
  pose proof (Qcabs_triangle_reverse x (rnd x)) as H2.
  rewrite (Qcabs_Qcminus x (rnd x)) in H2.
  unfold within. simpl. rewrite !Qcmult_1_r. split; qc2q; lra.
Qed.

Lemma within_abs_error k x y :
  (0 ≤ y)%Qc → within u k x y → (Qcabs (x - y) ≤ ((1 + u) ^ k - 1) * y)%Qc.
Proof.
  intros Hy [H1 H2]. pose proof (pow_sum_ge_2 u Hu k) as H3.
  apply Qcabs_Qcle_condition.
  change 2%Qc with (1 + 1)%Qc in *. split; qc2q; nra.
Qed.

Section pass.
Variable df_edges : list (Z * Z).
Variable node_order : list Z.
Variable d : Qc.
Hypothesis Hd : (0 ≤ d ≤ 1)%Qc.
Hypothesis Horder : node_order ≡ₚ elements (all_nodes_of df_edges).

(** The variation that a pass measures is the L1 distance of the two
    maps after at most one rounding per term and one per addition. *)
Lemma rounded_diff_within new_pagerank pr :
  within u (1 + size (all_nodes_of df_edges))
    (Float.diff_of (Float.rounded rnd) node_order new_pagerank pr)
    (l1_diff (all_nodes_of df_edges) new_pagerank pr).
Proof.
  unfold Float.diff_of, l1_diff.
  rewrite <-(Qcsum_Permutation _ _ (fmap_Permutation _ _ _ Horder)).
  rewrite <-(Qcplus_0_l (Qcsum _)).
  replace (size (all_nodes_of df_edges)) with (length node_order) by by rewrite Horder.
  apply (within_foldl u rnd Hu Hrnd
           (λ v, Qcabs (rnd (score new_pagerank v - score pr v)))
           (λ v, Qcabs (score new_pagerank v - score pr v))).
  - intros v _. split; [apply Qcabs_nonneg|apply abs_rnd_within].
  - done.
  - apply within_zero.
Qed.

(** The map that a pass stores is close to the map of the update
    formula. *)
Lemma rounded_update_error pr :
  dom pr = all_nodes_of df_edges → nonneg_scores pr →
  (l1_diff (all_nodes_of df_edges)
     (Float.update_of (Float.rounded rnd) (all_nodes_of df_edges) node_order
        (inbound_links_of df_edges) (outdegree_of df_edges) d pr)
     (update_spec (all_nodes_of df_edges) (inbound_links_of df_edges)
        (outdegree_of df_edges) d pr)
   ≤ ((1 + u) ^ pass_roundings df_edges - 1) * sum_pr_spec (all_nodes_of df_edges) pr)%Qc.
Proof.
  intros Hdom Hpr.
  assert (0 ≤ (1 + u) ^ pass_roundings df_edges - 1)%Qc as Hc.
  { pose proof (high_pow_bound u Hu (pass_roundings df_edges)) as H. qc2q. lra. }
  trans (((1 + u) ^ pass_roundings df_edges - 1)
         * sum_pr_spec (all_nodes_of df_edges)
             (update_spec (all_nodes_of df_edges) (inbound_links_of df_edges)
                (outdegree_of df_edges) d pr))%Qc.
  - unfold l1_diff, sum_pr_spec. rewrite <-Qcsum_scale.
    apply Qcsum_le. intros v Hv%elem_of_elements.
    rewrite (rounded_score_update rnd df_edges node_order d Horder), score_update_spec by done.
    apply within_abs_error; [by apply new_score_nonneg|].
    by apply rounded_new_score.
  - apply Qcmult_le_mono_nonneg_l; [done|]. by apply sum_update_spec_le.
Qed.

(** Two passes in a row: what the second measures against what the first
    measured. *)
Lemma rounded_next_diff prev :
  dom prev = all_nodes_of df_edges → nonneg_scores prev →
  let upd := Float.update_of (Float.rounded rnd) (all_nodes_of df_edges) node_order
               (inbound_links_of df_edges) (outdegree_of df_edges) d in
  ((1 - u) ^ (1 + size (all_nodes_of df_edges))
   * Float.diff_of (Float.rounded rnd) node_order (upd (upd prev)) (upd prev)
   ≤ (1 + u) ^ (1 + size (all_nodes_of df_edges))
     * (Float.diff_of (Float.rounded rnd) node_order (upd prev) prev
        + ((1 + u) ^ pass_roundings df_edges - 1)
          * (sum_pr_spec (all_nodes_of df_edges) (upd prev)
             + sum_pr_spec (all_nodes_of df_edges) prev)))%Qc.
Proof.
  intros Hdom Hpr upd.
  assert (dom (upd prev) = all_nodes_of df_edges) as Hdom' by by apply float_dom_update_of.
  assert (nonneg_scores (upd prev)) as Hpr' by by apply (rounded_update_nonneg u).
  pose proof (rounded_diff_within (upd (upd prev)) (upd prev)) as [_ H2].
  pose proof (rounded_diff_within (upd prev) prev) as [H1 _].
  pose proof (rounded_update_error prev Hdom Hpr) as H3.
  pose proof (rounded_update_error (upd prev) Hdom' Hpr') as H4.
  fold upd in H3, H4.
  pose proof (update_spec_nonexpansive df_edges d Hd (upd prev) prev) as H5.
  set (E := update_spec (all_nodes_of df_edges) (inbound_links_of df_edges)
              (outdegree_of df_edges) d) in *.
  pose proof (l1_diff_triangle (all_nodes_of df_edges) (upd (upd prev)) (E (upd prev))
                (upd prev)) as H6.
  pose proof (l1_diff_triangle (all_nodes_of df_edges) (E (upd prev)) (E prev)
                (upd prev)) as H7.
  rewrite (l1_diff_sym _ (E prev) (upd prev)) in H7.
  destruct (low_pow_bounds u Hu (1 + size (all_nodes_of df_edges))) as [HA0 HA1].
  pose proof (high_pow_bound u Hu (1 + size (all_nodes_of df_edges))) as HB.
  pose proof (high_pow_bound u Hu (pass_roundings df_edges)) as HC.
  pose proof (sum_pr_spec_nonneg df_edges prev Hpr) as HS1.
  pose proof (sum_pr_spec_nonneg df_edges (upd prev) Hpr') as HS2.
  set (A := ((1 - u) ^ (1 + size (all_nodes_of df_edges)))%Qc) in *.
  set (B := ((1 + u) ^ (1 + size (all_nodes_of df_edges)))%Qc) in *.
  set (C := ((1 + u) ^ pass_roundings df_edges)%Qc) in *.
  set (D2 := Float.diff_of _ _ (upd (upd prev)) (upd prev)) in *.
  set (D1 := Float.diff_of _ _ (upd prev) prev) in *.
  set (X := l1_diff _ (upd (upd prev)) (upd prev)) in *.
  set (Y := l1_diff _ (upd prev) prev) in *.
  set (S1 := sum_pr_spec _ prev) in *.
  set (S2 := sum_pr_spec _ (upd prev)) in *.
  assert (X ≤ Y + (C - 1) * (S2 + S1))%Qc as HX.
  { qc2q. lra. }
  assert (0 ≤ Y)%Qc as HY.
  { apply Qcsum_nonneg. intros; apply Qcabs_nonneg. }
  clear H3 H4 H5 H6 H7.
  qc2q.
  apply Qle_trans with (this A * (this B * this X))%Q; [nra|].
  apply Qle_trans with (this B * (this A * (this Y + (this C - 1) * (this S2 + this S1))))%Q.
  { assert (0 <= this A * this B)%Q by nra. nra. }
  assert (this A * (this Y + (this C - 1) * (this S2 + this S1))
          <= this D1 + (this C - 1) * (this S2 + this S1))%Q; [|nra].
  assert (0 <= (this C - 1) * (this S2 + this S1))%Q by nra. nra.
Qed.
End pass.
End rounded_stability.

Section rounded_totals_any_graph.
Variable u : Qc.
Variable rnd : Qc → Qc.
Hypothesis Hu : (0 ≤ u ≤ 1)%Qc.
Hypothesis Hrnd : rounds_within u rnd.
Variable df_edges : list (Z * Z).
Variable node_order : list Z.
Variable d : Qc.
Hypothesis Hd : (0 ≤ d ≤ 1)%Qc.
Hypothesis Horder : node_order ≡ₚ elements (all_nodes_of df_edges).

Lemma rounded_sum_uniform_le :
  (sum_pr_spec (all_nodes_of df_edges)
     (Float.uniform_of (Float.rounded rnd) (all_nodes_of df_edges) node_order)
   ≤ (1 + u) ^ 1)%Qc.
Proof.
  destruct (set_choose_or_empty (all_nodes_of df_edges)) as [[v Hv]|Hempty].
  - destruct (rounded_sum_uniform u rnd Hu Hrnd df_edges node_order Horder v Hv) as [_ H].
    by rewrite Qcmult_1_r in H.
  - apply leibniz_equiv in Hempty. unfold sum_pr_spec. rewrite Hempty, elements_empty.
    csimpl. pose proof (high_pow_bound u Hu 1) as H. qc2q. lra.
Qed.

(** Whatever the graph, a pass multiplies the total by at most
    (1+u)^pass_roundings. *)
Lemma rounded_sum_update_le k pr :
  dom pr = all_nodes_of df_edges → nonneg_scores pr →
  (sum_pr_spec (all_nodes_of df_edges) pr ≤ (1 + u) ^ (k * pass_roundings df_edges + 1))%Qc →
  (sum_pr_spec (all_nodes_of df_edges)
     (Float.update_of (Float.rounded rnd) (all_nodes_of df_edges) node_order
        (inbound_links_of df_edges) (outdegree_of df_edges) d pr)
   ≤ (1 + u) ^ (S k * pass_roundings df_edges + 1))%Qc.
Proof.
  intros Hdom Hpr Hle.
  destruct (rounded_sum_update u rnd Hu Hrnd df_edges node_order d Hd Horder pr Hdom Hpr)
    as [_ H1].
  pose proof (sum_update_spec_le df_edges d pr Hd Hpr) as H2.
  pose proof (high_pow_bound u Hu (pass_roundings df_edges)) as H3.
  pose proof (sum_pr_spec_nonneg df_edges pr Hpr) as H4.
  assert (0 ≤ sum_pr_spec (all_nodes_of df_edges)
                (update_spec (all_nodes_of df_edges) (inbound_links_of df_edges)
                   (outdegree_of df_edges) d pr))%Qc as H5.
  { apply sum_pr_spec_nonneg. by apply update_spec_nonneg. }
  replace (S k * pass_roundings df_edges + 1)%nat
    with (pass_roundings df_edges + (k * pass_roundings df_edges + 1))%nat by lia.
  rewrite Qcpower_plus. qc2q. nra.
Qed.
End rounded_totals_any_graph.

Lemma float_reported_convergence {F} (ops : Float.Arith F) node_order df_edges
    (d tol : F) max_iter :
  node_order ≡ₚ elements (all_nodes_of df_edges) →
  Float.reported_convergence
    (Float.compute_pagerank_inbound ops node_order df_edges d max_iter tol)
  = Float.reported_convergence
      (Float.iterate ops (all_nodes_of df_edges) node_order
         (inbound_links_of df_edges) (outdegree_of df_edges) d tol
         (seqZ 0 max_iter) (Float.uniform_of ops (all_nodes_of df_edges) node_order)).
Proof.
  intros Horder. rewrite float_compute_unfold by done.
  unfold Float.reported_convergence at 1. unfold Float.stdout at 1. cbn [fst].
  by rewrite existsb_app.
Qed.


(** ** The specified properties *)

(** C1. On a non-empty node set, one pass of the loop gives every node [v]
    the score [(1 - d) * (sum_pr / n) + d * in_sum(v)], where [sum_pr] and
    every [in_sum] are read from the previous map alone; and with
    [max_iter = 1] and [tol = 0] the program returns one such update of the
    uniform [1/n] map. *)
Theorem update_pass_formula df_edges d pr v :
  v ∈ all_nodes_of df_edges →
  dom pr = all_nodes_of df_edges →
  ∃ new_pagerank diff result,
    update_pass (all_nodes_of df_edges) (elements (all_nodes_of df_edges))
      (inbound_links_of df_edges) (outdegree_of df_edges) d pr
    = mret (new_pagerank, diff)
    ∧ new_pagerank !! v
      = Some ((1 - d)
              * (Qcsum (score pr <$> elements (all_nodes_of df_edges))
                 / Qc_of_Z (n (all_nodes_of df_edges)))
              + d * Qcsum ((λ u, score pr u
                                 / Qc_of_Z (dd_getitem 0%Z (outdegree_of df_edges) u))
                           <$> dd_getitem [] (inbound_links_of df_edges) v))%Qc
    ∧ compute_pagerank_inbound df_edges d 1 0%Qc = (prelude df_edges d, inr result)
    ∧ result !! v
      = Some (new_score (all_nodes_of df_edges) (inbound_links_of df_edges)
                (outdegree_of df_edges) d (uniform_spec (all_nodes_of df_edges)) v)
    ∧ uniform_spec (all_nodes_of df_edges) !! v
      = Some (1 / Qc_of_Z (n (all_nodes_of df_edges)))%Qc.
Proof.
  intros Hv Hdom.
  exists (update_spec (all_nodes_of df_edges) (inbound_links_of df_edges)
            (outdegree_of df_edges) d pr),
    (l1_diff (all_nodes_of df_edges)
       (update_spec (all_nodes_of df_edges) (inbound_links_of df_edges)
          (outdegree_of df_edges) d pr) pr),
    (update_spec (all_nodes_of df_edges) (inbound_links_of df_edges)
       (outdegree_of df_edges) d (uniform_spec (all_nodes_of df_edges))).
  split; [|split; [|split; [|split]]].
  - apply update_pass_spec; [apply build_index_wf|done|done].
  - by rewrite lookup_update_spec, decide_True.
  - apply (compute_pagerank_inbound_tol_0 df_edges d 1).
  - by rewrite lookup_update_spec, decide_True.
  - by rewrite lookup_uniform_spec, decide_True.
Qed.

Lemma update_pass_formula_witness :
  ∃ new_pagerank diff result,
    update_pass (all_nodes_of example_graph) (elements (all_nodes_of example_graph))
      (inbound_links_of example_graph) (outdegree_of example_graph)
      default_damping example_scores
    = mret (new_pagerank, diff)
    ∧ new_pagerank !! 3
      = Some ((1 - default_damping)
              * (Qcsum (score example_scores <$> elements (all_nodes_of example_graph))
                 / Qc_of_Z (n (all_nodes_of example_graph)))
              + default_damping
                * Qcsum ((λ u, score example_scores u
                               / Qc_of_Z (dd_getitem 0%Z (outdegree_of example_graph) u))
                         <$> dd_getitem [] (inbound_links_of example_graph) 3%Z))%Qc
    ∧ compute_pagerank_inbound example_graph default_damping 1 0%Qc
      = (prelude example_graph default_damping, inr result)
    ∧ result !! 3
      = Some (new_score (all_nodes_of example_graph) (inbound_links_of example_graph)
                (outdegree_of example_graph) default_damping
                (uniform_spec (all_nodes_of example_graph)) 3)
    ∧ uniform_spec (all_nodes_of example_graph) !! 3
      = Some (1 / Qc_of_Z (n (all_nodes_of example_graph)))%Qc.
Proof.
  apply (update_pass_formula example_graph default_damping example_scores 3).
  - vm_compute. reflexivity.
  - vm_compute. reflexivity.
Defined.

(** C2. If pass [k] (counted from 0, [k < max_iter]) is the first whose L1
    variation is strictly below the tolerance, the program announces
    convergence at iteration [k + 1] and returns the map built by that pass,
    running no later pass; if no pass within the budget sees a variation
    below the tolerance, it returns, without any exception, the map built by
    the last pass. *)
Theorem iterator_stops_or_exhausts df_edges d max_iter tol :
  (∀ k : nat,
     Z.of_nat k < max_iter →
     (∀ j, (j < k)%nat → ¬ (diff_after df_edges d j < tol)%Qc) →
     (diff_after df_edges d k < tol)%Qc →
     compute_pagerank_inbound df_edges d max_iter tol
     = (prelude df_edges d ++ [MsgConverged (Z.of_nat k + 1) (diff_after df_edges d k)],
        inr (pagerank_after df_edges d (S k))))
  ∧ ((∀ j : nat, Z.of_nat j < max_iter → ¬ (diff_after df_edges d j < tol)%Qc) →
     compute_pagerank_inbound df_edges d max_iter tol
     = (prelude df_edges d, inr (pagerank_after df_edges d (Z.to_nat max_iter)))).
Proof.
  split.
  - intros k. apply compute_pagerank_inbound_converges.
  - apply compute_pagerank_inbound_exhausts.
Qed.

Lemma iterator_stops_or_exhausts_witness :
  compute_pagerank_inbound example_cycle default_damping 100 default_tol
  = (prelude example_cycle default_damping
       ++ [MsgConverged (Z.of_nat 0 + 1) (diff_after example_cycle default_damping 0)],
     inr (pagerank_after example_cycle default_damping 1))
  ∧ compute_pagerank_inbound example_sink default_damping 2 0%Qc
    = (prelude example_sink default_damping,
       inr (pagerank_after example_sink default_damping (Z.to_nat 2))).
Proof.
  split.
  - apply (proj1 (iterator_stops_or_exhausts example_cycle default_damping 100 default_tol) 0%nat).
    + lia.
    + intros j Hj. lia.
    + vm_compute. reflexivity.
  - apply (proj2 (iterator_stops_or_exhausts example_sink default_damping 2 0%Qc)).
    intros j Hj.
    assert (j = 0 ∨ j = 1)%nat as [-> | ->] by lia; vm_compute; discriminate.
Defined.

(** C3. In the index built from any row list, every node listed in some
    [inbound_links[v]] has an out-degree of at least 1; hence no run of the
    program, whatever the configuration, ends in a division by zero. *)
Theorem inbound_sources_have_outdegree df_edges :
  (∀ v u, u ∈ dd_getitem [] (inbound_links_of df_edges) v →
          1 ≤ dd_getitem 0 (outdegree_of df_edges) u)
  ∧ (∀ d max_iter tol,
       outcome (compute_pagerank_inbound df_edges d max_iter tol) ≠ inl ZeroDivisionError).
Proof.
  split.
  - intros v u Hu. apply build_index_wf in Hu as [_ Hdeg]. lia.
  - intros d max_iter tol.
    destruct (compute_pagerank_inbound_total df_edges d max_iter tol) as (j & -> & _).
    done.
Qed.

Lemma inbound_sources_have_outdegree_witness :
  1 ≤ dd_getitem 0 (outdegree_of example_graph) 2
  ∧ outcome (compute_pagerank_inbound example_graph default_damping 100 default_tol)
    ≠ inl ZeroDivisionError.
Proof.
  split.
  - apply (proj1 (inbound_sources_have_outdegree example_graph) 3 2).
    vm_compute. right. left.
  - apply (proj2 (inbound_sources_have_outdegree example_graph)).
Defined.

Lemma all_nodes_of_nil : all_nodes_of [] = ∅.
Proof. unfold all_nodes_of. simpl. by rewrite (left_id_L ∅ (∪)). Qed.

Lemma pagerank_after_nil d j : pagerank_after [] d j = ∅.
Proof.
  apply (dom_empty_inv_L (D:=gset Z)). by rewrite dom_pagerank_after, all_nodes_of_nil.
Qed.

Lemma diff_after_nil d j : diff_after [] d j = 0%Qc.
Proof.
  unfold diff_after, diff_seq, l1_diff. by rewrite all_nodes_of_nil, elements_empty.
Qed.

(** C4, on a graph with at least one node. Take a non-empty graph in
    which every node has an outbound row and a damping factor in [0,1],
    and let every float operation return its exact result with a relative
    error of at most [u], as binary64 does with [u] = 2^-53. Then after
    each full pass (the map of pass [j] is what the program returns for
    [max_iter = j] and [tol = 0]) the total of the scores, summed exactly
    or by the program's own [sum], is within (1+u)^e - 1 of 1, where [e]
    counts the roundings made so far; so is the total of the map returned
    under any budget of passes and any tolerance. In exact arithmetic one
    pass of the loop preserves the total exactly. *)
Theorem total_score_preserved df_edges u rnd node_order d v :
  (0 ≤ u ≤ 1)%Qc → rounds_within u rnd →
  node_order ≡ₚ elements (all_nodes_of df_edges) →
  no_dangling df_edges → v ∈ all_nodes_of df_edges → (0 ≤ d ≤ 1)%Qc →
  (∀ j : nat,
     Float.outcome
       (Float.compute_pagerank_inbound (Float.rounded rnd) node_order df_edges d
          (Z.of_nat j) 0%Qc)
     = inr (Float.pagerank_after (Float.rounded rnd) node_order df_edges d j)
     ∧ (Qcabs (sum_pr_spec (all_nodes_of df_edges)
                 (Float.pagerank_after (Float.rounded rnd) node_order df_edges d j) - 1)
        ≤ (1 + u) ^ (j * pass_roundings df_edges + 1) - 1)%Qc
     ∧ (Qcabs (Float.py_sum (Float.rounded rnd)
                 (Float.values node_order
                    (Float.pagerank_after (Float.rounded rnd) node_order df_edges d j)) - 1)
        ≤ (1 + u) ^ (size (all_nodes_of df_edges) + (j * pass_roundings df_edges + 1)) - 1)%Qc)
  ∧ (∀ max_iter tol,
       ∃ pr,
         Float.outcome
           (Float.compute_pagerank_inbound (Float.rounded rnd) node_order df_edges d
              max_iter tol)
         = inr pr
         ∧ (Qcabs (sum_pr_spec (all_nodes_of df_edges) pr - 1)
            ≤ (1 + u) ^ (Z.to_nat max_iter * pass_roundings df_edges + 1) - 1)%Qc
         ∧ (Qcabs (Float.py_sum (Float.rounded rnd) (Float.values node_order pr) - 1)
            ≤ (1 + u) ^ (size (all_nodes_of df_edges)
                         + (Z.to_nat max_iter * pass_roundings df_edges + 1)) - 1)%Qc)
  ∧ (∀ pr, dom pr = all_nodes_of df_edges →
       ∃ new_pagerank diff,
         update_pass (all_nodes_of df_edges) (elements (all_nodes_of df_edges))
           (inbound_links_of df_edges) (outdegree_of df_edges) d pr
         = mret (new_pagerank, diff)
         ∧ py_sum (snd <$> map_to_list new_pagerank) = py_sum (snd <$> map_to_list pr)).
Proof.
  intros Hu Hrnd Horder Hnd Hv Hd. split; [|split].
  - intros j. split; [by apply (rounded_tol_0 u)|]. split.
    + by apply (rounded_total_near_one u rnd Hu Hrnd _ _ _ Hd Horder Hnd v).
    + by apply (rounded_py_sum_near_one u rnd Hu Hrnd _ _ _ Hd Horder Hnd v).
  - intros max_iter tol.
    destruct (rounded_run_total rnd df_edges node_order d Horder max_iter tol)
      as (j & Hj & Heq).
    eexists. split; [exact Heq|]. split.
    + by apply (rounded_total_near_one u rnd Hu Hrnd _ _ _ Hd Horder Hnd v).
    + by apply (rounded_py_sum_near_one u rnd Hu Hrnd _ _ _ Hd Horder Hnd v).
  - intros pr Hdom. eexists _, _. split.
    + apply update_pass_spec; [apply build_index_wf|done|done].
    + rewrite !sum_values_spec, dom_update_spec, Hdom.
      by apply update_spec_preserves_total.
Qed.

Lemma total_score_preserved_witness :
  ∃ pr,
    Float.outcome
      (Float.compute_pagerank_inbound (Float.rounded (round_nearest 53)) ascending_3
         example_graph (Qc_of_float damping_f64) 3 0%Qc)
    = inr pr
    ∧ (Qcabs (sum_pr_spec (all_nodes_of example_graph) pr - 1)
       ≤ (1 + unit_roundoff 53) ^ (Z.to_nat 3 * pass_roundings example_graph + 1) - 1)%Qc
    ∧ (Qcabs (Float.py_sum (Float.rounded (round_nearest 53)) (Float.values ascending_3 pr) - 1)
       ≤ (1 + unit_roundoff 53) ^ (size (all_nodes_of example_graph)
                                   + (Z.to_nat 3 * pass_roundings example_graph + 1)) - 1)%Qc.
Proof.
  apply (proj1 (proj2 (total_score_preserved example_graph (unit_roundoff 53)
                         (round_nearest 53) ascending_3 (Qc_of_float damping_f64) 1
                         ltac:(split; vm_compute; discriminate)
                         (round_nearest_rounds_within 53)
                         ltac:(apply (bool_decide_unpack _); vm_compute; reflexivity)
                         ltac:(vm_compute; repeat constructor)
                         ltac:(vm_compute; reflexivity)
                         ltac:(split; vm_compute; discriminate))) 3 0%Qc).
Defined.

(** C4 as stated fails on the empty row list, which has no dangling node:
    the map returned is empty and its total is 0, at distance 1 from 1.
    The binary64 program returns the empty map as well. *)
Lemma total_score_empty_graph :
  no_dangling []
  ∧ (∃ pr, outcome (compute_pagerank_inbound [] default_damping 100 default_tol) = inr pr
           ∧ ¬ (Qcabs (py_sum (snd <$> map_to_list pr) - 1) < Q2Qc (1 # 2))%Qc)
  ∧ Float.outcome
      (Float.compute_pagerank_inbound Float.binary64 [] [] damping_f64 100 default_tol_f64)
    = inr ∅.
Proof.
  split; [by vm_compute|]. split; [|by vm_compute].
  exists ∅. split; [by vm_compute|]. vm_compute. discriminate.
Qed.

(** C5, as the code has it. On the empty row list the program raises
    nothing and returns the empty map; the loop is still entered: when
    [0 < max_iter] and [0 < tol] its first pass measures a variation of 0
    and announces convergence at iteration 1. *)
Theorem empty_edge_list d max_iter tol :
  outcome (compute_pagerank_inbound [] d max_iter tol) = inr ∅
  ∧ stdout (compute_pagerank_inbound [] d max_iter tol)
    = prelude [] d
      ++ (if decide (0 < max_iter ∧ (0 < tol)%Qc) then [MsgConverged 1 0%Qc] else []).
Proof.
  destruct (decide (0 < max_iter ∧ (0 < tol)%Qc)) as [[HK Htol]|Hno].
  - rewrite (compute_pagerank_inbound_converges [] d max_iter tol 0).
    + unfold outcome, stdout. cbn [fst snd].
      by rewrite pagerank_after_nil, diff_after_nil.
    + lia.
    + intros j Hj. lia.
    + by rewrite diff_after_nil.
  - destruct (decide (0 < max_iter)) as [HK|HK].
    + rewrite (compute_pagerank_inbound_exhausts [] d max_iter tol).
      * unfold outcome, stdout. cbn [fst snd].
        by rewrite pagerank_after_nil, app_nil_r.
      * intros j _. rewrite diff_after_nil. tauto.
    + rewrite (compute_pagerank_inbound_exhausts [] d max_iter tol).
      * unfold outcome, stdout. cbn [fst snd].
        by rewrite pagerank_after_nil, app_nil_r.
      * intros j Hj. lia.
Qed.

(** C5 as stated fails: with the default configuration the loop runs one
    pass on the empty map and prints the convergence line of iteration 1. *)
Lemma empty_edge_list_runs_a_pass :
  stdout (compute_pagerank_inbound [] default_damping 100 default_tol)
  = [MsgReading; MsgNodeSet; MsgNodeCount 0; MsgIndex; MsgInit;
     MsgIterations default_damping; MsgConverged 1 0%Qc]
  ∧ reported_convergence
      (compute_pagerank_inbound [] default_damping 100 default_tol) = true.
Proof. split; vm_compute; reflexivity. Qed.

(** C6, as the code has it. The program validates nothing: under every
    configuration, invalid ones included, it raises no exception and returns
    a map with one score per node. *)
Theorem no_configuration_check df_edges d max_iter tol :
  ∃ pr, outcome (compute_pagerank_inbound df_edges d max_iter tol) = inr pr
        ∧ dom pr = all_nodes_of df_edges.
Proof.
  destruct (compute_pagerank_inbound_total df_edges d max_iter tol) as (j & Hj & _).
  eexists. split; [exact Hj|]. apply dom_pagerank_after.
Qed.

(** C6 as stated fails: a damping factor of 2 is accepted, and one pass
    produces the scores -1/2 and 1/2. *)
Lemma invalid_damping_accepted :
  invalid_config (Q2Qc 2) 1 default_tol
  ∧ outcome_view (compute_pagerank_inbound example_sink (Q2Qc 2) 1 default_tol)
    = inr [(2, (1 # 2)%Q); (1, (-1 # 2)%Q)].
Proof.
  split.
  - right. left. by vm_compute.
  - vm_compute. reflexivity.
Qed.

(** C7. For a damping factor in [0,1] every score is at least 0 in every
    map of the run: in the map of pass [j] for every [j] (the uniform start
    for [j = 0]), which is what the program returns for [max_iter = j] and
    [tol = 0], and in the map the program returns under any budget of passes
    and any tolerance. *)
Theorem scores_stay_nonneg df_edges d :
  (0 ≤ d ≤ 1)%Qc →
  (∀ j : nat,
     outcome (compute_pagerank_inbound df_edges d (Z.of_nat j) 0%Qc)
     = inr (pagerank_after df_edges d j)
     ∧ ∀ v x, pagerank_after df_edges d j !! v = Some x → (0 ≤ x)%Qc)
  ∧ (∀ max_iter tol,
       ∃ pr, outcome (compute_pagerank_inbound df_edges d max_iter tol) = inr pr
             ∧ ∀ v x, pr !! v = Some x → (0 ≤ x)%Qc).
Proof.
  intros Hd. split.
  - intros j. split; [by rewrite compute_pagerank_inbound_tol_0|].
    by apply pagerank_after_nonneg.
  - intros max_iter tol.
    destruct (compute_pagerank_inbound_total df_edges d max_iter tol) as (j & Hj & _).
    eexists. split; [exact Hj|]. by apply pagerank_after_nonneg.
Qed.

Lemma scores_stay_nonneg_witness :
  (outcome (compute_pagerank_inbound example_sink default_damping (Z.of_nat 2) 0%Qc)
   = inr (pagerank_after example_sink default_damping 2)
   ∧ ∀ v x, pagerank_after example_sink default_damping 2 !! v = Some x → (0 ≤ x)%Qc)
  ∧ ∃ pr, outcome (compute_pagerank_inbound example_sink default_damping 100 default_tol)
          = inr pr
          ∧ ∀ v x, pr !! v = Some x → (0 ≤ x)%Qc.
Proof.
  split.
  - apply (proj1 (scores_stay_nonneg example_sink default_damping
                    ltac:(split; vm_compute; discriminate)) 2%nat).
  - apply (proj2 (scores_stay_nonneg example_sink default_damping
                    ltac:(split; vm_compute; discriminate)) 100 default_tol).
Defined.

Section converged.
Variable df_edges : list (Z * Z).
Variables d tol : Qc.

Lemma iterate_converged_inv its pr :
  dom pr = all_nodes_of df_edges →
  reported_convergence
    (iterate (all_nodes_of df_edges) (elements (all_nodes_of df_edges))
       (inbound_links_of df_edges) (outdegree_of df_edges) d tol its pr) = true →
  ∃ prev,
    dom prev = all_nodes_of df_edges
    ∧ outcome (iterate (all_nodes_of df_edges) (elements (all_nodes_of df_edges))
                 (inbound_links_of df_edges) (outdegree_of df_edges) d tol its pr)
      = inr (update_spec (all_nodes_of df_edges) (inbound_links_of df_edges)
               (outdegree_of df_edges) d prev)
    ∧ (l1_diff (all_nodes_of df_edges)
         (update_spec (all_nodes_of df_edges) (inbound_links_of df_edges)
            (outdegree_of df_edges) d prev) prev < tol)%Qc.
Proof.
  revert pr. induction its as [|it its IH]; intros pr Hdom; [done|].
  rewrite (iterate_step _ _ _ _ d tol (build_index_wf df_edges) (reflexivity _)) by done.
  case_decide as Hlt.
  - intros _. by exists pr.
  - apply IH. by apply dom_update_spec.
Qed.
End converged.

(** In exact arithmetic, on the first embedding: for a damping factor in
    [0,1], if the program stopped on the convergence test, one more pass
    of the loop on the map it returned builds the map of the update formula
    and measures its L1 distance to the returned map, and that distance is
    again strictly below the tolerance. *)
Lemma exact_converged_map_is_stable df_edges d max_iter tol :
  (0 ≤ d ≤ 1)%Qc →
  reported_convergence (compute_pagerank_inbound df_edges d max_iter tol) = true →
  ∃ pr new_pagerank diff,
    outcome (compute_pagerank_inbound df_edges d max_iter tol) = inr pr
    ∧ update_pass (all_nodes_of df_edges) (elements (all_nodes_of df_edges))
        (inbound_links_of df_edges) (outdegree_of df_edges) d pr
      = mret (new_pagerank, diff)
    ∧ (∀ v, v ∈ all_nodes_of df_edges →
         new_pagerank !! v
         = Some (new_score (all_nodes_of df_edges) (inbound_links_of df_edges)
                   (outdegree_of df_edges) d pr v))
    ∧ diff = Qcsum ((λ v, Qcabs (score new_pagerank v - score pr v))
                    <$> elements (all_nodes_of df_edges))
    ∧ (diff < tol)%Qc.
Proof.
  intros Hd. rewrite compute_pagerank_inbound_unfold.
  unfold reported_convergence at 1. unfold stdout at 1. cbn [fst].
  rewrite existsb_app. cbn [prelude existsb is_convergence_line orb].
  intros Hconv.
  destruct (iterate_converged_inv df_edges d tol (seqZ 0 max_iter)
              (uniform_spec (all_nodes_of df_edges)) (dom_uniform_spec _) Hconv)
    as (prev & Hdom & Hout & Hlt).
  eexists _, _, _. split; [|split; [|split; [|split]]].
  - unfold outcome at 1. exact Hout.
  - apply update_pass_spec; [apply build_index_wf|done|apply dom_update_spec].
  - intros v Hv. by rewrite lookup_update_spec, decide_True.
  - done.
  - eapply Qcle_lt_trans; [|exact Hlt]. by apply update_spec_nonexpansive.
Qed.

(** C8, up to rounding. Take a damping factor in [0,1] and let every float
    operation return its exact result with a relative error of at most
    [u], as binary64 does with [u] = 2^-53. If the program stopped on the
    convergence test, one more pass of the loop on the map it returned
    raises nothing, stores at every node the score that the operations
    of the update give, and measures a variation [diff] that is the L1
    distance between the new map and the returned one up to the roundings
    of the sum, and that exceeds the tolerance by no more than the
    roundings of the two passes allow:
    (1-u)^(n+1) diff < (1+u)^(n+1) (tol + ((1+u)^r - 1) 2 (1+u)^(max_iter r + 1))
    for [n] nodes and [r = pass_roundings]. In exact arithmetic ([u] = 0)
    the variation is again strictly below the tolerance. *)
Theorem converged_map_is_stable df_edges u rnd node_order d max_iter tol :
  (0 ≤ u ≤ 1)%Qc → rounds_within u rnd →
  node_order ≡ₚ elements (all_nodes_of df_edges) →
  (0 ≤ d ≤ 1)%Qc →
  Float.reported_convergence
    (Float.compute_pagerank_inbound (Float.rounded rnd) node_order df_edges d max_iter tol)
  = true →
  ∃ pr new_pagerank diff,
    Float.outcome
      (Float.compute_pagerank_inbound (Float.rounded rnd) node_order df_edges d max_iter tol)
    = inr pr
    ∧ Float.update_pass (Float.rounded rnd) (all_nodes_of df_edges) node_order
        (inbound_links_of df_edges) (outdegree_of df_edges) d pr
      = Float.ret (new_pagerank, diff)
    ∧ (∀ v, v ∈ all_nodes_of df_edges →
         new_pagerank !! v
         = Some (Float.new_score_of (Float.rounded rnd) (all_nodes_of df_edges) node_order
                   (inbound_links_of df_edges) (outdegree_of df_edges) d pr v))
    ∧ within u (1 + size (all_nodes_of df_edges)) diff
        (l1_diff (all_nodes_of df_edges) new_pagerank pr)
    ∧ ((1 - u) ^ (1 + size (all_nodes_of df_edges)) * diff
       < (1 + u) ^ (1 + size (all_nodes_of df_edges))
         * (tol + ((1 + u) ^ pass_roundings df_edges - 1)
                  * (2 * (1 + u) ^ (Z.to_nat max_iter * pass_roundings df_edges + 1))))%Qc
    ∧ (u = 0%Qc → (diff < tol)%Qc).
Proof.
  intros Hu Hrnd Horder Hd. rewrite float_reported_convergence by done. intros Hconv.
  destruct (float_iterate_converged (Float.rounded rnd) df_edges node_order d tol Horder
              (λ k pr, nonneg_scores pr
                       ∧ (sum_pr_spec (all_nodes_of df_edges) pr
                          ≤ (1 + u) ^ (k * pass_roundings df_edges + 1))%Qc)
              (seqZ 0 max_iter)
              (Float.uniform_of (Float.rounded rnd) (all_nodes_of df_edges) node_order))
    as (k & prev & Hk & Hdom & [Hpr Hsum] & Hout & Hlt).
  { by apply float_dom_uniform_of. }
  { split; [by apply (rounded_uniform_nonneg u)|].
    by apply (rounded_sum_uniform_le u rnd Hu Hrnd). }
  { intros j pr' Hdom' [Hpr' Hsum']. split.
    - by apply (rounded_update_nonneg u).
    - by apply (rounded_sum_update_le u rnd Hu Hrnd). }
  { done. }
  rewrite length_seqZ in Hk.
  set (upd := Float.update_of (Float.rounded rnd) (all_nodes_of df_edges) node_order
                (inbound_links_of df_edges) (outdegree_of df_edges) d) in *.
  assert (dom (upd prev) = all_nodes_of df_edges) as Hdom' by by apply float_dom_update_of.
  assert (nonneg_scores (upd prev)) as Hpr' by by apply (rounded_update_nonneg u).
  pose proof (rounded_sum_update_le u rnd Hu Hrnd df_edges node_order d Hd Horder
                k prev Hdom Hpr Hsum) as Hsum'.
  fold upd in Hsum'.
  apply bool_decide_eq_true in Hlt.
  pose proof (rounded_next_diff u rnd Hu Hrnd df_edges node_order d Hd Horder prev Hdom Hpr)
    as Hnext.
  cbv zeta in Hnext. fold upd in Hnext.
  assert ((1 - u) ^ (1 + size (all_nodes_of df_edges))
          * Float.diff_of (Float.rounded rnd) node_order (upd (upd prev)) (upd prev)
          < (1 + u) ^ (1 + size (all_nodes_of df_edges))
            * (tol + ((1 + u) ^ pass_roundings df_edges - 1)
                     * (2 * (1 + u) ^ (Z.to_nat max_iter * pass_roundings df_edges + 1))))%Qc
    as Hbound.
  { pose proof (high_pow_mono u Hu (k * pass_roundings df_edges + 1)
                  (Z.to_nat max_iter * pass_roundings df_edges + 1) ltac:(nia)) as Hm1.
    pose proof (high_pow_mono u Hu (S k * pass_roundings df_edges + 1)
                  (Z.to_nat max_iter * pass_roundings df_edges + 1) ltac:(nia)) as Hm2.
    pose proof (high_pow_bound u Hu (1 + size (all_nodes_of df_edges))) as HB.
    pose proof (high_pow_bound u Hu (pass_roundings df_edges)) as HC.
    eapply Qcle_lt_trans; [exact Hnext|].
    set (B := ((1 + u) ^ (1 + size (all_nodes_of df_edges)))%Qc) in *.
    set (C := ((1 + u) ^ pass_roundings df_edges)%Qc) in *.
    set (T := ((1 + u) ^ (Z.to_nat max_iter * pass_roundings df_edges + 1))%Qc) in *.
    set (D1 := Float.diff_of _ _ (upd prev) prev) in *.
    set (S1 := sum_pr_spec _ prev) in *.
    set (S2 := sum_pr_spec _ (upd prev)) in *.
    change 2%Qc with (1 + 1)%Qc.
    clear Hnext. qc2q.
    assert ((this C - 1) * (this S2 + this S1) <= (this C - 1) * ((1 + 1) * this T))%Q by nra.
    nra. }
  exists (upd prev), (upd (upd prev)),
    (Float.diff_of (Float.rounded rnd) node_order (upd (upd prev)) (upd prev)).
  split; [|split; [|split; [|split; [|split]]]].
  - rewrite float_compute_unfold by done. unfold Float.outcome at 1. exact Hout.
  - by apply float_update_pass; [apply build_index_wf|..].
  - intros v Hv. unfold upd at 1.
    by rewrite (float_lookup_update_of _ _ _ _ _ _ Horder), decide_True.
  - by apply rounded_diff_within.
  - exact Hbound.
  - intros ->. revert Hbound.
    replace (1 - 0)%Qc with 1%Qc by ring. replace (1 + 0)%Qc with 1%Qc by ring.
    rewrite !Qcpower_1, !Qcmult_1_l.
    replace (tol + (1 - 1) * (2 * 1))%Qc with tol by ring. done.
Qed.

Lemma converged_map_is_stable_witness :
  ∃ pr new_pagerank diff,
    Float.outcome
      (Float.compute_pagerank_inbound (Float.rounded (round_nearest 53)) ascending_4
         star_to_4 (Qc_of_float damping_f64) 100 (Qc_of_float tiny_tol_f64))
    = inr pr
    ∧ Float.update_pass (Float.rounded (round_nearest 53)) (all_nodes_of star_to_4)
        ascending_4 (inbound_links_of star_to_4) (outdegree_of star_to_4)
        (Qc_of_float damping_f64) pr
      = Float.ret (new_pagerank, diff)
    ∧ (∀ v, v ∈ all_nodes_of star_to_4 →
         new_pagerank !! v
         = Some (Float.new_score_of (Float.rounded (round_nearest 53))
                   (all_nodes_of star_to_4) ascending_4 (inbound_links_of star_to_4)
                   (outdegree_of star_to_4) (Qc_of_float damping_f64) pr v))
    ∧ within (unit_roundoff 53) (1 + size (all_nodes_of star_to_4)) diff
        (l1_diff (all_nodes_of star_to_4) new_pagerank pr)
    ∧ ((1 - unit_roundoff 53) ^ (1 + size (all_nodes_of star_to_4)) * diff
       < (1 + unit_roundoff 53) ^ (1 + size (all_nodes_of star_to_4))
         * (Qc_of_float tiny_tol_f64
            + ((1 + unit_roundoff 53) ^ pass_roundings star_to_4 - 1)
              * (2 * (1 + unit_roundoff 53)
                       ^ (Z.to_nat 100 * pass_roundings star_to_4 + 1))))%Qc
    ∧ (unit_roundoff 53 = 0%Qc → (diff < Qc_of_float tiny_tol_f64)%Qc).
Proof.
  apply (converged_map_is_stable star_to_4 (unit_roundoff 53) (round_nearest 53)
           ascending_4 (Qc_of_float damping_f64) 100 (Qc_of_float tiny_tol_f64)).
  - split; vm_compute; discriminate.
  - apply round_nearest_rounds_within.
  - apply (bool_decide_unpack _). vm_compute. reflexivity.
  - split; vm_compute; discriminate.
  - vm_compute. reflexivity.
Defined.

(** C8 as stated fails on the binary64 floats of the program. On the rows
    (2,4), (3,4), (4,4), (1,4), with damping 0.85, 100 passes at most and the
    tolerance 1e-16, the run stops at iteration 3, where it measures
    2.0816681711721685e-17; one more pass on the returned map measures
    1.1102230246251565e-16, which is not below the tolerance. *)
Lemma converged_map_not_stable_binary64 :
  Float.stdout (Float.compute_pagerank_inbound Float.binary64 ascending_4 star_to_4
                  damping_f64 100 tiny_tol_f64)
  = [Float.MsgReading; Float.MsgNodeSet; Float.MsgNodeCount 4; Float.MsgIndex;
     Float.MsgInit; Float.MsgIterations damping_f64;
     Float.MsgConverged 3 0x1.8p-56%float]
  ∧ Float.next_diff Float.binary64 ascending_4 star_to_4 damping_f64
      (Float.compute_pagerank_inbound Float.binary64 ascending_4 star_to_4
         damping_f64 100 tiny_tol_f64)
    = Some 0x1p-53%float
  ∧ PrimFloat.ltb 0x1.8p-56%float tiny_tol_f64 = true
  ∧ PrimFloat.ltb 0x1p-53%float tiny_tol_f64 = false.
Proof. repeat split; vm_compute; reflexivity. Qed.

(** On these inputs the rounded rationals, with rounding to nearest on 53
    bits, print and return exactly what the binary64 floats do. *)
Lemma rounded_run_is_binary64_run_example_graph :
  Float.view this
    (Float.compute_pagerank_inbound (Float.rounded (round_nearest 53)) ascending_3
       example_graph (Qc_of_float damping_f64) 3 0%Qc)
  = Float.view Q_of_float
      (Float.compute_pagerank_inbound Float.binary64 ascending_3 example_graph
         damping_f64 3 0%float).
Proof. vm_compute. reflexivity. Qed.

Lemma rounded_run_is_binary64_run_star :
  Float.view this
    (Float.compute_pagerank_inbound (Float.rounded (round_nearest 53)) ascending_4
       star_to_4 (Qc_of_float damping_f64) 100 (Qc_of_float tiny_tol_f64))
  = Float.view Q_of_float
      (Float.compute_pagerank_inbound Float.binary64 ascending_4 star_to_4
         damping_f64 100 tiny_tol_f64).
Proof. vm_compute. reflexivity. Qed.

Section order.
Variable df_edges : list (Z * Z).
Variable node_order : list Z.
Variables (d tol : Qc).
Hypothesis Horder : node_order ≡ₚ elements (all_nodes_of df_edges).

Lemma iterate_order_irrelevant its pr :
  dom pr = all_nodes_of df_edges →
  iterate (all_nodes_of df_edges) node_order (inbound_links_of df_edges)
    (outdegree_of df_edges) d tol its pr
  = iterate (all_nodes_of df_edges) (elements (all_nodes_of df_edges))
      (inbound_links_of df_edges) (outdegree_of df_edges) d tol its pr.
Proof.
  revert pr. induction its as [|it its IH]; intros pr Hdom; [done|].
  rewrite (iterate_step _ node_order _ _ d tol (build_index_wf df_edges) Horder) by done.
  rewrite (iterate_step _ (elements _) _ _ d tol (build_index_wf df_edges) (reflexivity _))
    by done.
  case_decide; [done|]. apply IH. by apply dom_update_spec.
Qed.

Lemma compute_pagerank_inbound_in_order max_iter :
  compute_pagerank_inbound_in node_order df_edges d max_iter tol
  = compute_pagerank_inbound df_edges d max_iter tol.
Proof.
  rewrite compute_pagerank_inbound_unfold, compute_pagerank_inbound_in_unfold by done.
  by rewrite iterate_order_irrelevant by apply dom_uniform_spec.
Qed.
End order.

(** In exact arithmetic the order in which a run enumerates the node set
    does not matter: two runs on the same rows with the same configuration
    print the same lines and return the same score map. *)
Theorem runs_agree df_edges d max_iter tol (order1 order2 : list Z) :
  order1 ≡ₚ elements (all_nodes_of df_edges) →
  order2 ≡ₚ elements (all_nodes_of df_edges) →
  compute_pagerank_inbound_in order1 df_edges d max_iter tol
  = compute_pagerank_inbound_in order2 df_edges d max_iter tol.
Proof.
  intros H1 H2. by rewrite !compute_pagerank_inbound_in_order.
Qed.

Lemma runs_agree_witness :
  compute_pagerank_inbound_in [1; 2; 3] example_graph default_damping 5 default_tol
  = compute_pagerank_inbound_in [3; 1; 2] example_graph default_damping 5 default_tol.
Proof.
  apply (runs_agree example_graph default_damping 5 default_tol [1; 2; 3] [3; 1; 2]).
  - apply (bool_decide_unpack _). vm_compute. reflexivity.
  - apply (bool_decide_unpack _). vm_compute. reflexivity.
Defined.

(** On binary64 floats the enumeration order matters: on the rows (2,3),
    (3,3), (3,1), with damping 0.85 and two passes, node 1 scores
    0.23770833333333333 when the nodes are enumerated as 1, 2, 3 and
    0.23770833333333335 when they are enumerated as 3, 2, 1. *)
Lemma enumeration_order_matters_binary64 :
  ∃ x y,
    Float.final_score
      (Float.compute_pagerank_inbound Float.binary64 ascending_3 small_graph
         damping_f64 2 0%float) 1 = Some x
    ∧ Float.final_score
        (Float.compute_pagerank_inbound Float.binary64 descending_3 small_graph
           damping_f64 2 0%float) 1 = Some y
    ∧ PrimFloat.ltb x y = true.
Proof. eexists _, _. repeat split; vm_compute; reflexivity. Qed.

(** ** The main program *)

Lemma outcome_bind {A B} (m : M A) (f : A → M B) :
  outcome (m ≫= f)
  = match outcome m with inl e => inl e | inr a => outcome (f a) end.
Proof.
  destruct m as [out [e|a]]; [done|].
  unfold outcome, mbind, M_bind. cbn [snd]. by destruct (f a).
Qed.

Lemma for_each_raises {A S} (xs : list A) (body : S → A → M S) (e : exn) s x :
  (∀ s' y e', y ∈ xs → outcome (body s' y) = inl e' → e' = e) →
  x ∈ xs → (∀ s', outcome (body s' x) = inl e) →
  outcome (for_each xs body s) = inl e.
Proof.
  intros Honly Hx Hraise. revert s.
  induction xs as [|y xs IH]; intros s; [by apply not_elem_of_nil in Hx|].
  cbn [for_each]. rewrite outcome_bind.
  destruct (outcome (body s y)) as [e'|s'] eqn:Hy.
  - f_equal. apply (Honly s y); [left|done].
  - apply elem_of_cons in Hx as [->|Hx].
    + rewrite Hraise in Hy. done.
    + apply IH; [|done]. intros s'' z e' Hz. apply Honly. by right.
Qed.

Lemma py_list_getitem_exn {A} (l : list A) i e :
  outcome (py_list_getitem l i) = inl e → e = IndexError.
Proof.
  unfold py_list_getitem. cbv zeta. repeat case_decide; try by intros [= <-].
  all: destruct (l !! _); by intros [= <-] || done.
Qed.

Lemma py_list_getitem_length {A} (l : list A) :
  outcome (py_list_getitem l (Z.of_nat (length l))) = inl IndexError.
Proof.
  unfold py_list_getitem. cbv zeta.
  destruct (decide (Z.of_nat (length l) < 0)) as [?|_]; [lia|].
  by rewrite decide_False by lia.
Qed.

Lemma stdout_bind {A B} (m : M A) (f : A → M B) :
  stdout (m ≫= f)
  = match outcome m with
    | inl _ => stdout m
    | inr a => stdout m ++ stdout (f a)
    end.
Proof.
  destruct m as [out [e|a]]; [done|].
  unfold stdout, outcome, mbind, M_bind. cbn [fst snd]. by destruct (f a).
Qed.

Lemma display_line_exn (sorted_pr : list (Z * Qc)) (node_names : list string) i e :
  outcome ('(node_id, score) ← py_list_getitem sorted_pr i;
           if decide (node_id < Z.of_nat (length node_names)) then
             name ← py_list_getitem node_names node_id;
             print (MsgRankNamed (i + 1) node_id name score)
           else print (MsgRank (i + 1) node_id score)) = inl e →
  e = IndexError.
Proof.
  rewrite outcome_bind.
  destruct (outcome (py_list_getitem sorted_pr i)) as [e'|[node_id score]] eqn:Hget.
  - intros [= <-]. by apply py_list_getitem_exn in Hget.
  - case_decide; [|done]. rewrite outcome_bind.
    destruct (outcome (py_list_getitem node_names node_id)) as [e'|name] eqn:Hname; [|done].
    intros [= <-]. by apply py_list_getitem_exn in Hname.
Qed.

(** C10. The display loop reads positions 0 to 19 of the sorted list
    whatever its length: on a graph with fewer than 20 nodes the program
    ends with an [IndexError], after the header of the listing. *)
Theorem top20_needs_20_nodes df_edges names_csv :
  (size (all_nodes_of df_edges) < 20)%nat →
  outcome (main df_edges names_csv) = inl IndexError
  ∧ MsgTop20 ∈ stdout (main df_edges names_csv).
Proof.
  intros Hsize. unfold main.
  destruct (compute_pagerank_inbound_total df_edges (Q2Qc (85 # 100)) 100
              (Q2Qc (1 # 100000000))) as (j & Hj & _).
  rewrite outcome_bind, stdout_bind, Hj. cbv zeta.
  set (sorted_pr := merge_sort by_score_desc (map_to_list (pagerank_after df_edges _ j))).
  assert (length sorted_pr = size (all_nodes_of df_edges)) as Hlen.
  { unfold sorted_pr. rewrite merge_sort_Permutation, length_map_to_list.
    by rewrite <-(size_dom (D:=gset Z)), dom_pagerank_after. }
  split.
  - rewrite outcome_bind. cbn [print outcome snd].
    apply (for_each_raises _ _ _ _ (Z.of_nat (length sorted_pr))).
    + intros [] i e _. apply display_line_exn.
    + apply elem_of_seqZ. lia.
    + intros []. rewrite outcome_bind, py_list_getitem_length. done.
  - apply elem_of_app. right. rewrite stdout_bind. cbn [print outcome stdout fst snd].
    left.
Qed.

Lemma top20_needs_20_nodes_witness :
  outcome (main example_graph (Some ["a"; "b"]%string)) = inl IndexError
  ∧ MsgTop20 ∈ stdout (main example_graph (Some ["a"; "b"]%string)).
Proof.
  apply (top20_needs_20_nodes example_graph (Some ["a"; "b"]%string)).
  vm_compute. lia.
Defined.

(** ** Further properties of the graph index *)

Lemma dom_build_index df_edges :
  dom (inbound_links_of df_edges) = list_to_set (df_edges.*2)
  ∧ dom (outdegree_of df_edges) = list_to_set (df_edges.*1).
Proof.
  induction df_edges as [|[src tgt] df_edges [IH1 IH2]] using rev_ind.
  - split; apply dom_empty_L.
  - unfold inbound_links_of, outdegree_of in *. rewrite build_index_snoc.
    destruct (build_index df_edges) as [inb outd]. simpl in *.
    rewrite !dom_insert_L, IH1, IH2, !fmap_app, !list_to_set_app_L. simpl.
    split; set_solver.
Qed.

(** X1. After the loop over the rows, [outdegree[u]] is the number of rows
    whose source is [u] (a row repeated counts each time), and the keys of
    [outdegree] are exactly the sources. *)
Theorem outdegree_counts_rows df_edges u :
  dd_getitem 0 (outdegree_of df_edges) u
  = Z.of_nat (length (filter (λ e, e.1 = u) df_edges))
  ∧ (u ∈ dom (outdegree_of df_edges) ↔ u ∈ df_edges.*1).
Proof.
  split; [apply outdegree_lookup|].
  by rewrite (proj2 (dom_build_index df_edges)), elem_of_list_to_set.
Qed.

(** X2. After the loop over the rows, [inbound_links[v]] lists the sources
    of the rows that point to [v], in row order and with repetitions, and
    the keys of [inbound_links] are exactly the targets. *)
Theorem inbound_links_lists_sources df_edges v :
  dd_getitem [] (inbound_links_of df_edges) v = (filter (λ e, e.2 = v) df_edges).*1
  ∧ (v ∈ dom (inbound_links_of df_edges) ↔ v ∈ df_edges.*2).
Proof.
  split; [apply inbound_links_lookup|].
  by rewrite (proj1 (dom_build_index df_edges)), elem_of_list_to_set.
Qed.

(** X3. The keys of both dictionaries are nodes, and every node is a key of
    at least one of them. *)
Theorem index_keys_cover_nodes df_edges :
  dom (inbound_links_of df_edges) ∪ dom (outdegree_of df_edges) = all_nodes_of df_edges.
Proof.
  destruct (dom_build_index df_edges) as [-> ->]. unfold all_nodes_of. set_solver.
Qed.

(** ** Further properties of the loop *)

(** X4. With a budget of passes that is zero or negative the loop body
    never runs: the program prints nothing after its six opening lines and
    returns the uniform map, whose score is [1/n] at every node. *)
Theorem no_budget_returns_uniform df_edges d max_iter tol :
  max_iter ≤ 0 →
  compute_pagerank_inbound df_edges d max_iter tol
  = (prelude df_edges d, inr (uniform_spec (all_nodes_of df_edges)))
  ∧ dom (uniform_spec (all_nodes_of df_edges)) = all_nodes_of df_edges
  ∧ ∀ v, v ∈ all_nodes_of df_edges →
         uniform_spec (all_nodes_of df_edges) !! v
         = Some (1 / Qc_of_Z (n (all_nodes_of df_edges)))%Qc.
Proof.
  intros HK. split; [|split].
  - rewrite compute_pagerank_inbound_exhausts by (intros; lia).
    by replace (Z.to_nat max_iter) with 0%nat by lia.
  - apply dom_uniform_spec.
  - intros v Hv. by rewrite lookup_uniform_spec, decide_True.
Qed.

Lemma no_budget_returns_uniform_witness :
  compute_pagerank_inbound example_graph default_damping (-3) default_tol
  = (prelude example_graph default_damping, inr (uniform_spec (all_nodes_of example_graph)))
  ∧ dom (uniform_spec (all_nodes_of example_graph)) = all_nodes_of example_graph
  ∧ ∀ v, v ∈ all_nodes_of example_graph →
         uniform_spec (all_nodes_of example_graph) !! v
         = Some (1 / Qc_of_Z (n (all_nodes_of example_graph)))%Qc.
Proof.
  apply (no_budget_returns_uniform example_graph default_damping (-3) default_tol). lia.
Defined.

Section stdout_shape.
Variable df_edges : list (Z * Z).
Variables d tol : Qc.

Lemma iterate_stdout its pr :
  dom pr = all_nodes_of df_edges →
  stdout (iterate (all_nodes_of df_edges) (elements (all_nodes_of df_edges))
            (inbound_links_of df_edges) (outdegree_of df_edges) d tol its pr) = []
  ∨ ∃ (k : nat) it,
      its !! k = Some it
      ∧ (diff_seq (all_nodes_of df_edges) (inbound_links_of df_edges)
           (outdegree_of df_edges) d k pr < tol)%Qc
      ∧ iterate (all_nodes_of df_edges) (elements (all_nodes_of df_edges))
          (inbound_links_of df_edges) (outdegree_of df_edges) d tol its pr
        = ([MsgConverged (it + 1)
              (diff_seq (all_nodes_of df_edges) (inbound_links_of df_edges)
                 (outdegree_of df_edges) d k pr)],
           inr (pr_seq (all_nodes_of df_edges) (inbound_links_of df_edges)
                  (outdegree_of df_edges) d (S k) pr)).
Proof.
  revert pr. induction its as [|it its IH]; intros pr Hdom; [by left|].
  rewrite (iterate_step _ _ _ _ d tol (build_index_wf df_edges) (reflexivity _)) by done.
  case_decide as Hlt.
  - right. by exists 0%nat, it.
  - destruct (IH (update_spec (all_nodes_of df_edges) (inbound_links_of df_edges)
                    (outdegree_of df_edges) d pr)) as [Hnil|(k & it' & Hk & Hlt' & Heq)].
    + by apply dom_update_spec.
    + by left.
    + right. exists (S k), it'.
      rewrite diff_seq_shift, pr_seq_shift. by rewrite Heq.
Qed.
End stdout_shape.

(** X5. After its six opening lines the program prints at most one more
    line, the convergence line. The iteration it announces lies between 1
    and [max_iter], the variation it shows is the one measured by that pass,
    at least 0 and strictly below the tolerance, and the map returned is the
    one built by that pass. *)
Theorem convergence_line_is_last df_edges d max_iter tol :
  stdout (compute_pagerank_inbound df_edges d max_iter tol) = prelude df_edges d
  ∨ ∃ k : nat,
      1 ≤ Z.of_nat k + 1 ≤ max_iter
      ∧ (0 ≤ diff_after df_edges d k < tol)%Qc
      ∧ compute_pagerank_inbound df_edges d max_iter tol
        = (prelude df_edges d ++ [MsgConverged (Z.of_nat k + 1) (diff_after df_edges d k)],
           inr (pagerank_after df_edges d (S k))).
Proof.
  rewrite compute_pagerank_inbound_unfold.
  destruct (iterate_stdout df_edges d tol (seqZ 0 max_iter)
              (uniform_spec (all_nodes_of df_edges)) (dom_uniform_spec _))
    as [Hnil|(k & it & Hk & Hlt & Heq)].
  - left. unfold stdout at 1. cbn [fst]. by rewrite Hnil, app_nil_r.
  - right. exists k. apply lookup_seqZ in Hk as [-> Hk].
    split; [lia|]. split; [split; [apply l1_diff_nonneg|done]|].
    rewrite Heq. unfold stdout, outcome. cbn [fst snd].
    by rewrite Z.add_0_l.
Qed.

(** ** The total score on floats, whatever the graph *)

Lemma Qcsum_split_dangling df_edges (w : Z → Qc) (vs : list Z) :
  Qcsum (w <$> vs)
  = (Qcsum ((λ u, if decide (dd_getitem 0%Z (outdegree_of df_edges) u = 0%Z)
                  then 0 else w u) <$> vs)
     + Qcsum ((λ u, if decide (dd_getitem 0%Z (outdegree_of df_edges) u = 0%Z)
                    then w u else 0) <$> vs))%Qc.
Proof.
  rewrite <-Qcsum_plus. apply Qcsum_ext. intros u _. case_decide; ring.
Qed.

Lemma score_le_sum (node_set : gset Z) pr v :
  nonneg_scores pr → v ∈ node_set → (score pr v ≤ sum_pr_spec node_set pr)%Qc.
Proof.
  intros Hpr Hv%elem_of_elements. unfold sum_pr_spec.
  induction (elements node_set) as [|w ws IH]; [by apply not_elem_of_nil in Hv|].
  csimpl. apply elem_of_cons in Hv as [->|Hv].
  - rewrite <-(Qcplus_0_r (score pr w)) at 1.
    apply Qcplus_le_compat; [done|].
    apply Qcsum_nonneg. intros; by apply nonneg_scores_score.
  - rewrite <-(Qcplus_0_l (score pr v)).
    apply Qcplus_le_compat; [by apply nonneg_scores_score|by apply IH].
Qed.

(** X6. One pass changes the total only by the share [d] of the score
    that sat on the nodes without outbound rows, and by rounding. Take
    a damping factor in [0,1], a previous map whose keys are the nodes and
    whose scores are not negative, and let every float operation return
    its exact result with a relative error of at most [u]. Then the pass
    raises nothing, and the total of the new map is [t], the previous
    total minus [d] times the total over those nodes, after at most
    [pass_roundings] roundings: (1-u)^r t <= total <= (1+u)^r t. *)
Theorem pass_leaks_dangling_score df_edges u rnd node_order d pr :
  (0 ≤ u ≤ 1)%Qc → rounds_within u rnd →
  node_order ≡ₚ elements (all_nodes_of df_edges) →
  (0 ≤ d ≤ 1)%Qc →
  dom pr = all_nodes_of df_edges → nonneg_scores pr →
  ∃ new_pagerank diff,
    Float.update_pass (Float.rounded rnd) (all_nodes_of df_edges) node_order
      (inbound_links_of df_edges) (outdegree_of df_edges) d pr
    = Float.ret (new_pagerank, diff)
    ∧ within u (pass_roundings df_edges)
        (sum_pr_spec (all_nodes_of df_edges) new_pagerank)
        (sum_pr_spec (all_nodes_of df_edges) pr
         - d * Qcsum ((λ w, if decide (dd_getitem 0%Z (outdegree_of df_edges) w = 0%Z)
                            then score pr w else 0)
                      <$> elements (all_nodes_of df_edges)))%Qc.
Proof.
  intros Hu Hrnd Horder Hd Hdom Hpr. eexists _, _. split.
  - by apply float_update_pass; [apply build_index_wf|..].
  - replace (sum_pr_spec (all_nodes_of df_edges) pr
             - d * Qcsum ((λ w, if decide (dd_getitem 0%Z (outdegree_of df_edges) w = 0%Z)
                                then score pr w else 0)
                          <$> elements (all_nodes_of df_edges)))%Qc
      with (sum_pr_spec (all_nodes_of df_edges)
              (update_spec (all_nodes_of df_edges) (inbound_links_of df_edges)
                 (outdegree_of df_edges) d pr)).
    + by apply (rounded_sum_update u rnd Hu Hrnd).
    + rewrite sum_update_spec. unfold sum_pr_spec.
      rewrite (Qcsum_split_dangling df_edges (score pr)). ring.
Qed.

Lemma pass_leaks_dangling_score_witness :
  ∃ new_pagerank diff,
    Float.update_pass (Float.rounded (round_nearest 53)) (all_nodes_of example_sink)
      (elements (all_nodes_of example_sink))
      (inbound_links_of example_sink) (outdegree_of example_sink)
      (Qc_of_float damping_f64) (uniform_spec (all_nodes_of example_sink))
    = Float.ret (new_pagerank, diff)
    ∧ within (unit_roundoff 53) (pass_roundings example_sink)
        (sum_pr_spec (all_nodes_of example_sink) new_pagerank)
        (sum_pr_spec (all_nodes_of example_sink) (uniform_spec (all_nodes_of example_sink))
         - Qc_of_float damping_f64
           * Qcsum ((λ w, if decide (dd_getitem 0%Z (outdegree_of example_sink) w = 0%Z)
                          then score (uniform_spec (all_nodes_of example_sink)) w else 0)
                    <$> elements (all_nodes_of example_sink)))%Qc.
Proof.
  apply (pass_leaks_dangling_score example_sink (unit_roundoff 53) (round_nearest 53)
           (elements (all_nodes_of example_sink)) (Qc_of_float damping_f64)
           (uniform_spec (all_nodes_of example_sink))).
  - split; vm_compute; discriminate.
  - apply round_nearest_rounds_within.
  - reflexivity.
  - split; vm_compute; discriminate.
  - vm_compute. reflexivity.
  - apply uniform_spec_nonneg.
Defined.

(** X7. For a damping factor in [0,1], whatever the graph, the budget of
    passes and the tolerance: when every float operation returns its
    exact result with a relative error of at most [u], the program raises
    nothing, the scores it returns are not negative and add up to at most
    (1+u)^(max_iter r + 1) for [r = pass_roundings], and so each score
    is at most that; in exact arithmetic ([u] = 0) at most 1. *)
Theorem scores_total_bounded df_edges u rnd node_order d max_iter tol :
  (0 ≤ u ≤ 1)%Qc → rounds_within u rnd →
  node_order ≡ₚ elements (all_nodes_of df_edges) →
  (0 ≤ d ≤ 1)%Qc →
  ∃ pr,
    Float.outcome
      (Float.compute_pagerank_inbound (Float.rounded rnd) node_order df_edges d max_iter tol)
    = inr pr
    ∧ dom pr = all_nodes_of df_edges
    ∧ (sum_pr_spec (all_nodes_of df_edges) pr
       ≤ (1 + u) ^ (Z.to_nat max_iter * pass_roundings df_edges + 1))%Qc
    ∧ (∀ v x, pr !! v = Some x →
         (0 ≤ x ≤ (1 + u) ^ (Z.to_nat max_iter * pass_roundings df_edges + 1))%Qc)
    ∧ (u = 0%Qc → (sum_pr_spec (all_nodes_of df_edges) pr ≤ 1)%Qc).
Proof.
  intros Hu Hrnd Horder Hd.
  destruct (float_iterate_invariant (Float.rounded rnd) (all_nodes_of df_edges) node_order
              (inbound_links_of df_edges) (outdegree_of df_edges) d tol
              (build_index_wf df_edges) Horder
              (λ k pr, nonneg_scores pr
                       ∧ (sum_pr_spec (all_nodes_of df_edges) pr
                          ≤ (1 + u) ^ (k * pass_roundings df_edges + 1))%Qc)
              (seqZ 0 max_iter)
              (Float.uniform_of (Float.rounded rnd) (all_nodes_of df_edges) node_order))
    as (out & j & pr & Heq & Hj & Hdom & Hpr & Hsum).
  { by apply float_dom_uniform_of. }
  { split; [by apply (rounded_uniform_nonneg u)|].
    by apply (rounded_sum_uniform_le u rnd Hu Hrnd). }
  { intros k pr' Hdom' [Hpr' Hsum']. split.
    - by apply (rounded_update_nonneg u).
    - by apply (rounded_sum_update_le u rnd Hu Hrnd). }
  rewrite length_seqZ in Hj.
  assert (sum_pr_spec (all_nodes_of df_edges) pr
          ≤ (1 + u) ^ (Z.to_nat max_iter * pass_roundings df_edges + 1))%Qc as Hsum'.
  { etrans; [exact Hsum|]. apply (high_pow_mono u Hu). nia. }
  exists pr. split; [|split; [done|split; [done|split]]].
  - rewrite float_compute_unfold by done. unfold Float.outcome at 1. cbn [snd].
    by rewrite Heq.
  - intros v x Hx. split; [by apply (Hpr v)|].
    etrans; [|exact Hsum'].
    replace x with (score pr v) by (unfold score; by rewrite Hx).
    apply score_le_sum; [done|]. rewrite <-Hdom. by apply elem_of_dom.
  - intros ->. revert Hsum'. replace (1 + 0)%Qc with 1%Qc by ring.
    by rewrite Qcpower_1.
Qed.

Lemma scores_total_bounded_witness :
  ∃ pr,
    Float.outcome
      (Float.compute_pagerank_inbound (Float.rounded (round_nearest 53)) ascending_4
         star_to_4 (Qc_of_float damping_f64) 100 (Qc_of_float tiny_tol_f64))
    = inr pr
    ∧ dom pr = all_nodes_of star_to_4
    ∧ (sum_pr_spec (all_nodes_of star_to_4) pr
       ≤ (1 + unit_roundoff 53) ^ (Z.to_nat 100 * pass_roundings star_to_4 + 1))%Qc
    ∧ (∀ v x, pr !! v = Some x →
         (0 ≤ x ≤ (1 + unit_roundoff 53) ^ (Z.to_nat 100 * pass_roundings star_to_4 + 1))%Qc)
    ∧ (unit_roundoff 53 = 0%Qc → (sum_pr_spec (all_nodes_of star_to_4) pr ≤ 1)%Qc).
Proof.
  apply (scores_total_bounded star_to_4 (unit_roundoff 53) (round_nearest 53)
           ascending_4 (Qc_of_float damping_f64) 100 (Qc_of_float tiny_tol_f64)).
  - split; vm_compute; discriminate.
  - apply round_nearest_rounds_within.
  - apply (bool_decide_unpack _). vm_compute. reflexivity.
  - split; vm_compute; discriminate.
Defined.

(** X8. Two passes in a row, up to rounding: for a damping factor in [0,1]
    and a previous map whose keys are the nodes and whose scores are not
    negative, when every float operation returns its exact result with a
    relative error of at most [u], a pass run on the result of a pass
    measures at most what that pass measured plus the roundings of the
    two passes; each variation is the L1 distance of its two maps up to
    the roundings of the sum. In exact arithmetic ([u] = 0) the variation
    does not grow. *)
Theorem variation_never_grows df_edges u rnd node_order d pr :
  (0 ≤ u ≤ 1)%Qc → rounds_within u rnd →
  node_order ≡ₚ elements (all_nodes_of df_edges) →
  (0 ≤ d ≤ 1)%Qc →
  dom pr = all_nodes_of df_edges → nonneg_scores pr →
  ∃ new_pagerank diff new_pagerank' diff',
    Float.update_pass (Float.rounded rnd) (all_nodes_of df_edges) node_order
      (inbound_links_of df_edges) (outdegree_of df_edges) d pr
    = Float.ret (new_pagerank, diff)
    ∧ Float.update_pass (Float.rounded rnd) (all_nodes_of df_edges) node_order
        (inbound_links_of df_edges) (outdegree_of df_edges) d new_pagerank
      = Float.ret (new_pagerank', diff')
    ∧ within u (1 + size (all_nodes_of df_edges)) diff
        (l1_diff (all_nodes_of df_edges) new_pagerank pr)
    ∧ within u (1 + size (all_nodes_of df_edges)) diff'
        (l1_diff (all_nodes_of df_edges) new_pagerank' new_pagerank)
    ∧ ((1 - u) ^ (1 + size (all_nodes_of df_edges)) * diff'
       ≤ (1 + u) ^ (1 + size (all_nodes_of df_edges))
         * (diff + ((1 + u) ^ pass_roundings df_edges - 1)
                   * (sum_pr_spec (all_nodes_of df_edges) new_pagerank
                      + sum_pr_spec (all_nodes_of df_edges) pr)))%Qc
    ∧ (u = 0%Qc → (diff' ≤ diff)%Qc).
Proof.
  intros Hu Hrnd Horder Hd Hdom Hpr.
  pose proof (rounded_next_diff u rnd Hu Hrnd df_edges node_order d Hd Horder pr Hdom Hpr)
    as Hnext.
  cbv zeta in Hnext.
  eexists _, _, _, _. split; [|split; [|split; [|split; [|split]]]].
  - by apply float_update_pass; [apply build_index_wf|..].
  - apply float_update_pass; [apply build_index_wf|done|by apply float_dom_update_of].
  - by apply rounded_diff_within.
  - by apply rounded_diff_within.
  - exact Hnext.
  - intros ->. revert Hnext.
    replace (1 - 0)%Qc with 1%Qc by ring. replace (1 + 0)%Qc with 1%Qc by ring.
    rewrite !Qcpower_1, !Qcmult_1_l.
    replace (1 - 1)%Qc with 0%Qc by ring. by rewrite Qcmult_0_l, Qcplus_0_r.
Qed.

Lemma variation_never_grows_witness :
  ∃ new_pagerank diff new_pagerank' diff',
    Float.update_pass (Float.rounded (round_nearest 53)) (all_nodes_of example_graph)
      ascending_3 (inbound_links_of example_graph) (outdegree_of example_graph)
      (Qc_of_float damping_f64) example_scores
    = Float.ret (new_pagerank, diff)
    ∧ Float.update_pass (Float.rounded (round_nearest 53)) (all_nodes_of example_graph)
        ascending_3 (inbound_links_of example_graph) (outdegree_of example_graph)
        (Qc_of_float damping_f64) new_pagerank
      = Float.ret (new_pagerank', diff')
    ∧ within (unit_roundoff 53) (1 + size (all_nodes_of example_graph)) diff
        (l1_diff (all_nodes_of example_graph) new_pagerank example_scores)
    ∧ within (unit_roundoff 53) (1 + size (all_nodes_of example_graph)) diff'
        (l1_diff (all_nodes_of example_graph) new_pagerank' new_pagerank)
    ∧ ((1 - unit_roundoff 53) ^ (1 + size (all_nodes_of example_graph)) * diff'
       ≤ (1 + unit_roundoff 53) ^ (1 + size (all_nodes_of example_graph))
         * (diff + ((1 + unit_roundoff 53) ^ pass_roundings example_graph - 1)
                   * (sum_pr_spec (all_nodes_of example_graph) new_pagerank
                      + sum_pr_spec (all_nodes_of example_graph) example_scores)))%Qc
    ∧ (unit_roundoff 53 = 0%Qc → (diff' ≤ diff)%Qc).
Proof.
  apply (variation_never_grows example_graph (unit_roundoff 53) (round_nearest 53)
           ascending_3 (Qc_of_float damping_f64) example_scores).
  - split; vm_compute; discriminate.
  - apply round_nearest_rounds_within.
  - apply (bool_decide_unpack _). vm_compute. reflexivity.
  - split; vm_compute; discriminate.
  - vm_compute. reflexivity.
  - intros v x Hx. apply (bool_decide_unpack _).
    revert v x Hx. apply (bool_decide_unpack _). vm_compute. reflexivity.
Defined.

(** ** Damping contracts the variation *)

Section contraction.
Variable df_edges : list (Z * Z).
Variable d : Qc.
Hypothesis Hd : (0 ≤ d ≤ 1)%Qc.

(** The uniform share separates the images of two maps by the
    difference of their totals only, the inbound part by [d] times their
    L1 distance. *)
Lemma update_spec_contracts x y :
  (l1_diff (all_nodes_of df_edges)
     (update_spec (all_nodes_of df_edges) (inbound_links_of df_edges)
        (outdegree_of df_edges) d x)
     (update_spec (all_nodes_of df_edges) (inbound_links_of df_edges)
        (outdegree_of df_edges) d y)
   ≤ (1 - d) * Qcabs (sum_pr_spec (all_nodes_of df_edges) x
                      - sum_pr_spec (all_nodes_of df_edges) y)
     + d * l1_diff (all_nodes_of df_edges) x y)%Qc.
Proof.
  assert (0 ≤ 1 - d)%Qc as Hd1 by apply Qc_one_minus_nonneg, Hd.
  assert (0 ≤ Qc_of_Z (n (all_nodes_of df_edges)))%Qc as Hnn
    by (apply Qc_of_Z_nonneg; unfold n; lia).
  set (gap := Qcabs (sum_pr_spec (all_nodes_of df_edges) x
                     - sum_pr_spec (all_nodes_of df_edges) y)).
  unfold l1_diff at 1.
  trans (Qcsum ((λ v,
      (1 - d) * (gap * / Qc_of_Z (n (all_nodes_of df_edges)))
      + d * Qcsum ((λ w, Qcabs (score x w - score y w)
                         / Qc_of_Z (dd_getitem 0%Z (outdegree_of df_edges) w))
                   <$> dd_getitem [] (inbound_links_of df_edges) v))%Qc
    <$> elements (all_nodes_of df_edges))).
  { apply Qcsum_le. intros v Hv%elem_of_elements.
    rewrite !score_update_spec by done.
    rewrite new_score_minus, <-(Qcsum_minus (score x) (score y)).
    fold (sum_pr_spec (all_nodes_of df_edges) x).
    fold (sum_pr_spec (all_nodes_of df_edges) y).
    etrans; [apply Qcabs_triangle|]. apply Qcplus_le_compat.
    - rewrite !Qcabs_Qcmult, (Qcabs_pos (1 - d)) by done.
      rewrite (Qcabs_pos (/ _)) by by apply Qcinv_nonneg.
      apply Qcle_refl.
    - rewrite Qcabs_Qcmult, (Qcabs_pos d) by apply Hd.
      apply Qcmult_le_mono_nonneg_l; [apply Hd|].
      etrans; [apply (Qcabs_Qcsum (λ w, (score x w - score y w)
                 / Qc_of_Z (dd_getitem 0%Z (outdegree_of df_edges) w))%Qc)|].
      apply Qcsum_le. intros w _. rewrite Qcabs_div_nonneg; [done|].
      apply Qc_of_Z_nonneg, outdegree_nonneg. }
  rewrite (Qcsum_plus (λ _, _) (λ v, (d * _)%Qc)), Qcsum_const, Qcsum_scale.
  rewrite (in_sum_total df_edges (λ w, Qcabs (score x w - score y w))).
  change (Qc_of_nat (length (elements (all_nodes_of df_edges))))
    with (Qc_of_Z (n (all_nodes_of df_edges))).
  apply Qcplus_le_compat.
  - trans ((1 - d) * gap
           * (Qc_of_Z (n (all_nodes_of df_edges)) * / Qc_of_Z (n (all_nodes_of df_edges))))%Qc;
      [apply Qcle_of_eq; ring|].
    rewrite <-(Qcmult_1_r ((1 - d) * gap)) at 2.
    apply Qcmult_le_mono_nonneg_l;
      [apply Qcmult_nonneg_nonneg; [done|apply Qcabs_nonneg]|].
    apply Qcmult_inv_le_1.
  - apply Qcmult_le_mono_nonneg_l; [apply Hd|].
    apply Qcsum_le. intros w _. case_decide; [apply Qcabs_nonneg|done].
Qed.
End contraction.

Section rounded_contraction.
Variable u : Qc.
Variable rnd : Qc → Qc.
Hypothesis Hu : (0 ≤ u ≤ 1)%Qc.
Hypothesis Hrnd : rounds_within u rnd.
Variable df_edges : list (Z * Z).
Variable node_order : list Z.
Variable d : Qc.
Hypothesis Hd : (0 ≤ d ≤ 1)%Qc.
Hypothesis Horder : node_order ≡ₚ elements (all_nodes_of df_edges).
Hypothesis Hnd : no_dangling df_edges.

Lemma rounded_next_diff_damped prev :
  dom prev = all_nodes_of df_edges → nonneg_scores prev →
  let upd := Float.update_of (Float.rounded rnd) (all_nodes_of df_edges) node_order
               (inbound_links_of df_edges) (outdegree_of df_edges) d in
  ((1 - u) ^ (1 + size (all_nodes_of df_edges))
   * Float.diff_of (Float.rounded rnd) node_order (upd (upd prev)) (upd prev)
   ≤ (1 + u) ^ (1 + size (all_nodes_of df_edges))
     * (d * Float.diff_of (Float.rounded rnd) node_order (upd prev) prev
        + ((1 + u) ^ pass_roundings df_edges - 1)
          * (sum_pr_spec (all_nodes_of df_edges) (upd prev)
             + (1 + 1) * sum_pr_spec (all_nodes_of df_edges) prev)))%Qc.
Proof.
  intros Hdom Hpr upd.
  assert (dom (upd prev) = all_nodes_of df_edges) as Hdom' by by apply float_dom_update_of.
  assert (nonneg_scores (upd prev)) as Hpr' by by apply (rounded_update_nonneg u).
  pose proof (rounded_diff_within u rnd Hu Hrnd df_edges node_order Horder
                (upd (upd prev)) (upd prev)) as [_ H2].
  pose proof (rounded_diff_within u rnd Hu Hrnd df_edges node_order Horder
                (upd prev) prev) as [H1 _].
  pose proof (rounded_update_error u rnd Hu Hrnd df_edges node_order d Hd Horder
                prev Hdom Hpr) as H3.
  pose proof (rounded_update_error u rnd Hu Hrnd df_edges node_order d Hd Horder
                (upd prev) Hdom' Hpr') as H4.
  fold upd in H3, H4.
  pose proof (update_spec_contracts df_edges d Hd (upd prev) prev) as H5.
  pose proof (rounded_sum_update u rnd Hu Hrnd df_edges node_order d Hd Horder
                prev Hdom Hpr) as Hsum.
  fold upd in Hsum.
  rewrite (update_spec_preserves_total df_edges d prev Hnd) in Hsum.
  pose proof (sum_pr_spec_nonneg df_edges prev Hpr) as HS1.
  pose proof (sum_pr_spec_nonneg df_edges (upd prev) Hpr') as HS2.
  pose proof (within_abs_error u Hu _ _ _ HS1 Hsum) as Hgap.
  set (E := update_spec (all_nodes_of df_edges) (inbound_links_of df_edges)
              (outdegree_of df_edges) d) in *.
  pose proof (l1_diff_triangle (all_nodes_of df_edges) (upd (upd prev)) (E (upd prev))
                (upd prev)) as H6.
  pose proof (l1_diff_triangle (all_nodes_of df_edges) (E (upd prev)) (E prev)
                (upd prev)) as H7.
  rewrite (l1_diff_sym _ (E prev) (upd prev)) in H7.
  destruct (low_pow_bounds u Hu (1 + size (all_nodes_of df_edges))) as [HA0 HA1].
  pose proof (high_pow_bound u Hu (1 + size (all_nodes_of df_edges))) as HB.
  pose proof (high_pow_bound u Hu (pass_roundings df_edges)) as HC.
  destruct Hd as [Hd0 Hd1].
  set (A := ((1 - u) ^ (1 + size (all_nodes_of df_edges)))%Qc) in *.
  set (B := ((1 + u) ^ (1 + size (all_nodes_of df_edges)))%Qc) in *.
  set (C := ((1 + u) ^ pass_roundings df_edges)%Qc) in *.
  set (D2 := Float.diff_of _ _ (upd (upd prev)) (upd prev)) in *.
  set (D1 := Float.diff_of _ _ (upd prev) prev) in *.
  set (X := l1_diff _ (upd (upd prev)) (upd prev)) in *.
  set (Y := l1_diff _ (upd prev) prev) in *.
  set (S1 := sum_pr_spec _ prev) in *.
  set (S2 := sum_pr_spec _ (upd prev)) in *.
  set (G := Qcabs (S2 - S1)) in *.
  assert (0 ≤ Y)%Qc as HY.
  { apply Qcsum_nonneg. intros; apply Qcabs_nonneg. }
  assert (0 ≤ G)%Qc as HG by apply Qcabs_nonneg.
  assert (X ≤ d * Y + (C - 1) * (S2 + (1 + 1) * S1))%Qc as HX.
  { assert ((1 - d) * G ≤ (C - 1) * S1)%Qc as HG'.
    { qc2q. nra. }
    qc2q. lra. }
  clear H3 H4 H5 H6 H7 Hgap Hsum.
  qc2q.
  apply Qle_trans with (this A * (this B * this X))%Q; [nra|].
  apply Qle_trans
    with (this B * (this A * (this d * this Y
                              + (this C - 1) * (this S2 + (1 + 1) * this S1))))%Q.
  { assert (0 <= this A * this B)%Q by nra. nra. }
  assert (this A * (this d * this Y + (this C - 1) * (this S2 + (1 + 1) * this S1))
          <= this d * this D1 + (this C - 1) * (this S2 + (1 + 1) * this S1))%Q; [|nra].
  assert (0 <= (this C - 1) * (this S2 + (1 + 1) * this S1))%Q by nra.
  assert (this A * (this d * this Y) <= this d * this D1)%Q by nra.
  nra.
Qed.
End rounded_contraction.

(** X9. On a graph in which every node has an outbound row, and for a
    damping factor in [0,1], the variation shrinks by the factor [d] from
    one pass to the next, up to rounding: for a previous map whose keys are
    the nodes and whose scores are not negative, when every float operation
    returns its exact result with a relative error of at most [u], a pass
    run on the result of a pass measures at most [d] times what that pass
    measured plus the roundings of the two passes. In exact arithmetic
    ([u] = 0) it measures at most [d] times as much. *)
Theorem variation_shrinks_by_damping df_edges u rnd node_order d pr :
  (0 ≤ u ≤ 1)%Qc → rounds_within u rnd →
  node_order ≡ₚ elements (all_nodes_of df_edges) →
  (0 ≤ d ≤ 1)%Qc →
  no_dangling df_edges →
  dom pr = all_nodes_of df_edges → nonneg_scores pr →
  ∃ new_pagerank diff new_pagerank' diff',
    Float.update_pass (Float.rounded rnd) (all_nodes_of df_edges) node_order
      (inbound_links_of df_edges) (outdegree_of df_edges) d pr
    = Float.ret (new_pagerank, diff)
    ∧ Float.update_pass (Float.rounded rnd) (all_nodes_of df_edges) node_order
        (inbound_links_of df_edges) (outdegree_of df_edges) d new_pagerank
      = Float.ret (new_pagerank', diff')
    ∧ within u (1 + size (all_nodes_of df_edges)) diff
        (l1_diff (all_nodes_of df_edges) new_pagerank pr)
    ∧ within u (1 + size (all_nodes_of df_edges)) diff'
        (l1_diff (all_nodes_of df_edges) new_pagerank' new_pagerank)
    ∧ ((1 - u) ^ (1 + size (all_nodes_of df_edges)) * diff'
       ≤ (1 + u) ^ (1 + size (all_nodes_of df_edges))
         * (d * diff
            + ((1 + u) ^ pass_roundings df_edges - 1)
              * (sum_pr_spec (all_nodes_of df_edges) new_pagerank
                 + (1 + 1) * sum_pr_spec (all_nodes_of df_edges) pr)))%Qc
    ∧ (u = 0%Qc → (diff' ≤ d * diff)%Qc).
Proof.
  intros Hu Hrnd Horder Hd Hnd Hdom Hpr.
  pose proof (rounded_next_diff_damped u rnd Hu Hrnd df_edges node_order d Hd Horder Hnd
                pr Hdom Hpr) as Hnext.
  cbv zeta in Hnext.
  eexists _, _, _, _. split; [|split; [|split; [|split; [|split]]]].
  - by apply float_update_pass; [apply build_index_wf|..].
  - apply float_update_pass; [apply build_index_wf|done|by apply float_dom_update_of].
  - by apply rounded_diff_within.
  - by apply rounded_diff_within.
  - exact Hnext.
  - intros ->. revert Hnext.
    replace (1 - 0)%Qc with 1%Qc by ring. replace (1 + 0)%Qc with 1%Qc by ring.
    rewrite !Qcpower_1, !Qcmult_1_l.
    replace (1 - 1)%Qc with 0%Qc by ring. by rewrite Qcmult_0_l, Qcplus_0_r.
Qed.

Lemma variation_shrinks_by_damping_witness :
  ∃ new_pagerank diff new_pagerank' diff',
    Float.update_pass (Float.rounded (round_nearest 53)) (all_nodes_of example_graph)
      ascending_3 (inbound_links_of example_graph) (outdegree_of example_graph)
      (Qc_of_float damping_f64) example_scores
    = Float.ret (new_pagerank, diff)
    ∧ Float.update_pass (Float.rounded (round_nearest 53)) (all_nodes_of example_graph)
        ascending_3 (inbound_links_of example_graph) (outdegree_of example_graph)
        (Qc_of_float damping_f64) new_pagerank
      = Float.ret (new_pagerank', diff')
    ∧ within (unit_roundoff 53) (1 + size (all_nodes_of example_graph)) diff
        (l1_diff (all_nodes_of example_graph) new_pagerank example_scores)
    ∧ within (unit_roundoff 53) (1 + size (all_nodes_of example_graph)) diff'
        (l1_diff (all_nodes_of example_graph) new_pagerank' new_pagerank)
    ∧ ((1 - unit_roundoff 53) ^ (1 + size (all_nodes_of example_graph)) * diff'
       ≤ (1 + unit_roundoff 53) ^ (1 + size (all_nodes_of example_graph))
         * (Qc_of_float damping_f64 * diff
            + ((1 + unit_roundoff 53) ^ pass_roundings example_graph - 1)
              * (sum_pr_spec (all_nodes_of example_graph) new_pagerank
                 + (1 + 1) * sum_pr_spec (all_nodes_of example_graph) example_scores)))%Qc
    ∧ (unit_roundoff 53 = 0%Qc → (diff' ≤ Qc_of_float damping_f64 * diff)%Qc).
Proof.
  apply (variation_shrinks_by_damping example_graph (unit_roundoff 53) (round_nearest 53)
           ascending_3 (Qc_of_float damping_f64) example_scores).
  - split; vm_compute; discriminate.
  - apply round_nearest_rounds_within.
  - apply (bool_decide_unpack _). vm_compute. reflexivity.
  - split; vm_compute; discriminate.
  - vm_compute. repeat constructor.
  - vm_compute. reflexivity.
  - intros v x Hx. apply (bool_decide_unpack _).
    revert v x Hx. apply (bool_decide_unpack _). vm_compute. reflexivity.
Defined.

(** ** The listing *)

Lemma by_score_desc_total : Total by_score_desc.
Proof. intros x y. unfold by_score_desc. apply (total Qcle). Qed.

Lemma by_score_desc_trans : Transitive by_score_desc.
Proof. intros x y z Hxy Hyz. unfold by_score_desc in *. by etrans. Qed.

Lemma py_list_getitem_nonneg {A} (l : list A) i x :
  0 ≤ i → l !! Z.to_nat i = Some x → py_list_getitem l i = mret x.
Proof.
  intros Hi Hx. unfold py_list_getitem. cbv zeta.
  destruct (decide (i < 0)) as [?|_]; [lia|].
  apply lookup_lt_Some in Hx as Hlt.
  rewrite decide_True by lia. by rewrite Hx.
Qed.

Lemma for_each_lines {A} (xs : list A) (body : () → A → M ()) (Q : A → event → Prop) :
  (∀ x, x ∈ xs → ∃ e, body () x = ([e], inr ()) ∧ Q x e) →
  ∃ lines, for_each xs body () = (lines, inr ()) ∧ Forall2 Q xs lines.
Proof.
  induction xs as [|x xs IH]; intros Hbody.
  - exists []. split; [done|constructor].
  - destruct (Hbody x) as (e & He & HQ); [left|].
    destruct IH as (lines & Hlines & HQs).
    { intros y Hy. apply Hbody. by right. }
    exists (e :: lines). split; [|by constructor].
    cbn [for_each]. rewrite He. unfold mbind, M_bind. by rewrite Hlines.
Qed.

Section listing.
Variable df_edges : list (Z * Z).
Variable names_csv : option (list string).

Lemma sorted_items_are_nodes (pr : gmap Z Qc) (i : nat) entry :
  dom pr = all_nodes_of df_edges →
  merge_sort by_score_desc (map_to_list pr) !! i = Some entry →
  entry.1 ∈ all_nodes_of df_edges.
Proof.
  intros Hdom Hi. apply list_elem_of_lookup_2 in Hi.
  rewrite merge_sort_Permutation in Hi. destruct entry as [v x].
  apply elem_of_map_to_list in Hi. rewrite <-Hdom. apply elem_of_dom. eauto.
Qed.

Lemma length_sorted_items (pr : gmap Z Qc) :
  dom pr = all_nodes_of df_edges →
  length (merge_sort by_score_desc (map_to_list pr)) = size (all_nodes_of df_edges).
Proof.
  intros Hdom. rewrite merge_sort_Permutation, length_map_to_list.
  by rewrite <-(size_dom (D:=gset Z)), Hdom.
Qed.
End listing.

(** X13. On a graph with at least 20 nodes whose identifiers are all
    non-negative the main program raises nothing. After the lines of the
    computation and the header it prints exactly 20 lines, for the 20 first
    entries of the score map sorted by non-increasing score; line [i] has
    rank [i + 1], and carries the name [node_names[node_id]] exactly when
    [node_id < len(node_names)]. *)
Theorem main_prints_top20 df_edges names_csv :
  (20 ≤ size (all_nodes_of df_edges))%nat →
  Forall (λ e, 0 ≤ e.1 ∧ 0 ≤ e.2) df_edges →
  ∃ pr sorted_pr lines,
    outcome (compute_pagerank_inbound df_edges default_damping 100 default_tol) = inr pr
    ∧ sorted_pr ≡ₚ map_to_list pr
    ∧ StronglySorted by_score_desc sorted_pr
    ∧ main df_edges names_csv
      = (stdout (compute_pagerank_inbound df_edges default_damping 100 default_tol)
           ++ MsgTop20 :: lines,
         inr ())
    ∧ length lines = 20%nat
    ∧ ∀ i : nat, (i < 20)%nat →
        ∃ entry line,
          sorted_pr !! i = Some entry ∧ lines !! i = Some line
          ∧ rank_line (default [] names_csv) (Z.of_nat i + 1) entry line.
Proof.
  intros Hsize Hids.
  destruct (compute_pagerank_inbound_total df_edges default_damping 100 default_tol)
    as (j & Hj & _).
  set (pr := pagerank_after df_edges default_damping j) in *.
  assert (dom pr = all_nodes_of df_edges) as Hdom by apply dom_pagerank_after.
  set (sorted_pr := merge_sort by_score_desc (map_to_list pr)).
  set (node_names := default [] names_csv).
  assert (length sorted_pr = size (all_nodes_of df_edges)) as Hlen
    by by apply length_sorted_items.
  destruct (for_each_lines (seqZ 0 20)
    (λ _ i,
       '(node_id, score) ← py_list_getitem sorted_pr i;
       if decide (node_id < Z.of_nat (length node_names)) then
         name ← py_list_getitem node_names node_id;
         print (MsgRankNamed (i + 1) node_id name score)
       else print (MsgRank (i + 1) node_id score))
    (λ i line, ∃ entry, sorted_pr !! Z.to_nat i = Some entry
                        ∧ rank_line node_names (i + 1) entry line))
    as (lines & Hlines & HQ).
  { intros i [Hi0 Hi20]%elem_of_seqZ.
    destruct (lookup_lt_is_Some_2 sorted_pr (Z.to_nat i)) as [[node_id score] Hentry];
      [lia|].
    assert (0 ≤ node_id) as Hnode.
    { apply (sorted_items_are_nodes df_edges pr _ _ Hdom) in Hentry.
      apply elem_of_all_nodes in Hentry as (e & He & Hv).
      rewrite Forall_forall in Hids. destruct (Hids e He). simpl in Hv. lia. }
    rewrite (py_list_getitem_nonneg _ _ _ Hi0 Hentry), M_bind_ret.
    destruct (decide (node_id < Z.of_nat (length node_names))) as [Hlt|Hge].
    - destruct (lookup_lt_is_Some_2 node_names (Z.to_nat node_id)) as [name Hname];
        [lia|].
      rewrite (py_list_getitem_nonneg _ _ _ Hnode Hname), M_bind_ret.
      eexists. split; [done|]. exists (node_id, score). split; [done|].
      unfold rank_line. cbn [fst snd]. rewrite decide_True by done. by exists name.
    - eexists. split; [done|]. exists (node_id, score). split; [done|].
      unfold rank_line. cbn [fst snd]. by rewrite decide_False by done. }
  exists pr, sorted_pr, lines. split; [exact Hj|]. split; [apply merge_sort_Permutation|].
  split.
  { apply (StronglySorted_merge_sort by_score_desc
             (Transitive0:=by_score_desc_trans) (Total0:=by_score_desc_total)). }
  split.
  { unfold main.
    change (Q2Qc (85 # 100)) with default_damping.
    change (Q2Qc (1 # 100000000)) with default_tol.
    destruct (compute_pagerank_inbound df_edges default_damping 100 default_tol)
      as [out r] eqn:Hrun.
    unfold outcome in Hj. cbn [snd] in Hj. subst r.
    unfold mbind at 1. unfold M_bind at 1. cbv zeta.
    fold pr. fold sorted_pr. fold node_names.
    by rewrite M_bind_print, Hlines. }
  apply Forall2_length in HQ as Hlen'. rewrite length_seqZ in Hlen'.
  split; [lia|]. intros i Hi.
  destruct (Forall2_lookup_l _ _ _ i (Z.of_nat i) HQ) as (line & Hline & entry & Hentry & Hrank).
  { rewrite lookup_seqZ_lt by lia. f_equal. }
  rewrite Nat2Z.id in Hentry. by exists entry, line.
Qed.

Lemma main_prints_top20_witness :
  ∃ pr sorted_pr lines,
    outcome (compute_pagerank_inbound example_big_ring default_damping 100 default_tol)
    = inr pr
    ∧ sorted_pr ≡ₚ map_to_list pr
    ∧ StronglySorted by_score_desc sorted_pr
    ∧ main example_big_ring None
      = (stdout (compute_pagerank_inbound example_big_ring default_damping 100 default_tol)
           ++ MsgTop20 :: lines,
         inr ())
    ∧ length lines = 20%nat
    ∧ ∀ i : nat, (i < 20)%nat →
        ∃ entry line,
          sorted_pr !! i = Some entry ∧ lines !! i = Some line
          ∧ rank_line (default [] None) (Z.of_nat i + 1) entry line.
Proof.
  apply (main_prints_top20 example_big_ring None).
  - vm_compute. lia.
  - apply (bool_decide_unpack _). vm_compute. reflexivity.
Defined.

Lemma py_list_getitem_below {A} (l : list A) i :
  i < - Z.of_nat (length l) → outcome (py_list_getitem l i) = inl IndexError.
Proof.
  intros Hi. unfold py_list_getitem. cbv zeta.
  destruct (decide (i < 0)) as [_|?]; [|lia].
  by rewrite decide_False by lia.
Qed.

(** X14. Identifiers below [-len(node_names)] break the listing whatever
    the number of nodes: the test [node_id < len(node_names)] holds for
    them, and [node_names[node_id]] is then out of range. On a non-empty
    graph whose identifiers are all that negative (all negative, when the
    names could not be loaded) the main program ends with an
    [IndexError]. *)
Theorem negative_ids_break_listing df_edges names_csv :
  df_edges ≠ [] →
  Forall (λ e, e.1 < - Z.of_nat (length (default [] names_csv))
               ∧ e.2 < - Z.of_nat (length (default [] names_csv))) df_edges →
  outcome (main df_edges names_csv) = inl IndexError.
Proof.
  intros Hne Hids. unfold main.
  destruct (compute_pagerank_inbound_total df_edges (Q2Qc (85 # 100)) 100
              (Q2Qc (1 # 100000000))) as (j & Hj & _).
  rewrite outcome_bind, Hj. cbv zeta.
  set (pr := pagerank_after df_edges (Q2Qc (85 # 100)) j).
  assert (dom pr = all_nodes_of df_edges) as Hdom by apply dom_pagerank_after.
  set (sorted_pr := merge_sort by_score_desc (map_to_list pr)).
  set (node_names := default [] names_csv) in *.
  assert (0 < length sorted_pr)%nat as Hlen.
  { unfold sorted_pr. rewrite (length_sorted_items df_edges pr Hdom).
    destruct df_edges as [|[src tgt] rows]; [done|].
    assert (src ∈ all_nodes_of ((src, tgt) :: rows)) as Hsrc.
    { apply elem_of_all_nodes. exists (src, tgt). split; [left|by left]. }
    apply n_pos in Hsrc. unfold n in Hsrc. lia. }
  rewrite outcome_bind. cbn [print outcome snd].
  apply (for_each_raises _ _ _ _ 0).
  - intros [] i e _. apply display_line_exn.
  - apply elem_of_seqZ. lia.
  - intros [].
    destruct (lookup_lt_is_Some_2 sorted_pr (Z.to_nat 0)) as [[node_id score] Hentry];
      [simpl; lia|].
    assert (node_id < - Z.of_nat (length node_names)) as Hnode.
    { apply (sorted_items_are_nodes df_edges pr _ _ Hdom) in Hentry.
      apply elem_of_all_nodes in Hentry as (e & He & Hv).
      rewrite Forall_forall in Hids. destruct (Hids e He). simpl in Hv. lia. }
    rewrite (py_list_getitem_nonneg _ 0 _ ltac:(lia) Hentry), M_bind_ret.
    rewrite decide_True by lia.
    by rewrite outcome_bind, py_list_getitem_below.
Qed.

Lemma negative_ids_break_listing_witness :
  outcome (main example_negative (Some ["a"; "b"; "c"]%string)) = inl IndexError.
Proof.
  apply (negative_ids_break_listing example_negative (Some ["a"; "b"; "c"]%string)).
  - discriminate.
  - apply (bool_decide_unpack _). vm_compute. reflexivity.
Defined.

(** ** Degrees add up *)

Lemma sum_list_with_ext {A} (f g : A → nat) (l : list A) :
  (∀ x, x ∈ l → f x = g x) → sum_list_with f l = sum_list_with g l.
Proof.
  induction l as [|x l IH]; intros Hfg; [done|]. simpl.
  rewrite Hfg by left. rewrite IH; [done|]. intros y Hy. apply Hfg. by right.
Qed.

Lemma sum_list_with_plus {A} (f g : A → nat) (l : list A) :
  sum_list_with (λ x, f x + g x)%nat l = (sum_list_with f l + sum_list_with g l)%nat.
Proof. induction l as [|x l IH]; [done|]. simpl. rewrite IH. lia. Qed.

Lemma sum_list_with_indicator (vs : list Z) x :
  NoDup vs → x ∈ vs →
  sum_list_with (λ v, if decide (x = v) then 1 else 0)%nat vs = 1%nat.
Proof.
  induction vs as [|a vs IH]; intros Hnd Hin; [by apply not_elem_of_nil in Hin|].
  apply NoDup_cons in Hnd as [Ha Hnd]. simpl.
  destruct (decide (x = a)) as [->|Hne].
  - rewrite (sum_list_with_ext _ (λ _, 0%nat)).
    + clear. induction vs as [|? ? IH]; [done|]. simpl in *. lia.
    + intros v Hv. rewrite decide_False; [done|]. by intros ->.
  - rewrite IH; [done|done|]. apply elem_of_cons in Hin as [?|?]; done.
Qed.

Lemma length_group_by (key : Z * Z → Z) (vs : list Z) (es : list (Z * Z)) :
  NoDup vs → (∀ e, e ∈ es → key e ∈ vs) →
  sum_list_with (λ v, length (filter (λ e, key e = v) es)) vs = length es.
Proof.
  intros Hnd. induction es as [|e es IH]; intros Hkey.
  - simpl. clear. induction vs as [|? ? IH]; [done|]. simpl in *. lia.
  - rewrite (sum_list_with_ext _
      (λ v, (if decide (key e = v) then 1 else 0)
            + length (filter (λ e, key e = v) es))%nat).
    + rewrite sum_list_with_plus, sum_list_with_indicator, IH; [done| |done|].
      * intros e' He'. apply Hkey. by right.
      * apply Hkey. left.
    + intros v _. rewrite filter_cons. by case_decide.
Qed.

(** X15. The out-degrees of the nodes add up to the number of rows, and so
    do the lengths of the inbound lists: every row is counted once at its
    source and listed once at its target. *)
Theorem degrees_add_up df_edges :
  sum_list_with (λ u, Z.to_nat (dd_getitem 0 (outdegree_of df_edges) u))
    (elements (all_nodes_of df_edges)) = length df_edges
  ∧ sum_list_with (λ v, length (dd_getitem [] (inbound_links_of df_edges) v))
      (elements (all_nodes_of df_edges)) = length df_edges.
Proof.
  split.
  - rewrite <-(length_group_by fst (elements (all_nodes_of df_edges)) df_edges).
    + apply sum_list_with_ext. intros u _. rewrite outdegree_lookup. lia.
    + apply NoDup_elements.
    + intros e He. apply elem_of_elements, elem_of_all_nodes. eauto.
  - rewrite <-(length_group_by snd (elements (all_nodes_of df_edges)) df_edges).
    + apply sum_list_with_ext. intros v _.
      by rewrite inbound_links_lookup, length_fmap.
    + apply NoDup_elements.
    + intros e He. apply elem_of_elements, elem_of_all_nodes. eauto.
Qed.

(** ** Nodes without inbound rows *)


